(** * Resilient API-access layer of the Solana memecoin monitor

    A shallow embedding of the four cooperating components that sit between
    the monitor and its upstream RPC providers:

    - [RequestQueue]  (src/RequestQueue.js, class RequestQueue): the
      rate-limited executor with its priority queue and retry policy;
    - [BatchManager]  (src/RequestQueue.js, class BatchManager): the
      aggregator that groups keyed lookups;
    - [CacheManager]  (CacheManager.js): the namespaced TTL/LRU cache;
    - [RPCManager]    (utils/rpc-manager.js): the endpoint registry.

    JavaScript numbers that the code uses as counters and millisecond
    timestamps are integers of [Z]; a JS [Map] whose iteration order the
    code relies on is an association list in insertion order; a [Map] or
    object that is only looked up is a [gmap].  The event loop is made
    explicit: every synchronous segment of an [async] method is one
    transition, timers are entries of a timer list, and [Date.now()] reads a
    clock that an environment event advances and that never goes back.  The
    transitions of a component can be interleaved in more ways than the
    JavaScript scheduler allows (a segment that the code runs right after
    another one may be delayed here), so what holds for all runs of the
    model holds for all runs of the code.  The closures callers pass in
    ([fn], [resolve], [reject], a batch function) are named by numbers, and
    what a call of one of them does is an event.  [updateConfig] and
    [destroy] are not part of the model; floating-point averages in the
    statistics are left out.  Methods that are not transitions of the event
    loop ([getStatus], [clearQueue], [chunkArray], [getMany], [getOrSet],
    [invalidatePattern], [createConnection], [retryWithFallback],
    [getEndpointStats]) are functions on the same states. *)

From stdpp Require Import gmap strings list.
From Stdlib Require Import ZArith Lia Sorted.

Local Open Scope Z_scope.

(** ** JavaScript values shared by the components *)

(** The values the callers pass through the layer.  [VNull] is JS [null];
    JS [undefined] only occurs as the result of a failed property lookup
    and is modelled by [None] at the lookup.  An object or a function is
    compared by identity: [VObject ref] is the one that [ref] names. *)
Inductive value : Type :=
  | VNull
  | VBool (b : bool)
  | VNum (n : Z)
  | VStr (s : string)
  | VObject (ref : string).

(** A thrown value as the error classifiers look at it: [message] is the
    [error.message] property (empty when missing or empty, both falsy) and
    [to_string] is what [error.toString()] gives. *)
Record js_error : Type := JsError {
  message : string;
  to_string : string
}.

(** [error.message || error.toString()] *)
Definition error_text (e : js_error) : string :=
  match message e with
  | EmptyString => to_string e
  | m => m
  end.

(** [String.prototype.includes] *)
Fixpoint includes (s needle : string) : bool :=
  String.prefix needle s ||
  match s with
  | EmptyString => false
  | String _ rest => includes rest needle
  end.

(** [x || d] on a numeric option of a constructor: a missing or zero value
    falls back to the default. *)
Definition or_default (x : option Z) (d : Z) : Z :=
  match x with
  | Some v => if decide (v = 0) then d else v
  | None => d
  end.

(** How a caller's promise ends. *)
Inductive settlement : Type :=
  | Resolved (v : value)
  | Rejected (e : option js_error).

(** ** RequestQueue: the rate-limited executor *)
Module RequestQueue.

(** The object pushed on [this.queue] by [enqueue].  [fn], [resolve] and
    [reject] are closures of one caller; [rid] names that caller. *)
Record request : Type := Request {
  rid : nat;
  priority : Z;
  attempts : Z;
  startTime : Z
}.

Record options : Type := Options {
  opt_maxRequestsPerSecond : option Z;
  opt_maxConcurrent : option Z;
  opt_retryAttempts : option Z;
  opt_retryDelay : option Z
}.

Record statistics : Type := Statistics {
  totalRequests : Z;
  successfulRequests : Z;
  failedRequests : Z;
  rateLimitErrors : Z;
  totalResponseTime : Z
}.

(** What a timer does when it fires. *)
Inductive timer_action : Type :=
  | TProcessQueue                 (* setTimeout(() => this.processQueue(), 100) *)
  | TRequeue (r : request)        (* the retry timer of handleRequestError *)
  | TWake.                        (* the sleep inside waitForRateLimit *)

(** The fields of the JS object, followed by the state of the event loop
    around it and by two logs that only observe: [starts] holds every
    timestamp [recordRequestTime] ever pushed (never pruned), [settled]
    every call of a [resolve] or [reject]. *)
Record state : Type := State {
  (* this.* *)
  maxRequestsPerSecond : Z;
  maxConcurrent : Z;
  retryAttempts : Z;
  retryDelay : Z;
  queue : list request;
  processing : bool;
  activeRequests : Z;
  requestTimes : list Z;
  stats : statistics;
  (* event loop *)
  clock : Z;
  timers : list (Z * timer_action);
  suspended : bool;               (* processQueue sleeps in waitForRateLimit *)
  inflight : list (request * Z);  (* awaiting request.fn(), with its startTime *)
  finishing : nat;                (* executeRequest between catch and finally *)
  nextId : nat;
  (* observation *)
  starts : list Z;
  settled : list (nat * settlement)
}.

Definition constructor (o : options) (now : Z) : state :=
  {| maxRequestsPerSecond := or_default (opt_maxRequestsPerSecond o) 10;
     maxConcurrent := or_default (opt_maxConcurrent o) 5;
     retryAttempts := or_default (opt_retryAttempts o) 3;
     retryDelay := or_default (opt_retryDelay o) 1000;
     queue := [];
     processing := false;
     activeRequests := 0;
     requestTimes := [];
     stats := Statistics 0 0 0 0 0;
     clock := now;
     timers := [];
     suspended := false;
     inflight := [];
     finishing := 0;
     nextId := 0;
     starts := [];
     settled := [] |}.

(** *** Field updates *)

Definition set_queue (q : list request) (s : state) : state :=
  State (maxRequestsPerSecond s) (maxConcurrent s) (retryAttempts s) (retryDelay s)
    q (processing s) (activeRequests s) (requestTimes s) (stats s)
    (clock s) (timers s) (suspended s) (inflight s) (finishing s) (nextId s)
    (starts s) (settled s).

Definition set_processing (b : bool) (s : state) : state :=
  State (maxRequestsPerSecond s) (maxConcurrent s) (retryAttempts s) (retryDelay s)
    (queue s) b (activeRequests s) (requestTimes s) (stats s)
    (clock s) (timers s) (suspended s) (inflight s) (finishing s) (nextId s)
    (starts s) (settled s).

Definition set_activeRequests (n : Z) (s : state) : state :=
  State (maxRequestsPerSecond s) (maxConcurrent s) (retryAttempts s) (retryDelay s)
    (queue s) (processing s) n (requestTimes s) (stats s)
    (clock s) (timers s) (suspended s) (inflight s) (finishing s) (nextId s)
    (starts s) (settled s).

Definition set_requestTimes (l : list Z) (s : state) : state :=
  State (maxRequestsPerSecond s) (maxConcurrent s) (retryAttempts s) (retryDelay s)
    (queue s) (processing s) (activeRequests s) l (stats s)
    (clock s) (timers s) (suspended s) (inflight s) (finishing s) (nextId s)
    (starts s) (settled s).

Definition set_stats (st : statistics) (s : state) : state :=
  State (maxRequestsPerSecond s) (maxConcurrent s) (retryAttempts s) (retryDelay s)
    (queue s) (processing s) (activeRequests s) (requestTimes s) st
    (clock s) (timers s) (suspended s) (inflight s) (finishing s) (nextId s)
    (starts s) (settled s).

Definition set_clock (t : Z) (s : state) : state :=
  State (maxRequestsPerSecond s) (maxConcurrent s) (retryAttempts s) (retryDelay s)
    (queue s) (processing s) (activeRequests s) (requestTimes s) (stats s)
    t (timers s) (suspended s) (inflight s) (finishing s) (nextId s)
    (starts s) (settled s).

Definition set_timers (l : list (Z * timer_action)) (s : state) : state :=
  State (maxRequestsPerSecond s) (maxConcurrent s) (retryAttempts s) (retryDelay s)
    (queue s) (processing s) (activeRequests s) (requestTimes s) (stats s)
    (clock s) l (suspended s) (inflight s) (finishing s) (nextId s)
    (starts s) (settled s).

Definition set_suspended (b : bool) (s : state) : state :=
  State (maxRequestsPerSecond s) (maxConcurrent s) (retryAttempts s) (retryDelay s)
    (queue s) (processing s) (activeRequests s) (requestTimes s) (stats s)
    (clock s) (timers s) b (inflight s) (finishing s) (nextId s)
    (starts s) (settled s).

Definition set_inflight (l : list (request * Z)) (s : state) : state :=
  State (maxRequestsPerSecond s) (maxConcurrent s) (retryAttempts s) (retryDelay s)
    (queue s) (processing s) (activeRequests s) (requestTimes s) (stats s)
    (clock s) (timers s) (suspended s) l (finishing s) (nextId s)
    (starts s) (settled s).

Definition set_finishing (n : nat) (s : state) : state :=
  State (maxRequestsPerSecond s) (maxConcurrent s) (retryAttempts s) (retryDelay s)
    (queue s) (processing s) (activeRequests s) (requestTimes s) (stats s)
    (clock s) (timers s) (suspended s) (inflight s) n (nextId s)
    (starts s) (settled s).

Definition set_nextId (n : nat) (s : state) : state :=
  State (maxRequestsPerSecond s) (maxConcurrent s) (retryAttempts s) (retryDelay s)
    (queue s) (processing s) (activeRequests s) (requestTimes s) (stats s)
    (clock s) (timers s) (suspended s) (inflight s) (finishing s) n
    (starts s) (settled s).

Definition set_starts (l : list Z) (s : state) : state :=
  State (maxRequestsPerSecond s) (maxConcurrent s) (retryAttempts s) (retryDelay s)
    (queue s) (processing s) (activeRequests s) (requestTimes s) (stats s)
    (clock s) (timers s) (suspended s) (inflight s) (finishing s) (nextId s)
    l (settled s).

Definition set_settled (l : list (nat * settlement)) (s : state) : state :=
  State (maxRequestsPerSecond s) (maxConcurrent s) (retryAttempts s) (retryDelay s)
    (queue s) (processing s) (activeRequests s) (requestTimes s) (stats s)
    (clock s) (timers s) (suspended s) (inflight s) (finishing s) (nextId s)
    (starts s) l.

Definition settle (id : nat) (o : settlement) (s : state) : state :=
  set_settled (settled s ++ [(id, o)]) s.

Definition add_timer (delay : Z) (a : timer_action) (s : state) : state :=
  set_timers (timers s ++ [(clock s + delay, a)]) s.

(** *** Error classification *)

Definition isRateLimitError (error : option js_error) : bool :=
  match error with
  | None => false
  | Some e =>
      let message := error_text e in
      includes message "429" ||
      includes message "Too Many Requests" ||
      includes message "rate limit" ||
      includes message "Rate limit"
  end.

Definition isRetriableError (error : option js_error) : bool :=
  match error with
  | None => false
  | Some e =>
      let message := error_text e in
      includes message "timeout" ||
      includes message "ECONNRESET" ||
      includes message "ETIMEDOUT" ||
      includes message "503" ||
      includes message "502" ||
      includes message "network"
  end.

(** [calculateRetryDelay]; it is only called with [attempts >= 1]. *)
Definition calculateRetryDelay (s : state) (attempts : Z) (isRateLimit : bool) : Z :=
  let baseDelay := retryDelay s in
  let exponentialDelay := baseDelay * 2 ^ (attempts - 1) in
  let rateLimitMultiplier := if isRateLimit then 3 else 1 in
  Z.min (exponentialDelay * rateLimitMultiplier) 30000.

(** *** Rate window *)

Definition recentRequests (now : Z) (times : list Z) : list Z :=
  filter (λ time, now - 1000 < time) times.

Definition canMakeRequest (s : state) : bool :=
  bool_decide (Z.of_nat (length (recentRequests (clock s) (requestTimes s)))
               < maxRequestsPerSecond s).

Definition recordRequestTime (s : state) : state :=
  set_starts (starts s ++ [clock s])
    (set_requestTimes (requestTimes s ++ [clock s]) s).

Definition cleanupOldTimes (s : state) : state :=
  set_requestTimes (filter (λ time, clock s - 5000 < time) (requestTimes s)) s.

(** [waitForRateLimit]: the time to sleep, or [None] when the method
    returns without sleeping.  A timestamp of 0 is falsy. *)
Definition waitForRateLimit (s : state) : option Z :=
  match head (recentRequests (clock s) (requestTimes s)) with
  | Some oldestRecentRequest =>
      if decide (oldestRecentRequest = 0) then None
      else
        let waitTime := oldestRecentRequest + 1000 - clock s + 50 in
        if decide (0 < waitTime) then Some waitTime else None
  | None => None
  end.

(** *** The queue *)

(** The insertion loop of [enqueue]: before the first entry of strictly
    lower priority, else at the end. *)
Fixpoint insertByPriority (r : request) (q : list request) : list request :=
  match q with
  | [] => [r]
  | x :: rest =>
      if decide (priority x < priority r) then r :: x :: rest
      else x :: insertByPriority r rest
  end.

Definition bump_total (st : statistics) : statistics :=
  Statistics (totalRequests st + 1) (successfulRequests st) (failedRequests st)
    (rateLimitErrors st) (totalResponseTime st).

Definition bump_success (responseTime : Z) (st : statistics) : statistics :=
  Statistics (totalRequests st) (successfulRequests st + 1) (failedRequests st)
    (rateLimitErrors st) (totalResponseTime st + responseTime).

Definition bump_failed (st : statistics) : statistics :=
  Statistics (totalRequests st) (successfulRequests st) (failedRequests st + 1)
    (rateLimitErrors st) (totalResponseTime st).

Definition bump_rateLimit (st : statistics) : statistics :=
  Statistics (totalRequests st) (successfulRequests st) (failedRequests st)
    (rateLimitErrors st + 1) (totalResponseTime st).

(** [processQueue] up to its loop: the guard and [processing = true].
    The loop body is [processQueue_iteration]. *)
Definition processQueue (s : state) : state :=
  if processing s then s
  else match queue s with
       | [] => s
       | _ :: _ => set_processing true s
       end.

(** [executeRequest] up to [await request.fn()]. *)
Definition executeRequest (r : request) (s : state) : state :=
  let s1 := set_activeRequests (activeRequests s + 1) s in
  let s2 := recordRequestTime s1 in
  set_inflight (inflight s2 ++ [(r, clock s2)]) s2.

(** One turn of the [while] loop of [processQueue], or its exit.  [dt] is
    the time that passes between the [Date.now()] of [canMakeRequest] and
    the one of [recordRequestTime]. *)
Definition processQueue_iteration (dt : Z) (s : state) : state :=
  match queue s with
  | request :: rest =>
      if decide (activeRequests s < maxConcurrent s) then
        if canMakeRequest s then
          let s1 := set_queue rest s in
          let s2 := set_clock (clock s1 + Z.max 0 dt) s1 in
          executeRequest request s2
        else
          match waitForRateLimit s with
          | Some waitTime => add_timer waitTime TWake (set_suspended true s)
          | None => s
          end
      else
        add_timer 100 TProcessQueue (set_processing false s)
  | [] => set_processing false s
  end.

Definition enqueue (prio : Z) (s : state) : state :=
  let request := Request (nextId s) prio 0 (clock s) in
  let s1 := set_nextId (S (nextId s)) s in
  let s2 := set_queue (insertByPriority request (queue s1)) s1 in
  let s3 := set_stats (bump_total (stats s2)) s2 in
  (* Start processing if not already running *)
  if processing s3 then s3 else processQueue s3.

(** [request.attempts++] *)
Definition bump_attempts (r : request) : request :=
  Request (rid r) (priority r) (attempts r + 1) (startTime r).

(** The [shouldRetry] of [handleRequestError], on the request whose
    attempt counter has already been incremented. *)
Definition shouldRetry (s : state) (r : request) (error : option js_error) : bool :=
  bool_decide (attempts r < retryAttempts s) &&
  (isRateLimitError error || isRetriableError error).

Definition handleRequestError (r : request) (error : option js_error) (s : state) : state :=
  let r := bump_attempts r in
  let isRateLimit := isRateLimitError error in
  let s1 := if isRateLimit then set_stats (bump_rateLimit (stats s)) s else s in
  if shouldRetry s1 r error then
    let delay := calculateRetryDelay s1 (attempts r) isRateLimit in
    add_timer delay (TRequeue r) s1
  else
    settle (rid r) (Rejected error) (set_stats (bump_failed (stats s1)) s1).

(** Removes the first in-flight entry of caller [id]. *)
Fixpoint take_inflight (id : nat) (l : list (request * Z))
  : option (request * Z * list (request * Z)) :=
  match l with
  | [] => None
  | x :: rest =>
      if decide (rid (fst x) = id) then Some (x, rest)
      else match take_inflight id rest with
           | Some (y, rest') => Some (y, x :: rest')
           | None => None
           end
  end.

(** [executeRequest] after [request.fn()] fulfilled with [result]:
    statistics, [resolve], and the [finally] block in the same segment. *)
Definition executeRequest_fulfilled (id : nat) (result : value) (s : state) : state :=
  match take_inflight id (inflight s) with
  | Some ((r, startTime), rest) =>
      let s1 := set_inflight rest s in
      let s2 := set_stats (bump_success (clock s1 - startTime) (stats s1)) s1 in
      let s3 := settle (rid r) (Resolved result) s2 in
      set_activeRequests (activeRequests s3 - 1) s3
  | None => s
  end.

(** [executeRequest] after [request.fn()] rejected: the [catch] block runs
    [handleRequestError] and awaits it; [finally] runs in a later segment. *)
Definition executeRequest_rejected (id : nat) (error : option js_error) (s : state) : state :=
  match take_inflight id (inflight s) with
  | Some ((r, _), rest) =>
      let s1 := set_inflight rest s in
      let s2 := handleRequestError r error s1 in
      set_finishing (S (finishing s2)) s2
  | None => s
  end.

Definition executeRequest_finally (s : state) : state :=
  match finishing s with
  | O => s
  | S n => set_activeRequests (activeRequests s - 1) (set_finishing n s)
  end.

(** A due timer is removed and its callback run. *)
Definition fire (i : nat) (s : state) : state :=
  match timers s !! i with
  | Some (due, action) =>
      if decide (due <= clock s) then
        let s1 := set_timers (delete i (timers s)) s in
        match action with
        | TProcessQueue => processQueue s1
        | TRequeue r =>
            let s2 := set_queue (r :: queue s1) s1 in
            if processing s2 then s2 else processQueue s2
        | TWake => set_suspended false s1
        end
      else s
  | None => s
  end.

(** *** Events of the event loop *)
Inductive event : Type :=
  | Tick (dt : Z)                               (* time passes *)
  | Enqueue (prio : Z)                          (* a caller calls enqueue *)
  | Resume (dt : Z)                             (* processQueue runs one turn *)
  | Fulfil (id : nat) (result : value)          (* request.fn() fulfils *)
  | Reject (id : nat) (error : option js_error) (* request.fn() rejects *)
  | Finally                                     (* a finally block runs *)
  | Fire (i : nat)                              (* timer i fires *)
  | Cleanup.                                    (* the setInterval callback *)

Definition step (ev : event) (s : state) : state :=
  match ev with
  | Tick dt => set_clock (clock s + Z.max 0 dt) s
  | Enqueue prio => enqueue prio s
  | Resume dt =>
      if processing s && negb (suspended s) then processQueue_iteration dt s else s
  | Fulfil id result => executeRequest_fulfilled id result s
  | Reject id error => executeRequest_rejected id error s
  | Finally => executeRequest_finally s
  | Fire i => fire i s
  | Cleanup => cleanupOldTimes s
  end.

Definition run (evs : list event) (s : state) : state :=
  foldl (λ s ev, step ev s) s evs.

(** The request a pending retry timer holds. *)
Definition timer_request (t : Z * timer_action) : option request :=
  match t.2 with
  | TRequeue r => Some r
  | _ => None
  end.

(** Every request object the executor holds: queued, awaiting its [fn], or
    waiting in a retry timer. *)
Definition pool (s : state) : list request :=
  queue s ++ (inflight s).*1 ++ omap timer_request (timers s).

(** [fails id ev s] is 1 when [ev] is a rejection of the [fn] of caller
    [id] while that caller's request is in flight. *)
Definition fails (id : nat) (ev : event) (s : state) : Z :=
  match ev with
  | Reject id' _ =>
      if decide (id' = id) then
        match take_inflight id (inflight s) with
        | Some _ => 1
        | None => 0
        end
      else 0
  | _ => 0
  end.

(** How often the operation of caller [id] has failed along a run. *)
Fixpoint failures_of (id : nat) (evs : list event) (s : state) : Z :=
  match evs with
  | [] => 0
  | ev :: rest => fails id ev s + failures_of id rest (step ev s)
  end.

(** [ev] fires a due retry timer. *)
Definition requeues (ev : event) (s : state) : bool :=
  match ev with
  | Fire i =>
      match timers s !! i with
      | Some (due, TRequeue _) => bool_decide (due <= clock s)
      | _ => false
      end
  | _ => false
  end.

(** No retry timer fires along the run of [evs] from [s]. *)
Fixpoint never_requeues (evs : list event) (s : state) : bool :=
  match evs with
  | [] => true
  | ev :: rest => negb (requeues ev s) && never_requeues rest (step ev s)
  end.

(** [a] is to be serviced before [b]: higher priority, or the same priority
    and enqueued earlier. *)
Definition served_before (a b : request) : Prop :=
  priority b < priority a ∨ (priority a = priority b ∧ (rid a < rid b)%nat).

Definition queue_ordered (q : list request) : Prop :=
  ∀ i j a b, (i < j)%nat → q !! i = Some a → q !! j = Some b → served_before a b.

(** The starts recorded in the half-open window [(w - 1000, w]]. *)
Definition starts_in_window (w : Z) (s : state) : list Z :=
  filter (λ t, w - 1000 < t ∧ t <= w) (starts s).

(** *** Invariants and scenarios *)

Definition active_inv (s : state) : Prop :=
  activeRequests s = Z.of_nat (length (inflight s)) + Z.of_nat (finishing s) ∧
  activeRequests s <= maxConcurrent s.

(** An event dispatches an operation when it hands one more request to
    its [fn]. *)
Definition dispatches (ev : event) (s : state) : Prop :=
  (length (inflight s) < length (inflight (step ev s)))%nat.

(** [requestTimes] is the log of starts without a prefix that
    [cleanupOldTimes] has pruned; only stamps at least five seconds old
    are ever missing. *)
Definition times_inv (s : state) : Prop :=
  ∃ b, b <= clock s - 5000 ∧ requestTimes s = filter (λ t, b < t) (starts s).

Definition window_inv (s : state) : Prop :=
  ∀ w, Z.of_nat (length (starts_in_window w s)) <= maxRequestsPerSecond s.

(** A run with [maxRequestsPerSecond = 2] and [maxConcurrent = 2]: three
    callers; the third finds both slots taken, and once a slot is free it
    has to sleep until the rate window has room. *)
Definition demo_options : options := Options (Some 2) (Some 2) None None.

Definition demo_events : list event :=
  [Enqueue 0; Resume 0; Resume 0;
   Enqueue 0; Resume 3; Resume 0;
   Enqueue 0; Resume 0;
   Fulfil 0 (VNum 7); Tick 100; Fire 0; Resume 0;
   Tick 947; Fire 0; Resume 0].

(** Along a run, every caller has at most one request object in the
    executor, the attempt counter of that object is the number of times the
    caller's operation has failed so far, and the caller is not settled
    yet. *)
Definition retry_inv (s0 : state) (evs : list event) : Prop :=
  NoDup (rid <$> pool (run evs s0)) ∧
  (∀ r, r ∈ pool (run evs s0) →
        (rid r < nextId (run evs s0))%nat ∧
        attempts r = failures_of (rid r) evs s0 ∧
        rid r ∉ (settled (run evs s0)).*1) ∧
  (∀ id, (nextId (run evs s0) <= id)%nat →
         failures_of id evs s0 = 0 ∧ id ∉ (settled (run evs s0)).*1).

Definition timeout_error : option js_error :=
  Some (JsError "Request timeout after 30000ms" "Error: Request timeout after 30000ms").

Definition throttled_error : option js_error :=
  Some (JsError "429 Too Many Requests" "Error: 429 Too Many Requests").

(** One caller on a default executor: the operation fails with a timeout,
    is retried after a second, fails with a 429, is retried after six
    seconds and is awaiting its third attempt. *)
Definition retry_events : list event :=
  [Enqueue 0; Resume 0; Resume 0;
   Reject 0 timeout_error; Finally; Tick 1000; Fire 0; Resume 0; Resume 0;
   Reject 0 throttled_error; Finally; Tick 6000; Fire 0; Resume 0].

Definition order_inv (s : state) : Prop :=
  StronglySorted served_before (queue s) ∧
  ∀ x, x ∈ queue s → (rid x < nextId s)%nat.

(** A low-priority operation fails with a timeout and comes back while an
    operation of priority 5 is waiting for the rate window (one request
    per second). *)
Definition requeue_options : options := Options (Some 1) None None None.

Definition requeue_events : list event :=
  [Enqueue 0; Resume 0; Resume 0; Reject 0 timeout_error; Finally;
   Tick 500; Enqueue 5; Resume 0; Tick 500; Fire 0; Tick 50; Fire 0].

(** One request per second: the first caller is dispatched, three more
    queue up behind the rate window. *)
Definition order_events : list event :=
  [Enqueue 0; Resume 0; Resume 0; Enqueue 1; Resume 0; Enqueue 5; Enqueue 5].

(** *** Status report and [clearQueue] *)

(** The object [getStatus] returns: its own four fields, then the spread
    statistics. *)
Record status : Type := Status {
  queueLength : Z;
  status_activeRequests : Z;
  status_processing : bool;
  status_recentRequests : Z;
  status_stats : statistics
}.

Definition getStatus (s : state) : status :=
  {| queueLength := Z.of_nat (length (queue s));
     status_activeRequests := activeRequests s;
     status_processing := processing s;
     status_recentRequests :=
       Z.of_nat (length (filter (λ time, clock s - 1000 < time) (requestTimes s)));
     status_stats := stats s |}.

Definition queue_cleared : option js_error :=
  Some (JsError "Queue cleared" "Error: Queue cleared").

(** [clearQueue]: every queued request is rejected, then the queue is
    replaced by an empty one. *)
Definition clearQueue (s : state) : state :=
  set_queue []
    (foldl (λ s request, settle (rid request) (Rejected queue_cleared) s) s (queue s)).

(** *** Further invariants *)

(** Every recorded stamp was read from the clock: it lies between the time
    of construction and now. *)
Definition stamps_inv (now0 : Z) (s : state) : Prop :=
  now0 <= clock s ∧
  Forall (λ t, now0 <= t ∧ t <= clock s) (requestTimes s) ∧
  Forall (λ t, t <= clock s) (starts s).

Definition is_resolved (x : nat * settlement) : bool :=
  match x.2 with
  | Resolved _ => true
  | Rejected _ => false
  end.

(** The counters of [this.stats] against what happened to the callers. *)
Definition accounting (s : state) : Prop :=
  totalRequests (stats s) = Z.of_nat (nextId s) ∧
  successfulRequests (stats s)
    = Z.of_nat (length (filter (λ x, is_resolved x = true) (settled s))) ∧
  failedRequests (stats s)
    = Z.of_nat (length (filter (λ x, is_resolved x = false) (settled s))) ∧
  nextId s = (length (settled s) + length (pool s))%nat.

(** Work that is waiting has something that will pick it up: a sleeping
    [processQueue] has its wake-up timer, and a non-empty queue has a
    running [processQueue] or a timer that starts one. *)
Definition alive (s : state) : Prop :=
  (suspended s = true → ∃ due, (due, TWake) ∈ timers s) ∧
  (queue s ≠ [] → processing s = true ∨ ∃ due, (due, TProcessQueue) ∈ timers s).

End RequestQueue.

(** ** A JavaScript [Map] in insertion order *)
Module JsMap.
Section defs.
Context {A : Type}.

Fixpoint get (k : string) (m : list (string * A)) : option A :=
  match m with
  | [] => None
  | (k', v) :: rest => if decide (k' = k) then Some v else get k rest
  end.

(** [Map.prototype.set]: an existing key keeps its position. *)
Fixpoint set (k : string) (v : A) (m : list (string * A)) : list (string * A) :=
  match m with
  | [] => [(k, v)]
  | (k', v') :: rest =>
      if decide (k' = k) then (k, v) :: rest else (k', v') :: set k v rest
  end.

Fixpoint remove (k : string) (m : list (string * A)) : list (string * A) :=
  match m with
  | [] => []
  | (k', v') :: rest =>
      if decide (k' = k) then rest else (k', v') :: remove k rest
  end.

Definition keys (m : list (string * A)) : list string := m.*1.
End defs.
End JsMap.

(** ** BatchManager: the aggregator *)
Module BatchManager.

(** [batch.options] *)
Record batch_options : Type := BatchOptions {
  maxSize : Z;
  maxWait : Z;
  minSize : Z
}.

(** The [options] argument of [addToBatch]. *)
Record add_options : Type := AddOptions {
  opt_maxSize : option Z;
  opt_maxWait : option Z;
  opt_minSize : option Z
}.

(** An entry of [this.batches].  [items] maps a key to its [addedAt],
    [promises] maps a key to the caller whose [resolve]/[reject] pair is
    stored under it; [batchFunction] names the closure that was passed,
    [timeout] is the handle of the pending deadline timer. *)
Record batch : Type := Batch {
  items : list (string * Z);
  promises : list (string * nat);
  batchFunction : nat;
  timeout : option nat;
  options : batch_options
}.

Record statistics : Type := Statistics {
  totalRequests : Z;
  batchedRequests : Z;
  totalBatches : Z;
  totalBatchSize : Z;
  timeouts : Z;
  errors : Z
}.

Inductive reason : Type := ReasonTimeout | ReasonFull | ReasonManual.

#[global] Instance reason_eq_dec : EqDecision reason.
Proof. solve_decision. Defined.

(** A call of a batch function that has not settled yet: the batch type,
    the closure, the keys it was given and the copy of the promises map. *)
Record call : Type := Call {
  call_type : string;
  call_function : nat;
  call_items : list string;
  call_promises : list (string * nat)
}.

(** How the awaited [batchFunction(items)] ends: it fulfils with a plain
    object ([Fulfilled (Some results)]: an object literal like the
    [results = {}] that the batch functions of this file fill in, given by
    those of its own properties that are bound to a value), with
    [undefined] ([Fulfilled None]) or with [null], or it rejects. *)
Inductive batch_outcome : Type :=
  | Fulfilled (results : option (gmap string value))
  | FulfilledNull
  | Failed (error : option js_error).

Record state : Type := State {
  (* this.* *)
  maxBatchSize : Z;
  maxWaitTime : Z;
  minBatchSize : Z;
  batches : gmap string batch;
  stats : statistics;
  (* event loop *)
  clock : Z;
  timers : list (nat * (Z * string));   (* handle, due time, batch type *)
  nextTimer : nat;
  nextPromise : nat;
  pending : list call;                  (* awaited batch functions *)
  (* observation *)
  invoked : list call;                  (* every call of a batch function *)
  settled : list (nat * settlement)
}.

Record manager_options : Type := ManagerOptions {
  opt_maxBatchSize : option Z;
  opt_maxWaitTime : option Z;
  opt_minBatchSize : option Z
}.

Definition constructor (o : manager_options) (now : Z) : state :=
  {| maxBatchSize := or_default (opt_maxBatchSize o) 10;
     maxWaitTime := or_default (opt_maxWaitTime o) 2000;
     minBatchSize := or_default (opt_minBatchSize o) 2;
     batches := ∅;
     stats := Statistics 0 0 0 0 0 0;
     clock := now;
     timers := [];
     nextTimer := 0;
     nextPromise := 0;
     pending := [];
     invoked := [];
     settled := [] |}.

Definition set_batches (m : gmap string batch) (s : state) : state :=
  State (maxBatchSize s) (maxWaitTime s) (minBatchSize s) m (stats s)
    (clock s) (timers s) (nextTimer s) (nextPromise s) (pending s)
    (invoked s) (settled s).

Definition set_stats (st : statistics) (s : state) : state :=
  State (maxBatchSize s) (maxWaitTime s) (minBatchSize s) (batches s) st
    (clock s) (timers s) (nextTimer s) (nextPromise s) (pending s)
    (invoked s) (settled s).

Definition set_clock (t : Z) (s : state) : state :=
  State (maxBatchSize s) (maxWaitTime s) (minBatchSize s) (batches s) (stats s)
    t (timers s) (nextTimer s) (nextPromise s) (pending s)
    (invoked s) (settled s).

Definition set_timers (l : list (nat * (Z * string))) (s : state) : state :=
  State (maxBatchSize s) (maxWaitTime s) (minBatchSize s) (batches s) (stats s)
    (clock s) l (nextTimer s) (nextPromise s) (pending s)
    (invoked s) (settled s).

Definition set_nextTimer (n : nat) (s : state) : state :=
  State (maxBatchSize s) (maxWaitTime s) (minBatchSize s) (batches s) (stats s)
    (clock s) (timers s) n (nextPromise s) (pending s)
    (invoked s) (settled s).

Definition set_nextPromise (n : nat) (s : state) : state :=
  State (maxBatchSize s) (maxWaitTime s) (minBatchSize s) (batches s) (stats s)
    (clock s) (timers s) (nextTimer s) n (pending s)
    (invoked s) (settled s).

Definition set_pending (l : list call) (s : state) : state :=
  State (maxBatchSize s) (maxWaitTime s) (minBatchSize s) (batches s) (stats s)
    (clock s) (timers s) (nextTimer s) (nextPromise s) l
    (invoked s) (settled s).

Definition set_invoked (l : list call) (s : state) : state :=
  State (maxBatchSize s) (maxWaitTime s) (minBatchSize s) (batches s) (stats s)
    (clock s) (timers s) (nextTimer s) (nextPromise s) (pending s)
    l (settled s).

Definition set_settled (l : list (nat * settlement)) (s : state) : state :=
  State (maxBatchSize s) (maxWaitTime s) (minBatchSize s) (batches s) (stats s)
    (clock s) (timers s) (nextTimer s) (nextPromise s) (pending s)
    (invoked s) l.

Definition with_items (l : list (string * Z)) (b : batch) : batch :=
  Batch l (promises b) (batchFunction b) (timeout b) (options b).

Definition with_promises (l : list (string * nat)) (b : batch) : batch :=
  Batch (items b) l (batchFunction b) (timeout b) (options b).

Definition with_timeout (t : option nat) (b : batch) : batch :=
  Batch (items b) (promises b) (batchFunction b) t (options b).

(** [setTimeout] and [clearTimeout] *)
Definition setTimeout (delay : Z) (batchType : string) (s : state) : nat * state :=
  (nextTimer s,
   set_nextTimer (S (nextTimer s))
     (set_timers (timers s ++ [(nextTimer s, (clock s + delay, batchType))]) s)).

Definition clearTimeout (handle : nat) (s : state) : state :=
  set_timers (filter (λ t, t.1 ≠ handle) (timers s)) s.

(** The synchronous part of [processBatch], up to the call of the batch
    function. *)
Definition processBatch (batchType : string) (why : reason) (s : state) : state :=
  match batches s !! batchType with
  | None => s
  | Some batch =>
      if decide (length (items batch) = 0%nat) then s
      else
        (* Clear timeout *)
        let '(batch, s) :=
          match timeout batch with
          | Some handle =>
              let batch := with_timeout None batch in
              (batch, set_batches (<[batchType := batch]> (batches s))
                        (clearTimeout handle s))
          | None => (batch, s)
          end in
        (* Don't process if batch is too small (unless timeout) *)
        if decide (Z.of_nat (length (items batch)) < minSize (options batch)
                   ∧ why ≠ ReasonTimeout) then s
        else
          (* Extract batch data *)
          let keys := JsMap.keys (items batch) in
          let c := Call batchType (batchFunction batch) keys (promises batch) in
          (* Clear batch *)
          let batch := with_promises [] (with_items [] batch) in
          let s := set_batches (<[batchType := batch]> (batches s)) s in
          (* Update statistics *)
          let n := Z.of_nat (length keys) in
          let st := stats s in
          let st := Statistics (totalRequests st) (batchedRequests st + n)
                      (totalBatches st + 1) (totalBatchSize st + n)
                      (if decide (why = ReasonTimeout) then timeouts st + 1
                       else timeouts st)
                      (errors st) in
          let s := set_stats st s in
          (* Execute batch function *)
          set_invoked (invoked s ++ [c]) (set_pending (pending s ++ [c]) s)
  end.

Definition addToBatch (batchType key : string) (batchFunction : nat)
    (o : add_options) (s : state) : nat * state :=
  let st := stats s in
  let s := set_stats (Statistics (totalRequests st + 1) (batchedRequests st)
                        (totalBatches st) (totalBatchSize st) (timeouts st)
                        (errors st)) s in
  (* the caller's promise *)
  let promise := nextPromise s in
  let s := set_nextPromise (S promise) s in
  (* Get or create batch for this type *)
  let batch :=
    match batches s !! batchType with
    | Some batch => batch
    | None =>
        {| items := [];
           promises := [];
           batchFunction := batchFunction;
           timeout := None;
           options := {| maxSize := or_default (opt_maxSize o) (maxBatchSize s);
                         maxWait := or_default (opt_maxWait o) (maxWaitTime s);
                         minSize := or_default (opt_minSize o) (minBatchSize s) |} |}
    end in
  (* Add item to batch *)
  let batch := with_items (JsMap.set key (clock s) (items batch)) batch in
  let batch := with_promises (JsMap.set key promise (promises batch)) batch in
  (* Set timeout if this is the first item *)
  let '(batch, s) :=
    if decide (length (items batch) = 1%nat ∧ timeout batch = None) then
      let '(handle, s) := setTimeout (maxWait (options batch)) batchType s in
      (with_timeout (Some handle) batch, s)
    else (batch, s) in
  let s := set_batches (<[batchType := batch]> (batches s)) s in
  (* Process immediately if batch is full *)
  let s :=
    if decide (maxSize (options batch) <= Z.of_nat (length (items batch)))
    then processBatch batchType ReasonFull s
    else s in
  (promise, s).

(** [new Error(`No result for key: ${key}`)] *)
Definition missing_result (key : string) : js_error :=
  JsError ("No result for key: " +:+ key) ("Error: No result for key: " +:+ key).

(** The [TypeError] of [results[key]] when [results] is [undefined] or
    [null]; [what] is the word for it in the message. *)
Definition type_error (what key : string) : js_error :=
  JsError ("Cannot read properties of " +:+ what +:+ " (reading '" +:+ key +:+ "')")
          ("TypeError: Cannot read properties of " +:+ what +:+ " (reading '"
             +:+ key +:+ "')").

(** What every plain object inherits from [Object.prototype]: the
    constructor [Object], ten methods, and the accessor [__proto__], which
    gives the prototype itself. *)
Definition Object_prototype : gmap string value :=
  list_to_map
    [("constructor", VObject "Object");
     ("__defineGetter__", VObject "Object.prototype.__defineGetter__");
     ("__defineSetter__", VObject "Object.prototype.__defineSetter__");
     ("hasOwnProperty", VObject "Object.prototype.hasOwnProperty");
     ("__lookupGetter__", VObject "Object.prototype.__lookupGetter__");
     ("__lookupSetter__", VObject "Object.prototype.__lookupSetter__");
     ("isPrototypeOf", VObject "Object.prototype.isPrototypeOf");
     ("propertyIsEnumerable", VObject "Object.prototype.propertyIsEnumerable");
     ("toString", VObject "Object.prototype.toString");
     ("valueOf", VObject "Object.prototype.valueOf");
     ("__proto__", VObject "Object.prototype");
     ("toLocaleString", VObject "Object.prototype.toLocaleString")].

(** [results[key]] on a plain object with the own properties [results]:
    an own property, or else a member inherited from [Object.prototype];
    [None] is [undefined]. *)
Definition get_property (results : gmap string value) (key : string) : option value :=
  match results !! key with
  | Some result => Some result
  | None => Object_prototype !! key
  end.

(** The loop that resolves the individual promises: [results[key]], then
    the test [result !== undefined]. *)
Definition resolve_member (results : gmap string value) (member : string * nat)
  : nat * settlement :=
  match get_property results member.1 with
  | Some result => (member.2, Resolved result)
  | None => (member.2, Rejected (Some (missing_result member.1)))
  end.

Definition reject_member (error : option js_error) (member : string * nat)
  : nat * settlement :=
  (member.2, Rejected error).

Definition bump_errors (s : state) : state :=
  let st := stats s in
  set_stats (Statistics (totalRequests st) (batchedRequests st) (totalBatches st)
               (totalBatchSize st) (timeouts st) (errors st + 1)) s.

(** The resolving loop on a result that is [undefined] or [null]: the
    lookup for the first member throws, and the [catch] block rejects every
    member with that [TypeError]. *)
Definition results_unreadable (what : string) (c : call) (s : state) : state :=
  match call_promises c with
  | [] => s
  | (key, _) :: _ =>
      let s := bump_errors s in
      set_settled
        (settled s ++ (reject_member (Some (type_error what key)) <$> call_promises c)) s
  end.

(** The rest of [processBatch], once the batch function of the pending
    call [i] has settled. *)
Definition processBatch_settled (i : nat) (o : batch_outcome) (s : state) : state :=
  match pending s !! i with
  | None => s
  | Some c =>
      let s := set_pending (delete i (pending s)) s in
      match o with
      | Fulfilled (Some results) =>
          set_settled (settled s ++ (resolve_member results <$> call_promises c)) s
      | Fulfilled None => results_unreadable "undefined" c s
      | FulfilledNull => results_unreadable "null" c s
      | Failed error =>
          let s := bump_errors s in
          set_settled (settled s ++ (reject_member error <$> call_promises c)) s
      end
  end.

(** [new Error('Batch cleared')] *)
Definition batch_cleared : js_error := JsError "Batch cleared" "Error: Batch cleared".

Definition clearAllBatches (s : state) : state :=
  let members := map_to_list (batches s) in
  let handles := omap (λ kb, timeout kb.2) members in
  let s := set_timers (filter (λ t, t.1 ∉ handles) (timers s)) s in
  let s := set_settled
             (settled s ++
              (members ≫= λ kb, reject_member (Some batch_cleared) <$> promises kb.2)) s in
  set_batches ∅ s.

(** A due deadline timer runs [processBatch(batchType, 'timeout')]. *)
Definition fire (i : nat) (s : state) : state :=
  match timers s !! i with
  | Some (_, (due, batchType)) =>
      if decide (due <= clock s) then
        processBatch batchType ReasonTimeout (set_timers (delete i (timers s)) s)
      else s
  | None => s
  end.

Inductive event : Type :=
  | Tick (dt : Z)
  | Add (batchType key : string) (batchFunction : nat) (o : add_options)
  | Fire (i : nat)
  | Manual (batchType : string)               (* processBatch(batchType) *)
  | Settle (i : nat) (o : batch_outcome)      (* an awaited batch function settles *)
  | ClearAll.                                 (* clearAllBatches / destroy *)

Definition step (ev : event) (s : state) : state :=
  match ev with
  | Tick dt => set_clock (clock s + Z.max 0 dt) s
  | Add batchType key batchFunction o => (addToBatch batchType key batchFunction o s).2
  | Fire i => fire i s
  | Manual batchType => processBatch batchType ReasonManual s
  | Settle i o => processBatch_settled i o s
  | ClearAll => clearAllBatches s
  end.

Definition run (evs : list event) (s : state) : state :=
  foldl (λ s ev, step ev s) s evs.

(** The callers whose continuation is still stored somewhere: in an open
    group or in the copy held by an awaited call. *)
Definition waiting (s : state) : list nat :=
  (map_to_list (batches s) ≫= λ kb, (promises kb.2).*2) ++
  (pending s ≫= λ c, (call_promises c).*2).

Definition settled_callers (s : state) : list nat := (settled s).*1.

(** *** Invariants and scenarios *)

(** [b'] is the entry [b] up to its members and its timer. *)
Definition same_setup (b b' : batch) : Prop :=
  batchFunction b' = batchFunction b ∧ options b' = options b.

(** The calls a transition adds to the log are calls of the stored
    closure. *)
Definition calls_function (kind : string) (f : nat) (new : list call) : Prop :=
  ∀ c, c ∈ new → call_type c = kind → call_function c = f.

(** The entry that [addToBatch] works on: the stored one, or a new one
    made from the arguments. *)
Definition entry_for (batchFunction : nat) (o : add_options) (s : state)
    (stored : option batch) : batch :=
  match stored with
  | Some b => b
  | None =>
      Batch [] [] batchFunction None
        (BatchOptions (or_default (opt_maxSize o) (maxBatchSize s))
                      (or_default (opt_maxWait o) (maxWaitTime s))
                      (or_default (opt_minSize o) (minBatchSize s)))
  end.

(** What follows the add that created the entry of "prices": a second add
    with another function and other options joins the group, the deadline
    flushes it, and a third add with yet another function and [maxSize = 1]
    opens the next group, which is flushed by its deadline too. *)
Definition first_add_events : list event :=
  [Add "prices" "b" 2 (AddOptions (Some 5) (Some 10) (Some 1));
   Tick 2000; Fire 0;
   Settle 0 (Fulfilled (Some {["a" := VNum 1]}));
   Add "prices" "c" 3 (AddOptions (Some 1) None (Some 1));
   Tick 2000; Fire 0].


(** Caller [p]'s continuation is held in an open group or by an awaited
    call. *)
Definition stored (p : nat) (s : state) : Prop :=
  (∃ kind b key, batches s !! kind = Some b ∧ (key, p) ∈ promises b) ∨
  (∃ c key, c ∈ pending s ∧ (key, p) ∈ call_promises c).

(** Caller [p] has called [addToBatch], was not settled, and nothing holds
    its continuation any more. *)
Definition lost (p : nat) (s : state) : Prop :=
  (p < nextPromise s)%nat ∧ ¬ stored p s ∧ (p ∉ settled_callers s) ∧
  ∀ q, stored q s → (q < nextPromise s)%nat.

(** Two callers add the key "a" to the open group of "prices"; the
    deadline passes, the group is flushed and the batch function answers
    for "a". *)
Definition repeated_key_events : list event :=
  [Add "prices" "a" 1 (AddOptions None None None);
   Add "prices" "a" 1 (AddOptions None None None);
   Tick 2000; Fire 0;
   Settle 0 (Fulfilled (Some {["a" := VNum 1]}))].

Definition repeated_key_state : state :=
  run repeated_key_events (constructor (ManagerOptions None None None) 0).

(** A caller asks for the key "constructor"; the deadline passes, the
    group is flushed and the batch function answers with [{}], an object
    without an entry for the key. *)
Definition inherited_key_events : list event :=
  [Add "prices" "constructor" 1 (AddOptions None None None);
   Tick 2000; Fire 0;
   Settle 0 (Fulfilled (Some ∅))].

(** *** [chunkArray] *)

(** The [for] loop of [chunkArray] from index [i] on, for a chunk size that
    is a natural number.  [array.slice(i, i + chunkSize)] is
    [take chunkSize (drop i array)].  The loop need not end: [fuel] bounds
    the number of turns, and [None] says that the loop is still running
    when the fuel is used up. *)
Fixpoint chunk_loop {A : Type} (fuel i chunkSize : nat) (array : list A)
  : option (list (list A)) :=
  if decide (i < length array)%nat then
    match fuel with
    | O => None
    | S fuel =>
        cons (take chunkSize (drop i array))
          <$> chunk_loop fuel (i + chunkSize) chunkSize array
    end
  else Some [].

Definition chunkArray {A : Type} (array : list A) (chunkSize : nat)
  : option (list (list A)) :=
  chunk_loop (length array) 0 chunkSize array.

(** *** Further invariants *)

(** [addToBatch] up to the point where the entry has been stored again,
    before the check for a full group. *)
Definition addToBatch_member (batchType key : string) (batchFunction : nat)
    (o : add_options) (s : state) : batch * state :=
  let st := stats s in
  let s := set_stats (Statistics (totalRequests st + 1) (batchedRequests st)
                        (totalBatches st) (totalBatchSize st) (timeouts st)
                        (errors st)) s in
  let promise := nextPromise s in
  let s := set_nextPromise (S promise) s in
  let batch := entry_for batchFunction o s (batches s !! batchType) in
  let batch := with_items (JsMap.set key (clock s) (items batch)) batch in
  let batch := with_promises (JsMap.set key promise (promises batch)) batch in
  let '(batch, s) :=
    if decide (length (items batch) = 1%nat ∧ timeout batch = None) then
      let '(handle, s) := setTimeout (maxWait (options batch)) batchType s in
      (with_timeout (Some handle) batch, s)
    else (batch, s) in
  (batch, set_batches (<[batchType := batch]> (batches s)) s).

(** The members of a group and of a call: the keys of [items] are the keys
    of [promises], in the same order and without repetition, and a batch
    function is called with at least one key. *)
Definition members_inv (s : state) : Prop :=
  (∀ kind b, batches s !! kind = Some b →
     (items b).*1 = (promises b).*1 ∧ NoDup (items b).*1) ∧
  (∀ c, c ∈ invoked s →
     call_items c = (call_promises c).*1 ∧ NoDup (call_items c) ∧ call_items c ≠ []).

(** A group that is still open is below its [maxSize], or held back by its
    [minSize]. *)
Definition size_inv (s : state) : Prop :=
  ∀ kind b, batches s !! kind = Some b →
    items b = [] ∨
    Z.of_nat (length (items b)) < maxSize (options b) ∨
    Z.of_nat (length (items b)) < minSize (options b).

(** Deadline timers and the [timeout] fields point at each other: a
    pending timer belongs to a group with members whose [timeout] is its
    handle and it is due at most [maxWait] from now; a group whose
    [timeout] is set has that timer pending; handles are not shared. *)
Definition deadline_inv (s : state) : Prop :=
  (∀ h due kind, (h, (due, kind)) ∈ timers s →
     ∃ b, batches s !! kind = Some b ∧ timeout b = Some h ∧ items b ≠ [] ∧
          due <= clock s + maxWait (options b)) ∧
  (∀ kind b h, batches s !! kind = Some b → timeout b = Some h →
     (h < nextTimer s)%nat ∧ ∃ due, (h, (due, kind)) ∈ timers s) ∧
  (∀ k1 k2 b1 b2 h, batches s !! k1 = Some b1 → batches s !! k2 = Some b2 →
     timeout b1 = Some h → timeout b2 = Some h → k1 = k2).

(** [pendingItems] of [getStats]: the members of all open groups. *)
Definition pendingItems (s : state) : nat :=
  sum_list_with (λ kb, length (items kb.2)) (map_to_list (batches s)).

(** The number of keys that have been handed to batch functions. *)
Definition keys_passed (s : state) : nat :=
  sum_list_with (λ c, length (call_items c)) (invoked s).

(** The counters of [this.stats] against what happened. *)
Definition stats_inv (s : state) : Prop :=
  totalRequests (stats s) = Z.of_nat (nextPromise s) ∧
  totalBatches (stats s) = Z.of_nat (length (invoked s)) ∧
  batchedRequests (stats s) = Z.of_nat (keys_passed s) ∧
  totalBatchSize (stats s) = Z.of_nat (keys_passed s) ∧
  (keys_passed s + pendingItems s <= nextPromise s)%nat ∧
  0 <= timeouts (stats s) <= totalBatches (stats s) ∧
  0 <= errors (stats s) ∧
  errors (stats s) + Z.of_nat (length (pending s)) <= totalBatches (stats s).

End BatchManager.

(** ** CacheManager: the result cache *)
Module CacheManager.

Record entry : Type := Entry {
  data : value;
  createdAt : Z;
  expiresAt : Z;
  lastAccessed : Z
}.

Definition with_lastAccessed (t : Z) (e : entry) : entry :=
  Entry (data e) (createdAt e) (expiresAt e) t.

Record options : Type := Options {
  tokenMetadataTTL : option Z;
  priceDataTTL : option Z;
  riskAssessmentsTTL : option Z;
  liquidityDataTTL : option Z;
  holderDataTTL : option Z;
  volumeDataTTL : option Z;
  tokenMetadataLimit : option Z;
  priceDataLimit : option Z;
  riskAssessmentsLimit : option Z;
  liquidityDataLimit : option Z;
  holderDataLimit : option Z;
  volumeDataLimit : option Z
}.

Definition default_options : options :=
  Options None None None None None None None None None None None None.

Record statistics : Type := Statistics {
  hits : gmap string Z;
  misses : gmap string Z;
  sets : gmap string Z;
  evictions : gmap string Z
}.

Record state : Type := State {
  caches : gmap string (list (string * entry));
  ttls : gmap string Z;
  limits : gmap string Z;
  stats : statistics;
  clock : Z
}.

Definition cacheTypes : list string :=
  ["tokenMetadata"; "priceData"; "riskAssessments"; "liquidityData";
   "holderData"; "volumeData"].

Definition zero_counters : gmap string Z :=
  list_to_map ((λ cacheType, (cacheType, 0)) <$> cacheTypes).

Definition constructor (o : options) (now : Z) : state :=
  {| caches := list_to_map ((λ cacheType, (cacheType, [])) <$> cacheTypes);
     ttls := list_to_map
       [("tokenMetadata", or_default (tokenMetadataTTL o) 1800000);
        ("priceData", or_default (priceDataTTL o) 30000);
        ("riskAssessments", or_default (riskAssessmentsTTL o) 600000);
        ("liquidityData", or_default (liquidityDataTTL o) 60000);
        ("holderData", or_default (holderDataTTL o) 300000);
        ("volumeData", or_default (volumeDataTTL o) 120000)];
     limits := list_to_map
       [("tokenMetadata", or_default (tokenMetadataLimit o) 5000);
        ("priceData", or_default (priceDataLimit o) 2000);
        ("riskAssessments", or_default (riskAssessmentsLimit o) 3000);
        ("liquidityData", or_default (liquidityDataLimit o) 2000);
        ("holderData", or_default (holderDataLimit o) 2000);
        ("volumeData", or_default (volumeDataLimit o) 2000)];
     stats := Statistics zero_counters zero_counters zero_counters zero_counters;
     clock := now |}.

Definition set_cache (cacheType : string) (cache : list (string * entry))
    (s : state) : state :=
  State (<[cacheType := cache]> (caches s)) (ttls s) (limits s) (stats s) (clock s).

Definition set_stats (st : statistics) (s : state) : state :=
  State (caches s) (ttls s) (limits s) st (clock s).

Definition set_clock (t : Z) (s : state) : state :=
  State (caches s) (ttls s) (limits s) (stats s) t.

(** [counter[cacheType]++] *)
Definition incr (cacheType : string) (m : gmap string Z) : gmap string Z :=
  <[cacheType := default 0 (m !! cacheType) + 1]> m.

Definition count_hit (cacheType : string) (s : state) : state :=
  let st := stats s in
  set_stats (Statistics (incr cacheType (hits st)) (misses st) (sets st) (evictions st)) s.

Definition count_miss (cacheType : string) (s : state) : state :=
  let st := stats s in
  set_stats (Statistics (hits st) (incr cacheType (misses st)) (sets st) (evictions st)) s.

Definition count_set (cacheType : string) (s : state) : state :=
  let st := stats s in
  set_stats (Statistics (hits st) (misses st) (incr cacheType (sets st)) (evictions st)) s.

Definition count_eviction (cacheType : string) (s : state) : state :=
  let st := stats s in
  set_stats (Statistics (hits st) (misses st) (sets st) (incr cacheType (evictions st))) s.

(** What a method call gives back: a value, or a thrown error. *)
Inductive outcome (A : Type) : Type :=
  | Returns (a : A)
  | Throws (e : js_error).
Arguments Returns {A} a.
Arguments Throws {A} e.

Definition invalid_cache_type (cacheType : string) : js_error :=
  JsError ("Invalid cache type: " +:+ cacheType)
          ("Error: Invalid cache type: " +:+ cacheType).

Definition get (cacheType key : string) (s : state) : outcome value * state :=
  match caches s !! cacheType with
  | None => (Throws (invalid_cache_type cacheType), s)
  | Some cache =>
      match JsMap.get key cache with
      | None => (Returns VNull, count_miss cacheType s)
      | Some entry =>
          (* Check if entry is expired *)
          if decide (expiresAt entry < clock s) then
            (Returns VNull,
             count_miss cacheType (set_cache cacheType (JsMap.remove key cache) s))
          else
            (* Update access time for LRU *)
            let entry := with_lastAccessed (clock s) entry in
            (Returns (data entry),
             count_hit cacheType (set_cache cacheType (JsMap.set key entry cache) s))
      end
  end.

(** The scan of [evictOldest]: the first entry whose [lastAccessed] is
    strictly below everything seen before it, starting from [Infinity]. *)
Definition older (acc : option (string * Z)) (kv : string * entry)
  : option (string * Z) :=
  match acc with
  | None => Some (kv.1, lastAccessed kv.2)
  | Some (oldestKey, oldestTime) =>
      if decide (lastAccessed kv.2 < oldestTime) then Some (kv.1, lastAccessed kv.2)
      else acc
  end.

Definition oldest (cache : list (string * entry)) : option (string * Z) :=
  foldl older None cache.

(** [if (oldestKey)]: [null] and the empty string are falsy. *)
Definition truthy_key (k : string) : bool :=
  match k with
  | EmptyString => false
  | _ => true
  end.

Definition evictOldest (cacheType : string) (s : state) : state :=
  match caches s !! cacheType with
  | None => s
  | Some cache =>
      match oldest cache with
      | Some (oldestKey, _) =>
          if truthy_key oldestKey then
            count_eviction cacheType
              (set_cache cacheType (JsMap.remove oldestKey cache) s)
          else s
      | None => s
      end
  end.

Definition set (cacheType key : string) (v : value) (customTTL : option Z)
    (s : state) : outcome bool * state :=
  match caches s !! cacheType with
  | None => (Throws (invalid_cache_type cacheType), s)
  | Some cache =>
      (* every declared cache type has a TTL; the default is never read *)
      let ttl := or_default customTTL (default 0 (ttls s !! cacheType)) in
      let now := clock s in
      (* Check cache size limit and evict if necessary *)
      let s :=
        match limits s !! cacheType with
        | Some limit =>
            if decide (limit <= Z.of_nat (length cache)) then evictOldest cacheType s
            else s
        | None => s
        end in
      let entry := {| data := v; createdAt := now; expiresAt := now + ttl;
                      lastAccessed := now |} in
      let cache := default [] (caches s !! cacheType) in
      (Returns true,
       count_set cacheType (set_cache cacheType (JsMap.set key entry cache) s))
  end.

(** [delete(cacheType, key)] and [clear(cacheType)]; the boolean results
    are not modelled. *)
Definition delete (cacheType key : string) (s : state) : state :=
  match caches s !! cacheType with
  | None => s
  | Some cache => set_cache cacheType (JsMap.remove key cache) s
  end.

Definition clear (cacheType : string) (s : state) : state :=
  match caches s !! cacheType with
  | None => s
  | Some _ => set_cache cacheType [] s
  end.

(** The periodic sweep: every expired entry of every cache goes, and is
    counted as an eviction. *)
Definition cleanup_cache (cacheType : string) (s : state) : state :=
  match caches s !! cacheType with
  | None => s
  | Some cache =>
      let keysToDelete := (filter (λ kv, expiresAt kv.2 < clock s) cache).*1 in
      foldl (λ s key, count_eviction cacheType (delete cacheType key s)) s keysToDelete
  end.

Definition cleanup (s : state) : state :=
  foldl (λ s cacheType, cleanup_cache cacheType s) s cacheTypes.

Inductive event : Type :=
  | Tick (dt : Z)
  | Get (cacheType key : string)
  | Set_ (cacheType key : string) (v : value) (customTTL : option Z)
  | Delete (cacheType key : string)
  | Clear (cacheType : string)
  | Cleanup.

Definition step (ev : event) (s : state) : state :=
  match ev with
  | Tick dt => set_clock (clock s + Z.max 0 dt) s
  | Get cacheType key => (get cacheType key s).2
  | Set_ cacheType key v customTTL => (set cacheType key v customTTL s).2
  | Delete cacheType key => delete cacheType key s
  | Clear cacheType => clear cacheType s
  | Cleanup => cleanup s
  end.

Definition run (evs : list event) (s : state) : state :=
  foldl (λ s ev, step ev s) s evs.

(** [cache.size] of a namespace *)
Definition size (cacheType : string) (s : state) : nat :=
  length (default [] (caches s !! cacheType)).

(** *** Invariants and scenarios *)

(** Every declared cache type has its [Map], and a [Map] has each key
    once. *)
Definition well_formed (s : state) : Prop :=
  (∀ cacheType, cacheType ∈ cacheTypes → is_Some (caches s !! cacheType)) ∧
  (∀ cacheType cache, caches s !! cacheType = Some cache → NoDup cache.*1).

(** The price cache with a TTL of 100 ms, written at time 0 and read
    150 ms later. *)
Definition ttl_options : options :=
  Options None (Some 100) None None None None None None None None None None.

Definition ttl_events : list event :=
  [Set_ "priceData" "mint" (VNum 42) None; Tick 150].

(** A price cache limited to one entry; the first key written is the
    empty string. *)
Definition empty_key_options : options :=
  Options None None None None None None None (Some 1) None None None None.

Definition empty_key_events : list event :=
  [Set_ "priceData" "" (VNum 1) None; Set_ "priceData" "a" (VNum 2) None].

(** *** [has], [getMany], [getOrSet], [invalidatePattern] *)

(** [value !== null] *)
Definition not_null (v : value) : bool :=
  match v with
  | VNull => false
  | _ => true
  end.

Definition has (cacheType key : string) (s : state) : outcome bool * state :=
  match get cacheType key s with
  | (Returns v, s') => (Returns (not_null v), s')
  | (Throws e, s') => (Throws e, s')
  end.

(** [getMany]: the [results] object is a map from the keys that were found
    to their values (for every key but "__proto__", which an assignment
    does not turn into a property).  A [get] that throws ends the loop. *)
Definition getMany (cacheType : string) (keys : list string) (s : state)
  : outcome (gmap string value) * state :=
  foldl (λ acc key,
           match acc with
           | (Returns results, s) =>
               match get cacheType key s with
               | (Returns v, s') =>
                   (Returns (if not_null v then <[key := v]> results else results), s')
               | (Throws e, s') => (Throws e, s')
               end
           | (Throws e, s) => (Throws e, s)
           end)
        (Returns ∅, s) keys.

(** [getOrSet] up to [await fetchFunction()]: [Some data] is returned to
    the caller at once, [None] says that the fetch function is called. *)
Definition getOrSet_lookup (cacheType key : string) (s : state)
  : outcome (option value) * state :=
  match get cacheType key s with
  | (Returns v, s') => (Returns (if not_null v then Some v else None), s')
  | (Throws e, s') => (Throws e, s')
  end.

(** [getOrSet] after the fetch function has fulfilled with [fetched]
    ([None] is [undefined]): the value is stored unless it is [null] or
    [undefined], and it is what the caller gets. *)
Definition getOrSet_fetched (cacheType key : string) (fetched : option value)
    (customTTL : option Z) (s : state) : option value * state :=
  match fetched with
  | Some v =>
      if not_null v then (fetched, (set cacheType key v customTTL s).2)
      else (fetched, s)
  | None => (fetched, s)
  end.

(** [invalidatePattern]: [test] is [pattern.test] of a regular expression
    without the [g] and [y] flags, whose answer depends on the key only. *)
Definition invalidatePattern (cacheType : string) (test : string → bool) (s : state)
  : Z * state :=
  match caches s !! cacheType with
  | None => (0, s)
  | Some cache =>
      let keysToDelete := filter (λ key, test key = true) (JsMap.keys cache) in
      (Z.of_nat (length keysToDelete),
       foldl (λ s key, delete cacheType key s) s keysToDelete)
  end.

(** *** Further invariants *)

(** What a reader can still see under [key]: the data of the entry, when
    there is one that has not expired. *)
Definition live (cacheType key : string) (s : state) : option value :=
  match caches s !! cacheType with
  | Some cache =>
      match JsMap.get key cache with
      | Some e => if decide (expiresAt e < clock s) then None else Some (data e)
      | None => None
      end
  | None => None
  end.

(** Every key in a cache is truthy, and a cache with a limit is within
    it. *)
Definition bounded (s : state) : Prop :=
  (∀ cacheType cache k, caches s !! cacheType = Some cache → k ∈ cache.*1 →
     truthy_key k = true) ∧
  (∀ cacheType cache limit, caches s !! cacheType = Some cache →
     limits s !! cacheType = Some limit → 1 <= limit →
     Z.of_nat (length cache) <= limit).

(** The keys an event writes. *)
Definition sets_truthy_key (ev : event) : Prop :=
  match ev with
  | Set_ _ key _ _ => truthy_key key = true
  | _ => True
  end.

End CacheManager.

(** ** RPCManager: the endpoint registry *)
Module RPCManager.

Record endpoint : Type := Endpoint {
  name : string;
  priority : Z;
  maxRPS : Z
}.

Record state : Type := State {
  currentEndpointIndex : nat;
  endpoints : list endpoint;
  failureCounts : gmap string Z;
  lastFailureTime : gmap string Z;
  maxFailures : Z;
  cooldownPeriod : Z;
  clock : Z
}.

(** [loadEndpoints]; [helius] tells whether ap.txt holds a Helius key. *)
Definition loadEndpoints (helius : bool) : list endpoint :=
  (if helius then [Endpoint "Helius (Primary)" 1 100] else []) ++
  [Endpoint "dRPC (Free)" 2 10;
   Endpoint "Solana Foundation (Backup)" 3 2].

Definition constructor (helius : bool) (now : Z) : state :=
  {| currentEndpointIndex := 0;
     endpoints := loadEndpoints helius;
     failureCounts := ∅;
     lastFailureTime := ∅;
     maxFailures := 5;
     cooldownPeriod := 60000;
     clock := now |}.

Definition set_index (i : nat) (s : state) : state :=
  State i (endpoints s) (failureCounts s) (lastFailureTime s)
    (maxFailures s) (cooldownPeriod s) (clock s).

Definition set_failureCounts (m : gmap string Z) (s : state) : state :=
  State (currentEndpointIndex s) (endpoints s) m (lastFailureTime s)
    (maxFailures s) (cooldownPeriod s) (clock s).

Definition set_lastFailureTime (m : gmap string Z) (s : state) : state :=
  State (currentEndpointIndex s) (endpoints s) (failureCounts s) m
    (maxFailures s) (cooldownPeriod s) (clock s).

Definition set_clock (t : Z) (s : state) : state :=
  State (currentEndpointIndex s) (endpoints s) (failureCounts s) (lastFailureTime s)
    (maxFailures s) (cooldownPeriod s) t.

(** [this.endpoints[this.currentEndpointIndex]]; [None] is [undefined]. *)
Definition getCurrentEndpoint (s : state) : option endpoint :=
  endpoints s !! currentEndpointIndex s.

Definition isEndpointInCooldown (endpointName : string) (s : state) : bool :=
  let failureCount := default 0 (failureCounts s !! endpointName) in
  let lastFailure := or_default (lastFailureTime s !! endpointName) 0 in
  if decide (maxFailures s <= failureCount) then
    let timeSinceFailure := clock s - lastFailure in
    bool_decide (timeSinceFailure < cooldownPeriod s)
  else false.

(** The [while] loop of [switchToNextEndpoint] with [fuel] turns left.
    The result is [Some true], [Some false], or [None] for the
    [TypeError] of reading [name] of [undefined]. *)
Fixpoint switch_loop (fuel : nat) (s : state) : option bool * state :=
  match fuel with
  | O => (Some false, s)
  | S fuel =>
      let totalEndpoints := length (endpoints s) in
      let s := set_index ((currentEndpointIndex s + 1) `mod` totalEndpoints)%nat s in
      match getCurrentEndpoint s with
      | Some nextEndpoint =>
          if isEndpointInCooldown (name nextEndpoint) s then switch_loop fuel s
          else (Some true, s)
      | None => (None, s)
      end
  end.

Definition switchToNextEndpoint (s : state) : option bool * state :=
  switch_loop (length (endpoints s)) s.

Definition handleEndpointFailure (endpointName : string) (s : state) : state :=
  let currentCount := default 0 (failureCounts s !! endpointName) in
  let s := set_failureCounts (<[endpointName := currentCount + 1]> (failureCounts s)) s in
  let s := set_lastFailureTime (<[endpointName := clock s]> (lastFailureTime s)) s in
  if decide (maxFailures s <= currentCount + 1) then (switchToNextEndpoint s).2
  else s.

Definition resetFailureCount (endpointName : string) (s : state) : state :=
  set_lastFailureTime (delete endpointName (lastFailureTime s))
    (set_failureCounts (<[endpointName := 0]> (failureCounts s)) s).

Inductive event : Type :=
  | Tick (dt : Z)
  | Failure (endpointName : string)   (* a connection attempt failed *)
  | Success (endpointName : string)   (* a connection attempt succeeded *)
  | Switch.                           (* retryWithFallback moves on *)

Definition step (ev : event) (s : state) : state :=
  match ev with
  | Tick dt => set_clock (clock s + Z.max 0 dt) s
  | Failure endpointName => handleEndpointFailure endpointName s
  | Success endpointName => resetFailureCount endpointName s
  | Switch => (switchToNextEndpoint s).2
  end.

Definition run (evs : list event) (s : state) : state :=
  foldl (λ s ev, step ev s) s evs.

(** An endpoint that may be selected now. *)
Definition available (s : state) (e : endpoint) : Prop :=
  e ∈ endpoints s ∧ isEndpointInCooldown (name e) s = false.

(** The reading of the contract of [current()]: [e] is available and no
    available endpoint ranks before it (rank 1 is the primary). *)
Definition highest_priority_available (s : state) (e : endpoint) : Prop :=
  available s e ∧ ∀ e', available s e' → priority e <= priority e'.

(** [e] failed last no later than every other endpoint. *)
Definition least_recently_failed (s : state) (e : endpoint) : Prop :=
  e ∈ endpoints s ∧
  ∀ e', e' ∈ endpoints s →
        default 0 (lastFailureTime s !! name e) <= default 0 (lastFailureTime s !! name e').

(** *** Invariants and scenarios *)

(** The endpoint at position [i] is in cooldown. *)
Definition cooling (s : state) (i : nat) : Prop :=
  ∃ e, endpoints s !! i = Some e ∧ isEndpointInCooldown (name e) s = true.

(** The index stays inside the list, whose length never changes. *)
Definition index_inv (s : state) : Prop :=
  (currentEndpointIndex s < length (endpoints s))%nat.

Definition helius_primary : endpoint := Endpoint "Helius (Primary)" 1 100.
Definition drpc_free : endpoint := Endpoint "dRPC (Free)" 2 10.
Definition solana_backup : endpoint := Endpoint "Solana Foundation (Backup)" 3 2.

(** The primary fails five times in a row and its cooldown of a minute
    runs out. *)
Definition recovered_events : list event :=
  replicate 5 (Failure "Helius (Primary)") ++ [Tick 60000].

(** Without a Helius key: the first endpoint fails five times, then, ten
    milliseconds later, the second one does. *)
Definition all_cooling_events : list event :=
  replicate 5 (Failure "dRPC (Free)") ++ [Tick 10] ++
  replicate 5 (Failure "Solana Foundation (Backup)").

(** *** [createConnection], [retryWithFallback], [getEndpointStats] *)

(** A value that is thrown, as the [catch] blocks of this class look at
    it: both read [error.message] first, and that read is itself a
    [TypeError] when the value is [undefined] or [null].  Any other value
    is given by what its [message] and its [toString()] yield. *)
Inductive thrown : Type :=
  | Undefined
  | Null
  | Other (e : js_error).

(** The [TypeError] of reading [property] of [undefined] or of [null]. *)
Definition cannot_read (what property : string) : js_error :=
  JsError ("Cannot read properties of " +:+ what +:+ " (reading '" +:+ property +:+ "')")
          ("TypeError: Cannot read properties of " +:+ what +:+ " (reading '"
             +:+ property +:+ "')").

(** [error.message] in a [catch] block: the [TypeError] that the read
    throws, or [None] when the read goes through. *)
Definition read_message (error : thrown) : option js_error :=
  match error with
  | Undefined => Some (cannot_read "undefined" "message")
  | Null => Some (cannot_read "null" "message")
  | Other _ => None
  end.

(** What leaves a [catch] block that reads [error.message] and later
    rethrows [error]. *)
Definition rethrown (error : thrown) : thrown :=
  match read_message error with
  | Some typeError => Other typeError
  | None => error
  end.

(** How a call of an [operation] of [retryWithFallback] ends. *)
Inductive attempt_result : Type :=
  | Succeeded (v : value)
  | Failed (error : thrown).

(** What [retryWithFallback] gives back: the value it returns, or the
    value it throws ([Undefined] is the initial [lastError]). *)
Inductive retry_result : Type :=
  | Returned (v : value)
  | Thrown (error : thrown).

(** The [TypeError] of [endpoint.name] when there is no endpoint at the
    current index. *)
Definition undefined_endpoint : js_error := cannot_read "undefined" "name".

(** [createConnection] from [await connection.getVersion()] on.
    [endpoint] is the endpoint that was read before the await, [outcome]
    is how [getVersion] ended ([None] for success, [Some error] for the
    value it threw) and [s] is the registry at that time.  On success the
    failure count of [endpoint] is reset; the connection returned is named
    by its endpoint.  On failure the [catch] block reads [error.message]
    before it counts the failure and rethrows. *)
Definition createConnection_settled (endpoint : endpoint) (outcome : option thrown)
    (s : state) : attempt_result * state :=
  match outcome with
  | None => (Succeeded (VStr (name endpoint)), resetFailureCount (name endpoint) s)
  | Some error =>
      match read_message error with
      | Some typeError => (Failed (Other typeError), s)
      | None => (Failed error, handleEndpointFailure (name endpoint) s)
      end
  end.

(** [createConnection]: it reads the current endpoint, awaits
    [getVersion] while the events [during] happen to the registry (time
    passes; attempts of other callers fail or succeed and may move the
    index), and goes on with the endpoint it has read.  Without an endpoint
    at the index the constructor of the connection throws at once, and the
    [catch] block throws on [endpoint.name]. *)
Definition createConnection (during : list event) (outcome : option thrown) (s : state)
  : attempt_result * state :=
  match getCurrentEndpoint s with
  | Some endpoint => createConnection_settled endpoint outcome (run during s)
  | None => (Failed (Other undefined_endpoint), s)
  end.

(** The [for] loop of [retryWithFallback] with [remaining] turns left, at
    attempt number [attempt].  [operation i] is what call number [i] of
    the operation does to the registry, together with what happens to the
    registry while the call is awaited, and how the call ends.  The [catch]
    block reads [error.message] before anything else.  The pause before the
    next attempt is the second the timer is set to, followed by the events
    [pause i] that happen to the registry before the loop goes on. *)
Fixpoint retry_loop (remaining attempt : nat) (maxRetries : Z)
    (operation : nat → state → attempt_result * state) (pause : nat → list event)
    (lastError : thrown) (s : state) : retry_result * state :=
  match remaining with
  | O => (Thrown lastError, s)
  | S remaining =>
      match operation attempt s with
      | (Succeeded result, s) => (Returned result, s)
      | (Failed error, s) =>
          match read_message error with
          | Some typeError => (Thrown (Other typeError), s)
          | None =>
              if decide (Z.of_nat attempt < maxRetries - 1) then
                (* Try next endpoint *)
                match switchToNextEndpoint s with
                | (Some true, s) =>
                    (* Wait a bit before retry *)
                    retry_loop remaining (S attempt) maxRetries operation pause error
                      (run (pause attempt) (set_clock (clock s + 1000) s))
                | (Some false, s) => (Thrown error, s)
                | (None, s) => (Thrown (Other undefined_endpoint), s)
                end
              else retry_loop remaining (S attempt) maxRetries operation pause error s
          end
      end
  end.

Definition retryWithFallback (operation : nat → state → attempt_result * state)
    (pause : nat → list event) (maxRetries : Z) (s : state) : retry_result * state :=
  retry_loop (Z.to_nat maxRetries) 0 maxRetries operation pause Undefined s.

Record endpoint_stat : Type := EndpointStat {
  stat_index : nat;
  stat_name : string;
  isActive : bool;
  failures : Z;
  inCooldown : bool;
  stat_maxRPS : Z
}.

Definition getEndpointStats (s : state) : list endpoint_stat :=
  imap (λ index endpoint,
          {| stat_index := index;
             stat_name := name endpoint;
             isActive := bool_decide (index = currentEndpointIndex s);
             failures := default 0 (failureCounts s !! name endpoint);
             inCooldown := isEndpointInCooldown (name endpoint) s;
             stat_maxRPS := maxRPS endpoint |})
       (endpoints s).

(** The registry is as the constructor configures it. *)
Definition configured (s : state) : Prop :=
  maxFailures s = 5 ∧ cooldownPeriod s = 60000 ∧
  (currentEndpointIndex s < length (endpoints s))%nat.

(** The error of a connection attempt that does not get through. *)
Definition fetch_failed : thrown :=
  Other (JsError "fetch failed" "TypeError: fetch failed").

(** The network as [createConnection] meets it at each attempt: what
    happens to the registry while [getVersion] is awaited, and how
    [getVersion] ends. *)
Definition connect (network : nat → list event * option thrown) (attempt : nat)
    (s : state) : attempt_result * state :=
  createConnection (network attempt).1 (network attempt).2 s.

(** Only time passes: nobody else touches the registry. *)
Definition is_tick (ev : event) : Prop :=
  match ev with
  | Tick _ => True
  | _ => False
  end.

End RPCManager.

(** * Properties *)

(** ** Lists *)

Section filter_facts.
Context {A : Type}.

Lemma filter_length_mono (P Q : A → Prop)
    `{!∀ x, Decision (P x)} `{!∀ x, Decision (Q x)} (l : list A) :
  (∀ x, P x → Q x) →
  (length (filter P l) <= length (filter Q l))%nat.
Proof.
  intros HPQ. induction l as [|x l IH]; [done|].
  rewrite !filter_cons.
  destruct (decide (P x)) as [HP|HP]; destruct (decide (Q x)) as [HQ|HQ]; simpl; try lia.
  exfalso. apply HQ, HPQ, HP.
Qed.

Lemma filter_filter_weaker (P Q : A → Prop)
    `{!∀ x, Decision (P x)} `{!∀ x, Decision (Q x)} (l : list A) :
  (∀ x, P x → Q x) →
  filter P (filter Q l) = filter P l.
Proof.
  intros HPQ. induction l as [|x l IH]; [done|].
  rewrite !filter_cons.
  destruct (decide (Q x)) as [HQ|HQ].
  - rewrite filter_cons. destruct (decide (P x)); by rewrite IH.
  - destruct (decide (P x)) as [HP|HP]; [|done]. exfalso. apply HQ, HPQ, HP.
Qed.
End filter_facts.

Module RequestQueueFacts.
Import RequestQueue.

Ltac unfold_methods :=
  unfold step, enqueue, processQueue_iteration, executeRequest_fulfilled,
    executeRequest_rejected, executeRequest_finally, fire, cleanupOldTimes,
    handleRequestError, executeRequest, recordRequestTime, processQueue,
    add_timer, settle in *.

(** The configuration is never written after construction. *)
Lemma step_config ev s :
  maxRequestsPerSecond (step ev s) = maxRequestsPerSecond s ∧
  maxConcurrent (step ev s) = maxConcurrent s ∧
  retryAttempts (step ev s) = retryAttempts s ∧
  retryDelay (step ev s) = retryDelay s.
Proof.
  destruct ev; unfold_methods; repeat case_match; simpl; auto.
Qed.

Lemma queue_run_snoc evs ev s : run (evs ++ [ev]) s = step ev (run evs s).
Proof. unfold run. by rewrite foldl_app. Qed.

Lemma run_config evs s :
  maxRequestsPerSecond (run evs s) = maxRequestsPerSecond s ∧
  maxConcurrent (run evs s) = maxConcurrent s ∧
  retryAttempts (run evs s) = retryAttempts s ∧
  retryDelay (run evs s) = retryDelay s.
Proof.
  induction evs as [|ev evs IH] using rev_ind; [done|].
  rewrite queue_run_snoc.
  destruct (step_config ev (run evs s)) as (-> & -> & -> & ->). exact IH.
Qed.

(** *** Concurrency cap *)

Lemma take_inflight_length id l x rest :
  take_inflight id l = Some (x, rest) → length l = S (length rest).
Proof.
  revert x rest. induction l as [|y l IH]; intros x rest; simpl; [done|].
  case_decide.
  - intros [= <- <-]. done.
  - destruct (take_inflight id l) as [[z rest']|] eqn:E; [|done].
    intros [= <- <-]. simpl. f_equal. by eapply IH.
Qed.

Lemma step_active_inv ev s : active_inv s → active_inv (step ev s).
Proof.
  unfold active_inv. intros [Hcount Hcap].
  destruct ev; unfold_methods; repeat case_match; simpl in *;
    rewrite ?length_app; simpl;
    try match goal with
        | H : take_inflight _ _ = Some _ |- _ => apply take_inflight_length in H
        end;
    try lia.
Qed.

Lemma run_active_inv evs s : active_inv s → active_inv (run evs s).
Proof.
  intros H. induction evs as [|ev evs IH] using rev_ind; [done|].
  rewrite queue_run_snoc. by apply step_active_inv.
Qed.

Lemma dispatch_guard ev s :
  dispatches ev s →
  activeRequests s < maxConcurrent s ∧ canMakeRequest s = true ∧
  ∃ dt, ev = Resume dt ∧
        starts (step ev s) = starts s ++ [clock s + Z.max 0 dt].
Proof.
  unfold dispatches.
  destruct ev; unfold_methods; repeat case_match; simpl in *;
    rewrite ?length_app; simpl;
    try match goal with
        | H : take_inflight _ _ = Some _ |- _ => apply take_inflight_length in H
        end;
    try lia.
  intros _. repeat split; eauto.
Qed.

(** *** Rate window *)

Lemma times_inv_frame s s' :
  times_inv s →
  clock s <= clock s' → requestTimes s' = requestTimes s → starts s' = starts s →
  times_inv s'.
Proof.
  intros (b & Hb & Heq) Hclock Ht Hs. exists b. rewrite Ht, Hs. split; [lia|done].
Qed.

Lemma recent_of_log s :
  times_inv s →
  recentRequests (clock s) (requestTimes s) = recentRequests (clock s) (starts s).
Proof.
  intros (b & Hb & ->). unfold recentRequests.
  apply filter_filter_weaker. intros t Ht. lia.
Qed.

Lemma step_times_inv ev s : times_inv s → times_inv (step ev s).
Proof.
  intros Hinv.
  destruct ev; unfold_methods; repeat case_match; simpl in *;
    try (by apply (times_inv_frame s); simpl; try done; lia).
  - (* a start is recorded *)
    destruct Hinv as (b & Hb & Heq). exists b. simpl. split; [lia|].
    rewrite Heq, filter_app, filter_cons, filter_nil.
    destruct (decide (b < clock s + Z.max 0 dt)); [done|lia].
  - (* cleanup *)
    destruct Hinv as (b & Hb & Heq). exists (clock s - 5000). simpl. split; [lia|].
    rewrite Heq. apply filter_filter_weaker. intros t Ht. lia.
Qed.

Lemma window_after_start (log : list Z) now t R :
  now <= t →
  Z.of_nat (length (recentRequests now log)) < R →
  (∀ w, Z.of_nat (length (filter (λ x, w - 1000 < x ∧ x <= w) log)) <= R) →
  ∀ w, Z.of_nat (length (filter (λ x, w - 1000 < x ∧ x <= w) (log ++ [t]))) <= R.
Proof.
  intros Hnow Hrecent Hold w.
  rewrite filter_app, length_app, filter_cons, filter_nil.
  destruct (decide (w - 1000 < t ∧ t <= w)) as [Hin|Hout]; simpl.
  - pose proof (filter_length_mono (λ x, w - 1000 < x ∧ x <= w)
                  (λ time, now - 1000 < time) log) as Hmono.
    unfold recentRequests in Hrecent.
    assert (∀ x, w - 1000 < x ∧ x <= w → now - 1000 < x) as Himp by (intros; lia).
    specialize (Hmono Himp). lia.
  - specialize (Hold w). lia.
Qed.

(** The log of starts grows only in the dispatching turn of
    [processQueue], and there by one stamp. *)
Lemma step_starts ev s :
  starts (step ev s) = starts s ∨
  (canMakeRequest s = true ∧ activeRequests s < maxConcurrent s ∧
   ∃ dt, ev = Resume dt ∧ starts (step ev s) = starts s ++ [clock s + Z.max 0 dt]).
Proof.
  destruct ev; unfold_methods; repeat case_match; simpl in *; auto.
  right. repeat split; eauto.
Qed.

Lemma step_window_inv ev s :
  times_inv s → window_inv s → window_inv (step ev s).
Proof.
  intros Htimes Hwin w. unfold starts_in_window.
  destruct (step_config ev s) as (-> & _).
  destruct (step_starts ev s) as [->|(Hcan & _ & dt & _ & ->)]; [apply Hwin|].
  apply (window_after_start _ (clock s)); [lia| |apply Hwin].
  unfold canMakeRequest in Hcan. apply bool_decide_eq_true in Hcan.
  by rewrite <- recent_of_log.
Qed.

Lemma run_rate_inv evs s :
  times_inv s → window_inv s → times_inv (run evs s) ∧ window_inv (run evs s).
Proof.
  intros Ht Hw. induction evs as [|ev evs [IHt IHw]] using rev_ind; [done|].
  rewrite queue_run_snoc. split; [by apply step_times_inv|by apply step_window_inv].
Qed.

Lemma constructor_times_inv o now : times_inv (constructor o now).
Proof. exists (now - 5000). simpl. split; [lia|done]. Qed.



(** C2 (concurrency cap).  For an executor built with a non-negative
    [maxConcurrent], after any sequence of events the operations in flight
    (handed to their [fn] and not yet settled) are counted by
    [activeRequests], [activeRequests] is at most [maxConcurrent], and an
    event hands a request to its [fn] only in a state where
    [activeRequests < maxConcurrent]. *)
Theorem concurrency_cap (o : options) (now : Z) (evs : list event) :
  0 <= maxConcurrent (constructor o now) →
  Z.of_nat (length (inflight (run evs (constructor o now))))
    <= activeRequests (run evs (constructor o now)) ∧
  activeRequests (run evs (constructor o now)) <= maxConcurrent (constructor o now) ∧
  (∀ ev, dispatches ev (run evs (constructor o now)) →
         activeRequests (run evs (constructor o now)) < maxConcurrent (constructor o now)).
Proof.
  intros Hpos.
  destruct (run_active_inv evs (constructor o now)) as [Hcount Hcap].
  { split; simpl in *; lia. }
  destruct (run_config evs (constructor o now)) as (_ & HM & _).
  rewrite <- HM. repeat split; [lia|done|].
  intros ev Hd. by apply dispatch_guard in Hd as (? & _).
Qed.

Lemma concurrency_cap_witness :
  Z.of_nat (length (inflight (run demo_events (constructor demo_options 1000000)))) <= 2.
Proof.
  pose proof (concurrency_cap demo_options 1000000 demo_events) as H.
  destruct H as (H1 & H2 & _); [simpl; lia|].
  etrans; [exact H1|exact H2].
Defined.

(** *** Retries *)

Lemma take_inflight_spec id l r t rest :
  take_inflight id l = Some ((r, t), rest) → rid r = id ∧ l ≡ₚ (r, t) :: rest.
Proof.
  revert rest. induction l as [|x l IH]; intros rest; simpl; [done|].
  case_decide as Hx.
  - intros [= -> <-]. done.
  - destruct (take_inflight id l) as [[[r' t'] rest']|]; [|done].
    intros [= -> -> <-]. destruct (IH rest' eq_refl) as [Hr Hp].
    split; [done|]. rewrite Hp. apply Permutation_swap.
Qed.

Lemma insertByPriority_perm r q : insertByPriority r q ≡ₚ r :: q.
Proof.
  induction q as [|x q IH]; simpl; [done|].
  case_decide; [done|]. rewrite IH. apply Permutation_swap.
Qed.

Lemma failures_snoc id evs ev s :
  failures_of id (evs ++ [ev]) s = failures_of id evs s + fails id ev (run evs s).
Proof.
  revert s. induction evs as [|ev' evs IH]; intros s; simpl; [lia|].
  rewrite IH. unfold run. simpl. lia.
Qed.

Lemma processQueue_frame s :
  pool (processQueue s) = pool s ∧ settled (processQueue s) = settled s ∧
  nextId (processQueue s) = nextId s ∧ queue (processQueue s) = queue s.
Proof. unfold processQueue. by repeat case_match. Qed.

Lemma start_frame s :
  pool (if processing s then s else processQueue s) = pool s ∧
  settled (if processing s then s else processQueue s) = settled s ∧
  nextId (if processing s then s else processQueue s) = nextId s ∧
  queue (if processing s then s else processQueue s) = queue s.
Proof. destruct (processing s); [done|apply processQueue_frame]. Qed.

(** [handleRequestError]: either the request goes into a retry timer with
    one more attempt on its counter, or its caller is rejected with the
    error at hand. *)
Lemma handleRequestError_spec r e s :
  queue (handleRequestError r e s) = queue s ∧
  inflight (handleRequestError r e s) = inflight s ∧
  nextId (handleRequestError r e s) = nextId s ∧
  (shouldRetry s (bump_attempts r) e = true ∧
   settled (handleRequestError r e s) = settled s ∧
   timers (handleRequestError r e s) =
     timers s ++ [(clock s + calculateRetryDelay s (attempts r + 1) (isRateLimitError e),
                   TRequeue (bump_attempts r))]
   ∨
   shouldRetry s (bump_attempts r) e = false ∧
   settled (handleRequestError r e s) = settled s ++ [(rid r, Rejected e)] ∧
   timers (handleRequestError r e s) = timers s).
Proof.
  unfold handleRequestError.
  set (s1 := if isRateLimitError e then _ else s).
  assert (queue s1 = queue s ∧ inflight s1 = inflight s ∧ nextId s1 = nextId s ∧
          settled s1 = settled s ∧ timers s1 = timers s ∧ clock s1 = clock s ∧
          retryAttempts s1 = retryAttempts s ∧ retryDelay s1 = retryDelay s)
    as (Hq & Hi & Hn & Hs & Ht & Hc & Hra & Hrd).
  { subst s1. by destruct (isRateLimitError e). }
  assert (shouldRetry s1 (bump_attempts r) e = shouldRetry s (bump_attempts r) e) as ->.
  { unfold shouldRetry. by rewrite Hra. }
  assert (calculateRetryDelay s1 (attempts (bump_attempts r)) (isRateLimitError e)
          = calculateRetryDelay s (attempts r + 1) (isRateLimitError e)) as ->.
  { unfold calculateRetryDelay. by rewrite Hrd. }
  destruct (shouldRetry s (bump_attempts r) e); simpl.
  - repeat split; try done. left. repeat split; try done. by rewrite Ht, Hc.
  - repeat split; try done. right. repeat split; try done. by rewrite Hs.
Qed.

(** What one event does to the pool of requests and to the settlements. *)
Lemma step_pool ev s :
  (pool (step ev s) ≡ₚ pool s ∧ settled (step ev s) = settled s ∧
   nextId (step ev s) = nextId s ∧ ∀ id, fails id ev s = 0) ∨
  (∃ prio, ev = Enqueue prio ∧
     pool (step ev s) ≡ₚ Request (nextId s) prio 0 (clock s) :: pool s ∧
     settled (step ev s) = settled s ∧ nextId (step ev s) = S (nextId s)) ∨
  (∃ id v r rest, ev = Fulfil id v ∧ rid r = id ∧
     pool s ≡ₚ r :: rest ∧ pool (step ev s) ≡ₚ rest ∧
     settled (step ev s) = settled s ++ [(id, Resolved v)] ∧
     nextId (step ev s) = nextId s) ∨
  (∃ id e r rest, ev = Reject id e ∧ rid r = id ∧
     pool s ≡ₚ r :: rest ∧ nextId (step ev s) = nextId s ∧
     (∀ id', fails id' ev s = if decide (id = id') then 1 else 0) ∧
     (shouldRetry s (bump_attempts r) e = true ∧
      pool (step ev s) ≡ₚ bump_attempts r :: rest ∧
      settled (step ev s) = settled s
      ∨
      shouldRetry s (bump_attempts r) e = false ∧
      pool (step ev s) ≡ₚ rest ∧
      settled (step ev s) = settled s ++ [(id, Rejected e)])).
Proof.
  destruct ev as [dt|prio|dt|id v|id e| |i|].
  - left. by repeat split.
  - right. left. exists prio. split; [done|].
    unfold step, enqueue.
    match goal with |- context [processQueue ?s'] =>
      destruct (start_frame s') as (-> & -> & -> & _) end.
    unfold pool. simpl. by rewrite insertByPriority_perm.
  - left. unfold step. destruct (processing s && negb (suspended s)); [|by repeat split].
    assert (∀ s', pool s' ≡ₚ pool s → settled s' = settled s → nextId s' = nextId s →
              pool s' ≡ₚ pool s ∧ settled s' = settled s ∧ nextId s' = nextId s ∧
              ∀ id, fails id (Resume dt) s = 0) as Hframe by (by intros s' ? -> ->).
    unfold processQueue_iteration.
    destruct (queue s) as [|r rest] eqn:Hq.
    { apply Hframe; [|done|done]. unfold pool. simpl. by rewrite Hq. }
    case_decide.
    + destruct (canMakeRequest s).
      * apply Hframe; [|done|done]. unfold pool. simpl.
        rewrite fmap_app. simpl. rewrite Hq.
        rewrite (Permutation_app_comm ((inflight s).*1) [r]). simpl.
        symmetry. apply Permutation_middle.
      * destruct (waitForRateLimit s); (apply Hframe; [|done|done]); [|done].
        unfold pool. simpl. by rewrite Hq, omap_app, app_nil_r.
    + apply Hframe; [|done|done]. unfold pool. simpl. by rewrite Hq, omap_app, app_nil_r.
  - unfold step, executeRequest_fulfilled.
    destruct (take_inflight id (inflight s)) as [[[r t] rest]|] eqn:Htake;
      [|left; by repeat split].
    right. right. left.
    destruct (take_inflight_spec _ _ _ _ _ Htake) as [Hr Hp].
    exists id, v, r, (queue s ++ rest.*1 ++ omap timer_request (timers s)).
    split; [done|]. split; [done|]. unfold pool. simpl. rewrite Hr.
    repeat split; try done.
    rewrite Hp. simpl. symmetry. apply Permutation_middle.
  - unfold step, executeRequest_rejected.
    destruct (take_inflight id (inflight s)) as [[[r t] rest]|] eqn:Htake; last first.
    { left. repeat split; try done. intros id'. unfold fails. case_decide; [|done].
      subst. by rewrite Htake. }
    right. right. right.
    destruct (take_inflight_spec _ _ _ _ _ Htake) as [Hr Hp].
    exists id, e, r, (queue s ++ rest.*1 ++ omap timer_request (timers s)).
    split; [done|]. split; [done|]. split.
    { unfold pool. rewrite Hp. simpl. symmetry. apply Permutation_middle. }
    destruct (handleRequestError_spec r e (set_inflight rest s))
      as (Hq & Hi & Hn & Hcases).
    split; [done|]. split.
    { intros id'. unfold fails. case_decide as Hid.
      - subst id'. rewrite Htake. done.
      - done. }
    unfold pool. cbn [queue inflight timers settled set_finishing]. rewrite Hq, Hi.
    cbn [queue inflight set_inflight] in *.
    assert (∀ s', shouldRetry (set_inflight rest s) s' e = shouldRetry s s' e) as Hsr by done.
    rewrite Hsr in Hcases. rewrite <- Hr.
    destruct Hcases as [(Hretry & -> & ->)|(Hretry & -> & ->)]; [left|right];
      (split; [done|]); (split; [|done]).
    + rewrite omap_app. simpl. rewrite !app_assoc. by rewrite <- Permutation_cons_append.
    + done.
  - left. unfold step, executeRequest_finally. destruct (finishing s); by repeat split.
  - left. unfold step, fire.
    assert (∀ s', pool s' ≡ₚ pool s → settled s' = settled s → nextId s' = nextId s →
              pool s' ≡ₚ pool s ∧ settled s' = settled s ∧ nextId s' = nextId s ∧
              ∀ id, fails id (Fire i) s = 0) as Hframe by (by intros s' ? -> ->).
    destruct (timers s !! i) as [[due action]|] eqn:Hi; [|by apply Hframe].
    case_decide; [|by apply Hframe].
    pose proof (delete_Permutation _ _ _ Hi) as Hperm.
    assert (omap timer_request (timers s)
            ≡ₚ omap timer_request ((due, action) :: delete i (timers s))) as Hp
      by by rewrite <- Hperm.
    destruct action as [|r|]; simpl in Hp.
    + match goal with |- context [processQueue ?s'] =>
        destruct (processQueue_frame s') as (Hp1 & Hp2 & Hp3 & _) end.
      apply Hframe; [|by rewrite Hp2|by rewrite Hp3].
      rewrite Hp1. unfold pool. simpl. by rewrite Hp.
    + assert (pool (set_queue (r :: queue (set_timers (delete i (timers s)) s))
                      (set_timers (delete i (timers s)) s)) ≡ₚ pool s) as Hpool.
      { unfold pool. simpl. rewrite Hp.
        change (list_omap _ _ timer_request (delete i (timers s)))
          with (omap timer_request (delete i (timers s))).
        rewrite !app_assoc. apply Permutation_middle. }
      destruct (processing _).
      * by apply Hframe.
      * match goal with |- context [processQueue ?s'] =>
          destruct (processQueue_frame s') as (Hp1 & Hp2 & Hp3 & _) end.
        apply Hframe; [by rewrite Hp1|by rewrite Hp2|by rewrite Hp3].
    + apply Hframe; [|done|done]. unfold pool. simpl. by rewrite Hp.
  - left. by repeat split.
Qed.

Lemma retry_inv_snoc s0 evs ev : retry_inv s0 evs → retry_inv s0 (evs ++ [ev]).
Proof.
  unfold retry_inv. rewrite queue_run_snoc.
  set (s := run evs s0). intros (Hnodup & Hpool & Hfresh).
  assert (∀ r, r ∈ pool s → rid r ∈ rid <$> pool s) as Hrid
    by (intros r Hr; apply list_elem_of_fmap; by exists r).
  destruct (step_pool ev s)
    as [(Hp & Hs & Hn & Hf)
       |[(prio & -> & Hp & Hs & Hn)
        |[(id & v & r & rest & -> & Hr & Hp & Hp' & Hs & Hn)
         |(id & e & r & rest & -> & Hr & Hp & Hn & Hf & Hcases)]]].
  - rewrite Hs, Hn. split; [by rewrite Hp|]. split.
    + intros r Hr. rewrite Hp in Hr. rewrite failures_snoc, Hf, Z.add_0_r. by apply Hpool.
    + intros id Hid. rewrite failures_snoc, Hf, Z.add_0_r. by apply Hfresh.
  - rewrite Hs, Hn. split; [|split].
    + rewrite Hp, fmap_cons. simpl. apply NoDup_cons. split; [|done].
      intros (r & Hr & Hin)%list_elem_of_fmap. apply Hpool in Hin as (Hlt & _). lia.
    + intros r Hr. rewrite Hp in Hr. rewrite failures_snoc. simpl. rewrite Z.add_0_r.
      apply elem_of_cons in Hr as [->|Hr].
      * simpl. destruct (Hfresh (nextId s)) as [-> Hns]; [lia|]. split; [lia|done].
      * destruct (Hpool r Hr) as (? & ? & ?). split; [lia|done].
    + intros id Hid. rewrite failures_snoc. simpl. rewrite Z.add_0_r. apply Hfresh. lia.
  - rewrite Hp in Hnodup. rewrite fmap_cons in Hnodup.
    apply NoDup_cons in Hnodup as [Hr_rest Hnodup].
    assert (r ∈ pool s) as Hr_in by (rewrite Hp; apply list_elem_of_here).
    assert (∀ r', r' ∈ rest → r' ∈ pool s) as Hrest
      by (intros r' ?; rewrite Hp; by apply list_elem_of_further).
    rewrite Hs, Hn. split; [by rewrite Hp'|]. split.
    + intros r' Hr'. rewrite Hp' in Hr'. rewrite failures_snoc. simpl. rewrite Z.add_0_r.
      destruct (Hpool r' (Hrest r' Hr')) as (? & ? & Hns). repeat split; try done.
      rewrite fmap_app. simpl. intros [?|Heq%list_elem_of_singleton]%elem_of_app; [done|].
      apply Hr_rest. apply list_elem_of_fmap. exists r'. by rewrite Hr.
    + intros id' Hid'. rewrite failures_snoc. simpl. rewrite Z.add_0_r.
      destruct (Hfresh id' Hid') as [? Hns]. split; [done|].
      rewrite fmap_app. simpl. intros [?|Heq%list_elem_of_singleton]%elem_of_app; [done|].
      destruct (Hpool r Hr_in) as (? & _). lia.
  - rewrite Hp in Hnodup. rewrite fmap_cons in Hnodup.
    apply NoDup_cons in Hnodup as [Hr_rest Hnodup].
    assert (r ∈ pool s) as Hr_in by (rewrite Hp; apply list_elem_of_here).
    assert (∀ r', r' ∈ rest → r' ∈ pool s) as Hrest
      by (intros r' ?; rewrite Hp; by apply list_elem_of_further).
    assert (∀ r', r' ∈ rest → rid r' ≠ id) as Hother.
    { intros r' Hr' Heq. apply Hr_rest. apply list_elem_of_fmap. exists r'.
      by rewrite Hr. }
    destruct (Hpool r Hr_in) as (Hr_lt & Hr_att & Hr_ns).
    rewrite Hn.
    destruct Hcases as [(_ & Hp' & Hs)|(_ & Hp' & Hs)]; rewrite Hs.
    + split; [|split].
      * rewrite Hp', fmap_cons. apply NoDup_cons. by split.
      * intros r' Hr'. rewrite Hp' in Hr'. rewrite failures_snoc, Hf.
        apply elem_of_cons in Hr' as [->|Hr'].
        { simpl. rewrite decide_True by done. rewrite <- Hr_att. done. }
        rewrite decide_False by (by intros ?; eapply Hother).
        rewrite Z.add_0_r. by apply Hpool, Hrest.
      * intros id' Hid'. rewrite failures_snoc, Hf.
        rewrite decide_False by lia. rewrite Z.add_0_r. by apply Hfresh.
    + split; [by rewrite Hp'|]. split.
      * intros r' Hr'. rewrite Hp' in Hr'. rewrite failures_snoc, Hf.
        rewrite decide_False by (by intros ?; eapply Hother).
        rewrite Z.add_0_r.
        destruct (Hpool r' (Hrest r' Hr')) as (? & ? & Hns). repeat split; try done.
        rewrite fmap_app. simpl. intros [?|Heq%list_elem_of_singleton]%elem_of_app; [done|].
        by eapply Hother.
      * intros id' Hid'. rewrite failures_snoc, Hf.
        rewrite decide_False by lia. rewrite Z.add_0_r.
        destruct (Hfresh id' Hid') as [? Hns]. split; [done|].
        rewrite fmap_app. simpl. intros [?|Heq%list_elem_of_singleton]%elem_of_app; [done|].
        lia.
Qed.

Lemma retry_inv_run o now evs : retry_inv (constructor o now) evs.
Proof.
  induction evs as [|ev evs IH] using rev_ind.
  - split; [apply NoDup_nil_2|]. split.
    + intros r Hr. by apply elem_of_nil in Hr.
    + intros id _. split; [done|]. apply not_elem_of_nil.
  - by apply retry_inv_snoc.
Qed.

(** C3 (retries).  Let the operation of caller [id] be in flight after any
    run of an executor with [retryAttempts = maxAttempts], and let [n] be
    the number of times it has failed so far; the caller is then not settled
    and the attempt counter of its request is [n].  If the attempt
    succeeds, the caller is resolved with the value of this attempt, however
    many failures went before (so also after [maxAttempts - 1] of them).  If
    it fails with a rate-limit or transient error and this is failure number
    [maxAttempts] or more, the caller is rejected with that error and no
    retry is scheduled; with fewer failures the request is put into a retry
    timer and nothing is settled.  If it fails with any other error, the
    caller is rejected with that error at once and no retry is scheduled. *)
Theorem retry_policy (o : options) (now maxAttempts : Z) (evs : list event) (id : nat)
    (r : request) (t0 : Z) (rest : list (request * Z)) :
  retryAttempts (constructor o now) = maxAttempts →
  take_inflight id (inflight (run evs (constructor o now))) = Some ((r, t0), rest) →
  (id ∉ (settled (run evs (constructor o now))).*1) ∧
  attempts r = failures_of id evs (constructor o now) ∧
  (∀ v, settled (step (Fulfil id v) (run evs (constructor o now)))
        = settled (run evs (constructor o now)) ++ [(id, Resolved v)]) ∧
  (∀ e, isRateLimitError e || isRetriableError e = true →
        maxAttempts <= failures_of id evs (constructor o now) + 1 →
        settled (step (Reject id e) (run evs (constructor o now)))
          = settled (run evs (constructor o now)) ++ [(id, Rejected e)] ∧
        timers (step (Reject id e) (run evs (constructor o now)))
          = timers (run evs (constructor o now))) ∧
  (∀ e, isRateLimitError e || isRetriableError e = true →
        failures_of id evs (constructor o now) + 1 < maxAttempts →
        settled (step (Reject id e) (run evs (constructor o now)))
          = settled (run evs (constructor o now)) ∧
        ∃ delay,
          timers (step (Reject id e) (run evs (constructor o now)))
          = timers (run evs (constructor o now)) ++
            [(clock (run evs (constructor o now)) + delay,
              TRequeue (Request id (priority r)
                          (failures_of id evs (constructor o now) + 1) (startTime r)))]) ∧
  (∀ e, isRateLimitError e = false → isRetriableError e = false →
        settled (step (Reject id e) (run evs (constructor o now)))
          = settled (run evs (constructor o now)) ++ [(id, Rejected e)] ∧
        timers (step (Reject id e) (run evs (constructor o now)))
          = timers (run evs (constructor o now))).
Proof.
  intros Hmax Htake.
  destruct (run_config evs (constructor o now)) as (_ & _ & Hra & _).
  rewrite Hmax in Hra.
  destruct (retry_inv_run o now evs) as (_ & Hpool & _).
  set (s := run evs (constructor o now)) in *.
  destruct (take_inflight_spec _ _ _ _ _ Htake) as [Hr Hperm].
  assert (r ∈ pool s) as Hin.
  { unfold pool. apply elem_of_app. right. apply elem_of_app. left.
    apply list_elem_of_fmap. exists (r, t0). split; [done|].
    rewrite Hperm. apply list_elem_of_here. }
  destruct (Hpool r Hin) as (_ & Hatt & Hns). rewrite Hr in Hatt, Hns.
  split; [done|]. split; [done|].
  assert (∀ e, settled (step (Reject id e) s)
               = settled (handleRequestError r e (set_inflight rest s)) ∧
               timers (step (Reject id e) s)
               = timers (handleRequestError r e (set_inflight rest s))) as Hstep.
  { intros e. unfold step, executeRequest_rejected. by rewrite Htake. }
  assert (∀ e, shouldRetry (set_inflight rest s) (bump_attempts r) e
               = bool_decide (failures_of id evs (constructor o now) + 1 < maxAttempts)
                 && (isRateLimitError e || isRetriableError e)) as Hsr.
  { intros e. unfold shouldRetry. simpl. by rewrite Hatt, Hra. }
  split; [|split; [|split]].
  - intros v. unfold step, executeRequest_fulfilled. rewrite Htake. simpl. by rewrite Hr.
  - intros e Hretryable Hlast. destruct (Hstep e) as [-> ->].
    destruct (handleRequestError_spec r e (set_inflight rest s))
      as (_ & _ & _ & [(Hyes & _)|(_ & -> & ->)]).
    + rewrite Hsr, bool_decide_eq_false_2 in Hyes by lia. done.
    + by rewrite Hr.
  - intros e Hretryable Hmore. destruct (Hstep e) as [-> ->].
    destruct (handleRequestError_spec r e (set_inflight rest s))
      as (_ & _ & _ & [(_ & -> & ->)|(Hno & _)]).
    + split; [done|]. eexists. unfold bump_attempts. by rewrite Hr, Hatt.
    + rewrite Hsr, bool_decide_eq_true_2, Hretryable in Hno by lia. done.
  - intros e Hrl Hrt. destruct (Hstep e) as [-> ->].
    destruct (handleRequestError_spec r e (set_inflight rest s))
      as (_ & _ & _ & [(Hyes & _)|(_ & -> & ->)]).
    + rewrite Hsr, Hrl, Hrt, andb_false_r in Hyes. done.
    + by rewrite Hr.
Qed.

Lemma retry_policy_witness :
  failures_of 0 retry_events (constructor (Options None None None None) 0) = 3 - 1 ∧
  settled (step (Fulfil 0 (VStr "ok"))
             (run retry_events (constructor (Options None None None None) 0)))
  = settled (run retry_events (constructor (Options None None None None) 0))
    ++ [(0%nat, Resolved (VStr "ok"))].
Proof.
  split; [by vm_compute|].
  refine (proj1 (proj2 (proj2
            (retry_policy (Options None None None None) 0 3 retry_events 0
               (Request 0 0 2 0) 7000 [] _ _))) (VStr "ok")).
  - reflexivity.
  - by vm_compute.
Defined.

(** *** Queue order *)

Lemma served_before_priority a b : served_before a b → priority b <= priority a.
Proof. intros [?|[? _]]; lia. Qed.

Lemma queue_ordered_sorted q : queue_ordered q ↔ StronglySorted served_before q.
Proof.
  split.
  - induction q as [|a q IH]; intros Hq; constructor.
    + apply IH. intros i j x y Hij Hx Hy. by apply (Hq (S i) (S j)); [lia|..].
    + apply Forall_forall. intros b [j Hj]%list_elem_of_lookup_1.
      by apply (Hq 0%nat (S j)); [lia|..].
  - induction 1 as [|a q Hsorted IH Hall]; intros i j x y Hij Hx Hy.
    + by rewrite lookup_nil in Hx.
    + destruct j as [|j]; [lia|]. simpl in Hy. destruct i as [|i]; simpl in Hx.
      * injection Hx as <-. rewrite Forall_forall in Hall. apply Hall.
        by eapply list_elem_of_lookup_2.
      * by apply (IH i j); [lia|..].
Qed.

(** The insertion loop of [enqueue] keeps a queue in service order when the
    new request is younger than everything queued. *)
Lemma insertByPriority_sorted r q :
  StronglySorted served_before q →
  (∀ x, x ∈ q → (rid x < rid r)%nat) →
  StronglySorted served_before (insertByPriority r q).
Proof.
  induction 1 as [|x q Hsorted IH Hall]; intros Hfresh; simpl.
  - repeat constructor.
  - rewrite Forall_forall in Hall. case_decide as Hprio.
    + constructor; [by constructor; [|apply Forall_forall]|].
      apply Forall_forall. intros y [->|Hy]%elem_of_cons; [by left|].
      left. pose proof (served_before_priority _ _ (Hall y Hy)). lia.
    + constructor.
      * apply IH. intros y Hy. apply Hfresh. by apply list_elem_of_further.
      * apply Forall_forall. intros y Hy.
        rewrite insertByPriority_perm in Hy. apply elem_of_cons in Hy as [->|Hy]; [|by apply Hall].
        destruct (decide (priority r < priority x)); [by left|]. right.
        split; [lia|]. apply Hfresh, list_elem_of_here.
Qed.

(** What one event does to the queue. *)
Lemma step_queue ev s :
  (queue (step ev s) = queue s ∧ nextId (step ev s) = nextId s ∧
   (length (inflight (step ev s)) <= length (inflight s))%nat) ∨
  (∃ prio, ev = Enqueue prio ∧ nextId (step ev s) = S (nextId s) ∧
     queue (step ev s) = insertByPriority (Request (nextId s) prio 0 (clock s)) (queue s)) ∨
  (∃ dt r rest, ev = Resume dt ∧ nextId (step ev s) = nextId s ∧
     queue s = r :: rest ∧ queue (step ev s) = rest ∧
     inflight (step ev s) = inflight s ++ [(r, clock s + Z.max 0 dt)]) ∨
  (∃ i r, ev = Fire i ∧ requeues ev s = true ∧ nextId (step ev s) = nextId s ∧
     queue (step ev s) = r :: queue s ∧
     ∃ due, timers s !! i = Some (due, TRequeue r)).
Proof.
  destruct ev as [dt|prio|dt|id v|id e| |i|].
  - left. by repeat split.
  - right. left. exists prio. split; [done|]. unfold step, enqueue.
    match goal with |- context [processQueue ?s'] =>
      destruct (start_frame s') as (_ & _ & -> & ->) end. done.
  - unfold step. destruct (processing s && negb (suspended s)); [|left; by repeat split].
    unfold processQueue_iteration.
    destruct (queue s) as [|r rest] eqn:Hq; [left; simpl; by rewrite ?Hq|].
    case_decide; [|left; simpl; by rewrite ?Hq].
    destruct (canMakeRequest s).
    + right. right. left. by exists dt, r, rest.
    + left. destruct (waitForRateLimit s); simpl; by rewrite ?Hq.
  - left. unfold step, executeRequest_fulfilled.
    destruct (take_inflight id (inflight s)) as [[[r t] rest]|] eqn:Htake; [|by repeat split].
    apply take_inflight_length in Htake. simpl. repeat split; try done. lia.
  - left. unfold step, executeRequest_rejected.
    destruct (take_inflight id (inflight s)) as [[[r t] rest]|] eqn:Htake; [|by repeat split].
    apply take_inflight_length in Htake.
    destruct (handleRequestError_spec r e (set_inflight rest s)) as (Hq & Hi & Hn & _).
    cbn [queue nextId inflight set_finishing]. rewrite Hq, Hi, Hn. simpl.
    repeat split; try done. lia.
  - left. unfold step, executeRequest_finally. by destruct (finishing s).
  - unfold step, fire, requeues.
    destruct (timers s !! i) as [[due action]|] eqn:Hi; [|left; by repeat split].
    case_decide as Hdue; [|left; by repeat split].
    destruct action as [|r|].
    + left. match goal with |- context [processQueue ?s'] =>
        destruct (processQueue_frame s') as (_ & _ & -> & ->) end.
      unfold processQueue. by repeat case_match.
    + right. right. right. exists i, r. split; [done|].
      rewrite bool_decide_eq_true_2 by done. split; [done|].
      assert (∀ s', nextId s' = nextId s → queue s' = r :: queue s →
                nextId (if processing s' then s' else processQueue s') = nextId s ∧
                queue (if processing s' then s' else processQueue s') = r :: queue s ∧
                ∃ due0, timers s !! i = Some (due0, TRequeue r)) as Hframe.
      { intros s' Hn Hq. destruct (processing s').
        - repeat split; try done. by eexists.
        - destruct (processQueue_frame s') as (_ & _ & -> & ->).
          repeat split; try done. by eexists. }
      by apply Hframe.
    + left. by repeat split.
  - left. by repeat split.
Qed.

Lemma step_order_inv ev s :
  order_inv s → requeues ev s = false → order_inv (step ev s).
Proof.
  intros [Hsorted Hfresh] Hnot. unfold order_inv.
  destruct (step_queue ev s)
    as [(-> & -> & _)
       |[(prio & -> & -> & ->)
        |[(dt & r & rest & -> & -> & Hq & -> & _)
         |(i & r & -> & Hyes & _)]]].
  - done.
  - split.
    + apply insertByPriority_sorted; [done|]. intros x Hx. simpl. by apply Hfresh.
    + intros x Hx. rewrite insertByPriority_perm in Hx.
      apply elem_of_cons in Hx as [->|Hx]; [simpl; lia|].
      specialize (Hfresh x Hx). lia.
  - rewrite Hq in Hsorted, Hfresh. apply StronglySorted_inv in Hsorted as [Hsorted _].
    split; [done|]. intros x Hx. apply Hfresh. by apply list_elem_of_further.
  - congruence.
Qed.

Lemma run_order_inv evs s :
  order_inv s → never_requeues evs s = true → order_inv (run evs s).
Proof.
  revert s. induction evs as [|ev evs IH]; intros s Hinv Hnever; [done|].
  simpl in Hnever. apply andb_true_iff in Hnever as [Hev Hrest].
  apply negb_true_iff in Hev.
  change (run (ev :: evs) s) with (run evs (step ev s)).
  apply IH; [by apply step_order_inv|done].
Qed.

(** C4 as stated fails on the code.  After [requeue_events] the retried
    operation of priority 0 stands in the queue before the waiting operation
    of priority 5, and the next turn of [processQueue] dispatches it and
    leaves the operation of priority 5 waiting. *)
Lemma retry_jumps_the_queue :
  queue (run requeue_events (constructor requeue_options 1000000))
    = [Request 0 0 1 1000000; Request 1 5 0 1000500] ∧
  ¬ queue_ordered (queue (run requeue_events (constructor requeue_options 1000000))) ∧
  queue (step (Resume 0) (run requeue_events (constructor requeue_options 1000000)))
    = [Request 1 5 0 1000500] ∧
  inflight (step (Resume 0) (run requeue_events (constructor requeue_options 1000000)))
    = [(Request 0 0 1 1000000, 1001050)].
Proof.
  assert (queue (run requeue_events (constructor requeue_options 1000000))
          = [Request 0 0 1 1000000; Request 1 5 0 1000500]) as Hq by by vm_compute.
  split; [done|]. split; [|split; by vm_compute].
  rewrite Hq. intros Hord.
  assert (served_before (Request 0 0 1 1000000) (Request 1 5 0 1000500)) as Hserved.
  { apply (Hord 0%nat 1%nat); [lia|done|done]. }
  destruct Hserved as [Hlt|[Heq _]]; simpl in Hlt || simpl in Heq; lia.
Qed.

(** C4, amended.  As long as no retry timer fires, the queue is in
    service order: of any two queued operations the one in front has the
    higher priority, or the same priority and the earlier [enqueue].  That
    holds from the start, and again from every later state in which the
    queue is in service order (a retried operation has been dispatched,
    say).  In every state [processQueue] dispatches the head of the queue.
    In every state a retry timer puts its operation at the head of the
    queue, whatever its priority and whatever is waiting. *)
Theorem queue_order_until_requeue (o : options) (now : Z) (evs : list event) :
  (never_requeues evs (constructor o now) = true →
   queue_ordered (queue (run evs (constructor o now)))) ∧
  (∀ more,
     queue_ordered (queue (run evs (constructor o now))) →
     never_requeues more (run evs (constructor o now)) = true →
     queue_ordered (queue (run more (run evs (constructor o now))))) ∧
  (∀ ev, dispatches ev (run evs (constructor o now)) →
     ∃ r rest t,
       queue (run evs (constructor o now)) = r :: rest ∧
       queue (step ev (run evs (constructor o now))) = rest ∧
       inflight (step ev (run evs (constructor o now)))
         = inflight (run evs (constructor o now)) ++ [(r, t)]) ∧
  (∀ i due r,
     timers (run evs (constructor o now)) !! i = Some (due, TRequeue r) →
     due <= clock (run evs (constructor o now)) →
     queue (step (Fire i) (run evs (constructor o now)))
       = r :: queue (run evs (constructor o now))).
Proof.
  set (s := run evs (constructor o now)). split; [|split; [|split]].
  - intros Hnever. apply queue_ordered_sorted.
    apply (run_order_inv evs (constructor o now)); [|done].
    split; [constructor|]. intros x Hx. by apply elem_of_nil in Hx.
  - intros more Hord Hnever. apply queue_ordered_sorted.
    apply run_order_inv; [|done].
    split; [by apply queue_ordered_sorted|].
    intros x Hx.
    destruct (retry_inv_run o now evs) as (_ & Hpool & _).
    apply Hpool. unfold pool. apply elem_of_app. by left.
  - intros ev Hdisp. unfold dispatches in Hdisp.
    destruct (step_queue ev s)
      as [(_ & _ & Hle)
         |[(prio & -> & _)
          |[(dt & r & rest & -> & _ & Hq & Hq' & Hin)
           |(i & r & -> & _)]]].
    + lia.
    + by apply dispatch_guard in Hdisp as (_ & _ & dt & ? & _).
    + by exists r, rest, (clock s + Z.max 0 dt).
    + by apply dispatch_guard in Hdisp as (_ & _ & dt & ? & _).
  - intros i due r Hi Hdue. unfold step, fire. rewrite Hi, decide_True by done.
    cbn [processing set_queue set_timers queue].
    destruct (processing s); [done|].
    match goal with |- context [processQueue ?s'] =>
      by destruct (processQueue_frame s') as (_ & _ & _ & ->) end.
Qed.

Lemma queue_order_until_requeue_witness :
  queue (run order_events (constructor requeue_options 1000000))
    = [Request 2 5 0 1000000; Request 3 5 0 1000000; Request 1 1 0 1000000] ∧
  queue_ordered (queue (run order_events (constructor requeue_options 1000000))) ∧
  never_requeues (requeue_events ++ [Resume 0]) (constructor requeue_options 1000000)
    = false ∧
  queue_ordered
    (queue (run [Enqueue 3; Tick 10; Enqueue 7; Enqueue 3]
              (run (requeue_events ++ [Resume 0])
                 (constructor requeue_options 1000000)))).
Proof.
  split; [by vm_compute|]. split; [|split; [by vm_compute|]].
  - destruct (queue_order_until_requeue requeue_options 1000000 order_events)
      as (Hordered & _).
    apply Hordered. by vm_compute.
  - destruct (queue_order_until_requeue requeue_options 1000000
                (requeue_events ++ [Resume 0])) as (_ & Hagain & _).
    apply Hagain; [|by vm_compute].
    assert (queue (run (requeue_events ++ [Resume 0])
                     (constructor requeue_options 1000000))
            = [Request 1 5 0 1000500]) as -> by by vm_compute.
    apply queue_ordered_sorted. repeat constructor.
Defined.

End RequestQueueFacts.

Module BatchManagerFacts.
Import BatchManager.

Lemma batch_run_snoc evs ev s : run (evs ++ [ev]) s = step ev (run evs s).
Proof. unfold run. by rewrite foldl_app. Qed.

(** *** What a flush keeps of the entry of a batch type *)

Lemma processBatch_entry batchType why s kind b :
  batches s !! kind = Some b →
  ∃ b', batches (processBatch batchType why s) !! kind = Some b' ∧ same_setup b b' ∧
    ∃ new, invoked (processBatch batchType why s) = invoked s ++ new ∧
           calls_function kind (batchFunction b) new.
Proof.
  intros Hb. unfold processBatch.
  destruct (batches s !! batchType) as [b0|] eqn:Hb0; last first.
  { exists b. repeat split; [done|]. exists []. rewrite app_nil_r. split; [done|].
    intros c Hc. by apply elem_of_nil in Hc. }
  case_decide.
  { exists b. repeat split; [done|]. exists []. rewrite app_nil_r. split; [done|].
    intros c Hc. by apply elem_of_nil in Hc. }
  destruct (decide (batchType = kind)) as [->|Hne].
  - assert (b0 = b) as -> by congruence.
    destruct (timeout b) as [handle|] eqn:Ht; simpl; case_decide; simpl.
    + exists (with_timeout None b). rewrite lookup_insert_eq.
      repeat split. exists []. rewrite app_nil_r. split; [done|].
      intros c Hc. by apply elem_of_nil in Hc.
    + eexists. rewrite lookup_insert_eq. split; [done|]. repeat split.
      eexists. split; [done|].
      intros c Hc _. apply list_elem_of_singleton in Hc. by subst c.
    + exists b. repeat split; [done|]. exists []. rewrite app_nil_r. split; [done|].
      intros c Hc. by apply elem_of_nil in Hc.
    + eexists. rewrite lookup_insert_eq. split; [done|]. repeat split.
      eexists. split; [done|].
      intros c Hc _. apply list_elem_of_singleton in Hc. by subst c.
  - destruct (timeout b0) as [handle|] eqn:Ht; simpl; case_decide; simpl;
      rewrite ?lookup_insert_ne by done;
      exists b; (repeat split; [done|]).
    + exists []. rewrite app_nil_r. split; [done|].
      intros c Hc. by apply elem_of_nil in Hc.
    + eexists. split; [done|].
      intros c Hc Hty. apply list_elem_of_singleton in Hc. by subst c.
    + exists []. rewrite app_nil_r. split; [done|].
      intros c Hc. by apply elem_of_nil in Hc.
    + eexists. split; [done|].
      intros c Hc Hty. apply list_elem_of_singleton in Hc. by subst c.
Qed.

Lemma same_setup_trans b1 b2 b3 :
  same_setup b1 b2 → same_setup b2 b3 → same_setup b1 b3.
Proof. intros [??] [??]. split; congruence. Qed.

Lemma no_calls kind f : calls_function kind f [].
Proof. intros c Hc. by apply elem_of_nil in Hc. Qed.

Lemma addToBatch_entry batchType key f o s kind :
  let b := entry_for f o s (batches s !! batchType) in
  (batchType = kind ∨ is_Some (batches s !! kind)) →
  ∃ b', batches (addToBatch batchType key f o s).2 !! kind = Some b' ∧
    same_setup (if decide (batchType = kind) then b
                else default b (batches s !! kind)) b' ∧
    ∃ new, invoked (addToBatch batchType key f o s).2 = invoked s ++ new ∧
           calls_function kind (batchFunction b') new.
Proof.
  intros b Hcase. unfold addToBatch.
  set (s1 := set_nextPromise _ _).
  assert (batches s1 = batches s) as Hs1 by done.
  assert (invoked s1 = invoked s) as Hi1 by done.
  rewrite Hs1.
  fold (entry_for f o s1 (batches s !! batchType)).
  change (entry_for f o s1 (batches s !! batchType)) with b.
  set (b1 := with_promises _ (with_items _ b)).
  assert (same_setup b b1) as Hb1 by done.
  set (p := if decide (length (items b1) = 1%nat ∧ timeout b1 = None) then _ else _).
  assert (same_setup b p.1 ∧ batches p.2 = batches s ∧ invoked p.2 = invoked s)
    as (Hp1 & Hp2 & Hp3).
  { subst p. case_decide; simpl; done. }
  destruct p as [b2 s2]. simpl in *.
  set (s3 := set_batches _ s2).
  assert (batches s3 = <[batchType := b2]> (batches s)) as Hs3.
  { subst s3. simpl. by rewrite Hp2. }
  assert (invoked s3 = invoked s) as Hi3 by done.
  assert (∃ b0, batches s3 !! kind = Some b0 ∧
                same_setup (if decide (batchType = kind) then b
                            else default b (batches s !! kind)) b0) as (b0 & Hb0 & Hsame).
  { rewrite Hs3. case_decide as Heq.
    - subst kind. rewrite lookup_insert_eq. eauto.
    - rewrite lookup_insert_ne by done.
      destruct Hcase as [?|[bk Hbk]]; [done|]. rewrite Hbk. simpl. by eexists. }
  destruct (decide (maxSize (options b2) <= Z.of_nat (length (items b2)))).
  - destruct (processBatch_entry batchType ReasonFull s3 kind b0 Hb0)
      as (b' & Hb' & Hsame' & new & Hnew & Hcalls).
    exists b'. split; [done|]. split; [by eapply same_setup_trans|].
    exists new. rewrite Hnew, Hi3. split; [done|].
    destruct Hsame' as [-> _]. done.
  - exists b0. split; [done|]. split; [done|].
    exists []. rewrite app_nil_r. split; [done|]. apply no_calls.
Qed.

Lemma step_entry ev s kind b :
  batches s !! kind = Some b → ev ≠ ClearAll →
  ∃ b', batches (step ev s) !! kind = Some b' ∧ same_setup b b' ∧
    ∃ new, invoked (step ev s) = invoked s ++ new ∧
           calls_function kind (batchFunction b) new.
Proof.
  intros Hb Hev. destruct ev as [dt|batchType key f o|i|batchType|i o|]; simpl.
  - exists b. repeat split; [done|]. exists []. rewrite app_nil_r. split; [done|apply no_calls].
  - destruct (addToBatch_entry batchType key f o s kind) as (b' & Hb' & Hsame & new & Hnew & Hc).
    { right. by eexists. }
    exists b'. split; [done|].
    assert (same_setup b b') as Hbb'.
    { case_decide as Heq; [subst kind; by rewrite Hb in Hsame|].
      by rewrite Hb in Hsame. }
    split; [done|]. exists new. split; [done|]. by destruct Hbb' as [<- _].
  - unfold fire. destruct (timers s !! i) as [[h [due ty]]|]; last first.
    { exists b. repeat split; [done|]. exists []. rewrite app_nil_r. split; [done|apply no_calls]. }
    case_decide.
    + by apply (processBatch_entry ty ReasonTimeout (set_timers _ s)).
    + exists b. repeat split; [done|]. exists []. rewrite app_nil_r. split; [done|apply no_calls].
  - by apply processBatch_entry.
  - exists b. unfold processBatch_settled.
    assert (∀ s', batches s' = batches s → invoked s' = invoked s →
              batches s' !! kind = Some b ∧ same_setup b b ∧
              ∃ new, invoked s' = invoked s ++ new ∧
                     calls_function kind (batchFunction b) new) as Hframe.
    { intros s' -> ->. repeat split; [done|]. exists []. rewrite app_nil_r.
      split; [done|apply no_calls]. }
    unfold results_unreadable. repeat case_match; by apply Hframe.
  - done.
Qed.

(** [processBatch] either does nothing (no entry, or no members), or it
    cancels the deadline of the group and then either holds the group back
    or flushes it. *)
Lemma processBatch_cases batchType why s :
  (processBatch batchType why s = s ∧
   (batches s !! batchType = None ∨
    ∃ b, batches s !! batchType = Some b ∧ items b = []))
  ∨
  ∃ b b',
    batches s !! batchType = Some b ∧ items b ≠ [] ∧
    batches (processBatch batchType why s) = <[batchType := b']> (batches s) ∧
    batchFunction b' = batchFunction b ∧ options b' = options b ∧ timeout b' = None ∧
    timers (processBatch batchType why s)
      = match timeout b with
        | Some h => filter (λ t, t.1 ≠ h) (timers s)
        | None => timers s
        end ∧
    nextTimer (processBatch batchType why s) = nextTimer s ∧
    clock (processBatch batchType why s) = clock s ∧
    ((Z.of_nat (length (items b)) < minSize (options b) ∧ why ≠ ReasonTimeout ∧
      items b' = items b ∧ promises b' = promises b ∧
      invoked (processBatch batchType why s) = invoked s)
     ∨
     (¬ (Z.of_nat (length (items b)) < minSize (options b) ∧ why ≠ ReasonTimeout) ∧
      items b' = [] ∧ promises b' = [] ∧
      invoked (processBatch batchType why s)
        = invoked s ++ [Call batchType (batchFunction b) (JsMap.keys (items b))
                          (promises b)])).
Proof.
  unfold processBatch.
  destruct (batches s !! batchType) as [b|] eqn:Hb; [|left; split; [done|by left]].
  destruct (decide (length (items b) = 0%nat)) as [Hzero|Hnz].
  { left. split; [done|]. right. exists b. split; [done|]. by destruct (items b). }
  right. assert (items b ≠ []) as Hne by (by destruct (items b)).
  destruct (timeout b) as [h|] eqn:Ht; simpl;
    destruct (decide (Z.of_nat (length (items b)) < minSize (options b)
                      ∧ why ≠ ReasonTimeout)) as [Hheld|Hflush]; simpl.
  - exists b, (with_timeout None b). rewrite Ht.
    do 9 (split; [done|]). left. destruct Hheld. by do 4 (split; [done|]).
  - exists b, (with_promises [] (with_items [] (with_timeout None b))). rewrite Ht.
    do 2 (split; [done|]). split; [by rewrite insert_insert_eq|].
    do 6 (split; [done|]). right. by do 3 (split; [done|]).
  - exists b, b. rewrite Ht.
    do 2 (split; [done|]). split; [by rewrite insert_id|].
    do 6 (split; [done|]). left. destruct Hheld. by do 4 (split; [done|]).
  - exists b, (with_promises [] (with_items [] b)). rewrite Ht.
    do 9 (split; [done|]). right. by do 3 (split; [done|]).
Qed.

Lemma addToBatch_split batchType key f o s :
  (addToBatch batchType key f o s).2
  = let '(batch, s2) := addToBatch_member batchType key f o s in
    if decide (maxSize (options batch) <= Z.of_nat (length (items batch)))
    then processBatch batchType ReasonFull s2 else s2.
Proof.
  unfold addToBatch, addToBatch_member, entry_for. simpl.
  destruct (batches s !! batchType) as [b|]; simpl;
    repeat (case_decide; simpl); try done; tauto.
Qed.

(** The first part of [addToBatch]: the member is stored under its key in
    both maps, and the deadline is armed when the group then has one member
    and no deadline. *)
Lemma addToBatch_member_spec batchType key f o s :
  let b0 := entry_for f o s (batches s !! batchType) in
  let b := (addToBatch_member batchType key f o s).1 in
  let s2 := (addToBatch_member batchType key f o s).2 in
  batches s2 = <[batchType := b]> (batches s) ∧
  items b = JsMap.set key (clock s) (items b0) ∧
  promises b = JsMap.set key (nextPromise s) (promises b0) ∧
  batchFunction b = batchFunction b0 ∧ options b = options b0 ∧
  invoked s2 = invoked s ∧ clock s2 = clock s ∧
  ((length (items b) = 1%nat ∧ timeout b0 = None ∧
    timeout b = Some (nextTimer s) ∧
    timers s2 = timers s ++ [(nextTimer s, (clock s + maxWait (options b0), batchType))] ∧
    nextTimer s2 = S (nextTimer s))
   ∨
   (¬ (length (items b) = 1%nat ∧ timeout b0 = None) ∧
    timeout b = timeout b0 ∧ timers s2 = timers s ∧ nextTimer s2 = nextTimer s)).
Proof.
  cbv zeta. unfold addToBatch_member, entry_for. simpl.
  destruct (batches s !! batchType) as [b|]; simpl.
  - case_decide as Harm; simpl; do 7 (split; [done|]).
    + left. destruct Harm. by do 4 (split; [done|]).
    + right. by do 3 (split; [done|]).
  - do 7 (split; [done|]). left. by do 4 (split; [done|]).
Qed.

Lemma JsMap_set_nonempty {A : Type} (k : string) (v : A) m : JsMap.set k v m ≠ [].
Proof. destruct m as [|[k' v'] m]; simpl; [done|]. by case_decide. Qed.

(** From the [addToBatch] that creates the entry of a batch type on, the
    entry keeps the function and the options of that call, and every call
    a flush of the type makes is a call of that function. *)
Lemma first_add_entry s kind key f o evs :
  batches s !! kind = None →
  ClearAll ∉ evs →
  ∃ b, batches (run evs (step (Add kind key f o) s)) !! kind = Some b ∧
    batchFunction b = f ∧
    options b = BatchOptions (or_default (opt_maxSize o) (maxBatchSize s))
                             (or_default (opt_maxWait o) (maxWaitTime s))
                             (or_default (opt_minSize o) (minBatchSize s)) ∧
    ∃ new, invoked (run evs (step (Add kind key f o) s)) = invoked s ++ new ∧
           ∀ c, c ∈ new → call_type c = kind → call_function c = f.
Proof.
  intros Hnone. induction evs as [|ev evs IH] using rev_ind; intros Hclear.
  - simpl.
    destruct (addToBatch_entry kind key f o s kind) as (b' & Hb' & Hsame & new & Hnew & Hc).
    { by left. }
    rewrite decide_True in Hsame by done. rewrite Hnone in Hsame.
    destruct Hsame as [Hf Ho]. simpl in *.
    exists b'. repeat split; try done. exists new. split; [done|]. by rewrite <- Hf.
  - rewrite batch_run_snoc.
    destruct IH as (b & Hb & Hf & Ho & new & Hnew & Hc).
    { intros Hin. apply Hclear. apply elem_of_app. by left. }
    destruct (step_entry ev _ kind b Hb) as (b' & Hb' & [Hf' Ho'] & new' & Hnew' & Hc').
    { intros ->. apply Hclear. apply elem_of_app. right. by apply list_elem_of_singleton. }
    exists b'. split; [done|]. split; [congruence|]. split; [congruence|].
    exists (new ++ new'). rewrite Hnew', Hnew, app_assoc. split; [done|].
    intros c [Hin|Hin]%elem_of_app Hty; [by apply Hc|].
    rewrite <- Hf. by apply Hc'.
Qed.

(** Once the entry of a batch type exists, [addToBatch] does not look at
    its [batchFunction] and [options] arguments. *)
Lemma addToBatch_later kind key f1 o1 f2 o2 s b :
  batches s !! kind = Some b →
  addToBatch kind key f1 o1 s = addToBatch kind key f2 o2 s.
Proof. intros Hb. unfold addToBatch. simpl. by rewrite Hb. Qed.

(** The size trigger of [addToBatch] on an existing entry [b]: the group
    with the new member is flushed when it has reached [maxSize] of [b] and
    is not held back by [minSize] of [b]. *)
Lemma addToBatch_trigger kind key f o s b :
  batches s !! kind = Some b →
  invoked (addToBatch kind key f o s).2 =
    if decide (maxSize (options b)
                 <= Z.of_nat (length (JsMap.set key (clock s) (items b))) ∧
               minSize (options b)
                 <= Z.of_nat (length (JsMap.set key (clock s) (items b))))
    then invoked s ++ [Call kind (batchFunction b)
                         (JsMap.keys (JsMap.set key (clock s) (items b)))
                         (JsMap.set key (nextPromise s) (promises b))]
    else invoked s.
Proof.
  intros Hb. rewrite addToBatch_split.
  destruct (addToBatch_member_spec kind key f o s)
    as (Hbatches & Hitems & Hprom & Hf & Hopt & Hinv & _).
  rewrite Hb in Hitems, Hprom, Hf, Hopt. simpl in Hitems, Hprom, Hf, Hopt.
  destruct (addToBatch_member kind key f o s) as [b1 s2]. simpl in *.
  rewrite Hopt, Hitems.
  destruct (decide (maxSize (options b)
                      <= Z.of_nat (length (JsMap.set key (clock s) (items b)))))
    as [Hfull|Hroom].
  - destruct (processBatch_cases kind ReasonFull s2)
      as [(_ & [Hnone|(b' & Hb' & Hempty)])
         |(b' & b'' & Hb' & Hne & _ & _ & _ & _ & _ & _ & _ & Hcase)].
    + rewrite Hbatches, lookup_insert_eq in Hnone. done.
    + rewrite Hbatches, lookup_insert_eq in Hb'. injection Hb' as <-.
      rewrite Hitems in Hempty. by apply JsMap_set_nonempty in Hempty.
    + rewrite Hbatches, lookup_insert_eq in Hb'. injection Hb' as <-.
      rewrite Hitems, Hopt, Hf, Hprom, Hinv in Hcase.
      destruct Hcase as [(Hheld & _ & _ & _ & ->)|(Hflush & _ & _ & ->)].
      * rewrite decide_False; [done|]. lia.
      * rewrite decide_True; [done|]. split; [done|].
        apply Z.le_ngt. intros Hlt. apply Hflush. by split.
  - rewrite decide_False; [done|]. by intros [? _].
Qed.

(** The deadline that [addToBatch] arms for the first member of a group
    of the existing entry [b] is [maxWait] of [b] from now. *)
Lemma addToBatch_deadline kind key f o s b :
  batches s !! kind = Some b →
  items b = [] → timeout b = None → 1 < maxSize (options b) →
  timers (addToBatch kind key f o s).2
    = timers s ++ [(nextTimer s, (clock s + maxWait (options b), kind))].
Proof.
  intros Hb Hempty Htimeout Hmax. rewrite addToBatch_split.
  destruct (addToBatch_member_spec kind key f o s)
    as (_ & Hitems & _ & _ & Hopt & _ & _ & Harm).
  rewrite Hb in Hitems, Hopt, Harm. simpl in Hitems, Hopt, Harm.
  destruct (addToBatch_member kind key f o s) as [b1 s2]. simpl in *.
  rewrite Hempty in Hitems. simpl in Hitems.
  rewrite decide_False by (rewrite Hopt, Hitems; simpl; lia).
  destruct Harm as [(_ & _ & _ & Htimers & _)|(Hnot & _)]; [done|].
  exfalso. apply Hnot. by rewrite Hitems.
Qed.

(** The [minSize] test of [processBatch] on the entry [b]. *)
Lemma processBatch_trigger kind why s b :
  batches s !! kind = Some b → items b ≠ [] →
  invoked (processBatch kind why s) =
    if decide (Z.of_nat (length (items b)) < minSize (options b)
               ∧ why ≠ ReasonTimeout)
    then invoked s
    else invoked s ++ [Call kind (batchFunction b) (JsMap.keys (items b)) (promises b)].
Proof.
  intros Hb Hne.
  destruct (processBatch_cases kind why s)
    as [(_ & [Hnone|(b' & Hb' & Hempty)])
       |(b' & b'' & Hb' & _ & _ & _ & _ & _ & _ & _ & _ & Hcase)].
  - congruence.
  - congruence.
  - assert (b' = b) as -> by congruence.
    destruct Hcase as [(Hsmall & Hwhy & _ & _ & ->)|(Hflush & _ & _ & ->)].
    + by rewrite decide_True.
    + by rewrite decide_False.
Qed.

(** C10.  When [addToBatch] creates the entry of a batch type, the batch
    function and the [maxSize]/[maxWait]/[minSize] options of that call
    ([first], with the manager's defaults filled in) are stored in it.
    Whatever events follow short of [clearAllBatches] (flushes included, and
    further adds of the type with other functions and options), the entry
    is still there with that function and those options, and every call a
    flush of the type makes is a call of that function.  What a later
    [addToBatch] of the type does, does not depend on the function and the
    options passed to it.  The triggers read the stored options: a later
    add flushes the group exactly when, with the new member, it has reached
    the first call's [maxSize] and is not held back by the first call's
    [minSize], and the call it makes is a call of the first function with
    all keys of the group; the deadline armed for the first member of a new
    group is the first call's [maxWait] from now; and [processBatch] holds a
    group back exactly when it is below the first call's [minSize] and the
    reason is not the deadline. *)
Theorem entry_fixed_by_first_add (s : state) (kind key : string) (f : nat)
    (o : add_options) (evs : list event) :
  batches s !! kind = None →
  ClearAll ∉ evs →
  let first := BatchOptions (or_default (opt_maxSize o) (maxBatchSize s))
                            (or_default (opt_maxWait o) (maxWaitTime s))
                            (or_default (opt_minSize o) (minBatchSize s)) in
  let s' := run evs (step (Add kind key f o) s) in
  ∃ b, batches s' !! kind = Some b ∧
    batchFunction b = f ∧
    options b = first ∧
    (∃ new, invoked s' = invoked s ++ new ∧
            ∀ c, c ∈ new → call_type c = kind → call_function c = f) ∧
    (∀ key' f1 o1 f2 o2,
       addToBatch kind key' f1 o1 s' = addToBatch kind key' f2 o2 s') ∧
    (∀ key' f' o',
       invoked (step (Add kind key' f' o') s') =
         if decide (maxSize first
                      <= Z.of_nat (length (JsMap.set key' (clock s') (items b))) ∧
                    minSize first
                      <= Z.of_nat (length (JsMap.set key' (clock s') (items b))))
         then invoked s' ++ [Call kind f
                               (JsMap.keys (JsMap.set key' (clock s') (items b)))
                               (JsMap.set key' (nextPromise s') (promises b))]
         else invoked s') ∧
    (∀ key' f' o',
       items b = [] → timeout b = None → 1 < maxSize first →
       timers (step (Add kind key' f' o') s')
         = timers s' ++ [(nextTimer s', (clock s' + maxWait first, kind))]) ∧
    (∀ why,
       items b ≠ [] →
       invoked (processBatch kind why s') =
         if decide (Z.of_nat (length (items b)) < minSize first ∧ why ≠ ReasonTimeout)
         then invoked s'
         else invoked s' ++ [Call kind f (JsMap.keys (items b)) (promises b)]).
Proof.
  intros Hnone Hclear first s'.
  destruct (first_add_entry s kind key f o evs Hnone Hclear)
    as (b & Hb & Hf & Ho & Hcalls).
  fold first in Ho. fold s' in Hb, Hcalls.
  exists b. do 4 (split; [done|]). split; [|split; [|split]].
  - intros key' f1 o1 f2 o2. by apply (addToBatch_later kind key' f1 o1 f2 o2 s' b).
  - intros key' f' o'. simpl.
    rewrite (addToBatch_trigger kind key' f' o' s' b Hb). by rewrite Hf, Ho.
  - intros key' f' o' Hempty Htimeout Hmax. simpl.
    rewrite (addToBatch_deadline kind key' f' o' s' b Hb Hempty Htimeout); [|by rewrite Ho].
    by rewrite Ho.
  - intros why Hne.
    rewrite (processBatch_trigger kind why s' b Hb Hne). by rewrite Hf, Ho.
Qed.

Lemma entry_fixed_by_first_add_witness :
  ∃ b, batches (run first_add_events
                  (step (Add "prices" "a" 1 (AddOptions (Some 3) None None))
                     (constructor (ManagerOptions None None None) 0))) !! "prices" = Some b ∧
       batchFunction b = 1%nat ∧ options b = BatchOptions 3 2000 2 ∧
       invoked (step (Add "prices" "d" 9 (AddOptions (Some 1) (Some 1) (Some 1)))
                  (run first_add_events
                     (step (Add "prices" "a" 1 (AddOptions (Some 3) None None))
                        (constructor (ManagerOptions None None None) 0))))
       = invoked (run first_add_events
                    (step (Add "prices" "a" 1 (AddOptions (Some 3) None None))
                       (constructor (ManagerOptions None None None) 0))) ∧
       timers (step (Add "prices" "d" 9 (AddOptions (Some 1) (Some 1) (Some 1)))
                 (run first_add_events
                    (step (Add "prices" "a" 1 (AddOptions (Some 3) None None))
                       (constructor (ManagerOptions None None None) 0))))
       = [(2%nat, (4000 + 2000, "prices"))].
Proof.
  destruct (entry_fixed_by_first_add (constructor (ManagerOptions None None None) 0)
              "prices" "a" 1 (AddOptions (Some 3) None None) first_add_events)
    as (b & Hb & Hf & Ho & _ & _ & Hsize & Hdeadline & _).
  - reflexivity.
  - unfold first_add_events. intros Hin.
    repeat (apply elem_of_cons in Hin as [Hin|Hin]; [discriminate Hin|]).
    by apply elem_of_nil in Hin.
  - exists b. split; [exact Hb|]. split; [exact Hf|]. split; [exact Ho|].
    assert (b = Batch [] [] 1 None (BatchOptions 3 2000 2)) as ->.
    { apply (inj Some). rewrite <- Hb. by vm_compute. }
    split.
    + rewrite Hsize. reflexivity.
    + rewrite Hdeadline; [by vm_compute|reflexivity|reflexivity|reflexivity].
Defined.

(** *** Demultiplexing the result of a batch function *)




(** C6 fails on the code for a key that names a member of
    [Object.prototype].  The caller of [inherited_key_events] asked for the
    key "constructor" and the batch function returned [{}]: the key is
    absent from the returned map, and yet the caller is not rejected with
    "No result for key" but resolved, with the function [Object] that
    [results[key]] finds on the prototype chain.  So it is for every awaited
    call, every returned object without an own property for a member's key
    and every name of [Object.prototype]. *)
Theorem inherited_key_is_resolved :
  settled (run inherited_key_events (constructor (ManagerOptions None None None) 0))
    = [(0%nat, Resolved (VObject "Object"))] ∧
  (∀ key, is_Some (Object_prototype !! key) ↔
     key ∈ ["constructor"; "__defineGetter__"; "__defineSetter__"; "hasOwnProperty";
            "__lookupGetter__"; "__lookupSetter__"; "isPrototypeOf";
            "propertyIsEnumerable"; "toString"; "valueOf"; "__proto__";
            "toLocaleString"]) ∧
  ∀ s i c results key caller inherited,
    pending s !! i = Some c →
    (key, caller) ∈ call_promises c →
    results !! key = None →
    Object_prototype !! key = Some inherited →
    (caller, Resolved inherited)
      ∈ settled (step (Settle i (Fulfilled (Some results))) s).
Proof.
  split; [by vm_compute|]. split.
  - intros key. unfold Object_prototype.
    rewrite <- not_eq_None_Some, <- not_elem_of_list_to_map. simpl.
    split; [apply dec_stable|by intros ? ?].
  - intros s i c results key caller inherited Hc Hin Hown Hproto.
    simpl. unfold processBatch_settled. rewrite Hc. simpl.
    apply elem_of_app. right.
    apply (list_elem_of_fmap_2 (resolve_member results)) in Hin.
    unfold resolve_member in Hin at 1. unfold get_property in Hin. simpl in Hin.
    by rewrite Hown, Hproto in Hin.
Qed.

(** *** Callers that share a key *)

Lemma stored_waiting p s : stored p s → p ∈ waiting s.
Proof.
  unfold waiting. intros [(kind & b & key & Hb & Hin)|(c & key & Hc & Hin)];
    apply elem_of_app; [left|right]; apply list_elem_of_bind.
  - exists (kind, b). split; [|by apply elem_of_map_to_list].
    simpl. apply list_elem_of_fmap. by exists (key, p).
  - exists c. split; [|done]. apply list_elem_of_fmap. by exists (key, p).
Qed.

Lemma JsMap_set_elem {A} (k k' : string) (v v' : A) m :
  (k', v') ∈ JsMap.set k v m → (k', v') ∈ m ∨ (k' = k ∧ v' = v).
Proof.
  induction m as [|[k0 v0] m IH]; simpl.
  - intros Hin. apply list_elem_of_singleton in Hin. injection Hin as -> ->. auto.
  - case_decide; intros Hin; apply elem_of_cons in Hin as [Hin|Hin].
    + injection Hin as -> ->. auto.
    + left. by apply list_elem_of_further.
    + left. rewrite Hin. apply list_elem_of_here.
    + destruct (IH Hin) as [?|?]; [left; by apply list_elem_of_further|by right].
Qed.

Lemma processBatch_frame batchType why s :
  settled (processBatch batchType why s) = settled s ∧
  nextPromise (processBatch batchType why s) = nextPromise s ∧
  ∀ q, stored q (processBatch batchType why s) → stored q s.
Proof.
  unfold processBatch.
  destruct (batches s !! batchType) as [b|] eqn:Hb; [|done].
  case_decide; [done|].
  destruct (timeout b) as [handle|] eqn:Ht; simpl; case_decide; simpl;
    (split; [done|]); (split; [done|]); intros q Hq.
  - destruct Hq as [(kind & b' & key & Hb' & Hin)|Hp]; [left|by right].
    simpl in Hb'. destruct (decide (kind = batchType)) as [->|Hne].
    + rewrite lookup_insert_eq in Hb'. injection Hb' as <-. by exists batchType, b, key.
    + rewrite lookup_insert_ne in Hb' by done. by exists kind, b', key.
  - destruct Hq as [(kind & b' & key & Hb' & Hin)|(c & key & Hc & Hin)].
    + left. simpl in Hb'. destruct (decide (kind = batchType)) as [->|Hne].
      * rewrite lookup_insert_eq in Hb'. injection Hb' as <-. simpl in Hin.
        by apply elem_of_nil in Hin.
      * rewrite !lookup_insert_ne in Hb' by done. by exists kind, b', key.
    + simpl in Hc. apply elem_of_app in Hc as [Hc|Hc]; [right; by exists c, key|].
      apply list_elem_of_singleton in Hc. subst c. simpl in Hin.
      left. by exists batchType, b, key.
  - done.
  - destruct Hq as [(kind & b' & key & Hb' & Hin)|(c & key & Hc & Hin)].
    + left. simpl in Hb'. destruct (decide (kind = batchType)) as [->|Hne].
      * rewrite lookup_insert_eq in Hb'. injection Hb' as <-. simpl in Hin.
        by apply elem_of_nil in Hin.
      * rewrite !lookup_insert_ne in Hb' by done. by exists kind, b', key.
    + simpl in Hc. apply elem_of_app in Hc as [Hc|Hc]; [right; by exists c, key|].
      apply list_elem_of_singleton in Hc. subst c. simpl in Hin.
      left. by exists batchType, b, key.
Qed.

Lemma addToBatch_frame batchType key f o s :
  settled (addToBatch batchType key f o s).2 = settled s ∧
  nextPromise (addToBatch batchType key f o s).2 = S (nextPromise s) ∧
  ∀ q, stored q (addToBatch batchType key f o s).2 → stored q s ∨ q = nextPromise s.
Proof.
  unfold addToBatch.
  set (s1 := set_nextPromise _ _).
  set (b := match batches s1 !! batchType with Some b => b | None => _ end).
  set (b1 := with_promises _ (with_items _ b)).
  set (p := if decide (length (items b1) = 1%nat ∧ timeout b1 = None) then _ else _).
  assert (promises p.1 = promises b1 ∧ batches p.2 = batches s ∧
          settled p.2 = settled s ∧ nextPromise p.2 = S (nextPromise s) ∧
          pending p.2 = pending s) as (Hp1 & Hp2 & Hp3 & Hp4 & Hp5).
  { subst p. case_decide; simpl; done. }
  destruct p as [b2 s2]. simpl in *.
  set (s3 := set_batches _ s2).
  assert (∀ q, stored q s3 → stored q s ∨ q = nextPromise s) as Hs3.
  { intros q [(kind & b' & k & Hb' & Hin)|(c & k & Hc & Hin)].
    - simpl in Hb'. rewrite Hp2 in Hb'.
      destruct (decide (kind = batchType)) as [->|Hne].
      + rewrite lookup_insert_eq in Hb'. injection Hb' as <-.
        rewrite Hp1 in Hin. subst b1. simpl in Hin.
        apply JsMap_set_elem in Hin as [Hin|[_ ->]]; [|by right].
        subst b. simpl in Hin.
        destruct (batches s !! batchType) as [b0|] eqn:Hb0.
        * left. left. by exists batchType, b0, k.
        * simpl in Hin. by apply elem_of_nil in Hin.
      + rewrite lookup_insert_ne in Hb' by done. left. left. by exists kind, b', k.
    - left. right. exists c, k. simpl in Hc. by rewrite Hp5 in Hc. }
  destruct (decide (maxSize (options b2) <= Z.of_nat (length (items b2)))); [|done].
  destruct (processBatch_frame batchType ReasonFull s3) as (-> & -> & Hq).
  repeat split; [done..|]. intros q Hst. apply Hs3, Hq, Hst.
Qed.

Lemma settle_frame i o s :
  nextPromise (processBatch_settled i o s) = nextPromise s ∧
  (∀ q, stored q (processBatch_settled i o s) → stored q s) ∧
  ∀ q, q ∈ settled_callers (processBatch_settled i o s) →
       q ∈ settled_callers s ∨ stored q s.
Proof.
  unfold processBatch_settled. destruct (pending s !! i) as [c|] eqn:Hc; [|by auto].
  assert (∀ q, stored q (set_pending (delete i (pending s)) s) → stored q s) as Hdel.
  { intros q [?|(c' & k & Hc' & Hin)]; [by left|right].
    exists c', k. split; [|done]. simpl in Hc'.
    by eapply list_elem_of_delete_inv. }
  assert (∀ (g : string * nat → nat * settlement) q,
            (∀ m, (g m).1 = m.2) →
            q ∈ (settled s ++ (g <$> call_promises c)).*1 →
            q ∈ settled_callers s ∨ stored q s) as Hnew.
  { intros g q Hg Hq. rewrite fmap_app in Hq. apply elem_of_app in Hq as [Hq|Hq]; [by left|].
    right. right. apply list_elem_of_fmap in Hq as (x & -> & Hx).
    apply list_elem_of_fmap in Hx as ([k q'] & -> & Hm).
    rewrite Hg. simpl. exists c, k. split; [|done].
    by eapply list_elem_of_lookup_2. }
  unfold results_unreadable.
  destruct o as [[results|]| |error]; simpl.
  - repeat split; [exact Hdel|]. intros q Hq. apply (Hnew (resolve_member results)); [|done].
    intros [k q']. unfold resolve_member. simpl. by destruct (get_property results k).
  - destruct (call_promises c) as [|[k0 q0] rest] eqn:Hprom; simpl.
    + repeat split; [exact Hdel|by auto].
    + repeat split; [exact Hdel|]. intros q Hq.
      by apply (Hnew (reject_member (Some (type_error "undefined" k0)))).
  - destruct (call_promises c) as [|[k0 q0] rest] eqn:Hprom; simpl.
    + repeat split; [exact Hdel|by auto].
    + repeat split; [exact Hdel|]. intros q Hq.
      by apply (Hnew (reject_member (Some (type_error "null" k0)))).
  - repeat split; [exact Hdel|]. intros q Hq. by apply (Hnew (reject_member error)).
Qed.

Lemma clearAll_frame s :
  nextPromise (clearAllBatches s) = nextPromise s ∧
  (∀ q, stored q (clearAllBatches s) → stored q s) ∧
  ∀ q, q ∈ settled_callers (clearAllBatches s) → q ∈ settled_callers s ∨ stored q s.
Proof.
  unfold clearAllBatches. simpl. repeat split.
  - intros q [(kind & b & k & Hb & _)|?]; [|by right].
    simpl in Hb. by rewrite lookup_empty in Hb.
  - intros q Hq. unfold settled_callers in Hq. simpl in Hq.
    rewrite fmap_app in Hq. apply elem_of_app in Hq as [Hq|Hq]; [by left|].
    right. left. apply list_elem_of_fmap in Hq as (x & -> & Hx).
    apply list_elem_of_bind in Hx as ([kind b] & Hx & Hkb).
    apply list_elem_of_fmap in Hx as ([k q'] & -> & Hm).
    apply elem_of_map_to_list in Hkb. by exists kind, b, k.
Qed.

Lemma step_lost p ev s : lost p s → lost p (step ev s).
Proof.
  intros (Hlt & Hns & Hnot & Hbound).
  destruct ev as [dt|batchType key f o|i|batchType|i o|]; simpl.
  - done.
  - destruct (addToBatch_frame batchType key f o s) as (Hset & Hnext & Hst).
    unfold lost, settled_callers. rewrite Hset, Hnext. repeat split; [lia| |done|].
    + intros [?| ->]%Hst; [done|lia].
    + intros q [?%Hbound| ->]%Hst; lia.
  - unfold fire. destruct (timers s !! i) as [[h [due ty]]|]; [|done].
    case_decide; [|done].
    destruct (processBatch_frame ty ReasonTimeout (set_timers (delete i (timers s)) s))
      as (Hset & Hnext & Hst).
    unfold lost, settled_callers. rewrite Hset, Hnext. repeat split; [done| |done|].
    + intros Hq%Hst. apply Hns. by destruct Hq; [left|right].
    + intros q Hq%Hst. apply Hbound. by destruct Hq; [left|right].
  - destruct (processBatch_frame batchType ReasonManual s) as (Hset & Hnext & Hst).
    unfold lost, settled_callers. rewrite Hset, Hnext. repeat split; [done| |done|].
    + intros Hq%Hst. done.
    + intros q Hq%Hst. by apply Hbound.
  - destruct (settle_frame i o s) as (Hnext & Hst & Hsettled).
    unfold lost. rewrite Hnext. repeat split; [done| | |].
    + intros Hq%Hst. done.
    + intros [?|?]%Hsettled; done.
    + intros q Hq%Hst. by apply Hbound.
  - destruct (clearAll_frame s) as (Hnext & Hst & Hsettled).
    unfold lost. rewrite Hnext. repeat split; [done| | |].
    + intros Hq%Hst. done.
    + intros [?|?]%Hsettled; done.
    + intros q Hq%Hst. by apply Hbound.
Qed.

(** A lost caller stays lost: no later event settles its promise. *)
Lemma lost_forever p s evs : lost p s → p ∉ settled_callers (run evs s).
Proof.
  intros Hlost.
  assert (lost p (run evs s)) as (_ & _ & H & _); [|done].
  induction evs as [|ev evs IH] using rev_ind; [done|].
  rewrite batch_run_snoc. by apply step_lost.
Qed.

(** C7, on the code.  With the same key added twice to an open group the
    second [promises.set(key, ...)] replaces the continuation of the first
    caller: the flush calls the batch function with the one key and
    settles the second caller only; the first caller (0) is not settled,
    no open group and no awaited call holds its continuation, and no
    sequence of later events settles it. *)
Theorem repeated_key_drops_caller :
  invoked repeated_key_state = [Call "prices" 1 ["a"] [("a", 1%nat)]] ∧
  settled repeated_key_state = [(1%nat, Resolved (VNum 1))] ∧
  waiting repeated_key_state = [] ∧
  ∀ evs, 0%nat ∉ settled_callers (run evs repeated_key_state).
Proof.
  assert (waiting repeated_key_state = []) as Hwait by by vm_compute.
  assert (settled repeated_key_state = [(1%nat, Resolved (VNum 1))]) as Hset
    by by vm_compute.
  split; [by vm_compute|]. split; [done|]. split; [done|].
  intros evs. apply lost_forever. repeat split.
  - vm_compute. lia.
  - intros Hst%stored_waiting. rewrite Hwait in Hst. by apply elem_of_nil in Hst.
  - unfold settled_callers. rewrite Hset. simpl.
    intros Hin%list_elem_of_singleton. discriminate Hin.
  - intros q Hst%stored_waiting. rewrite Hwait in Hst.
    apply elem_of_nil in Hst. destruct Hst.
Qed.

End BatchManagerFacts.

Module JsMapFacts.
Section facts.
Context {A : Type}.
Implicit Types (m : list (string * A)) (k : string) (v : A).

Lemma get_None k m : JsMap.get k m = None ↔ k ∉ m.*1.
Proof.
  induction m as [|[k0 v0] m IH]; simpl.
  - split; [intros _; apply not_elem_of_nil|done].
  - rewrite not_elem_of_cons. destruct (decide (k0 = k)) as [->|Hk].
    + split; [done|]. by intros [? _].
    + rewrite IH. split; [by intros ?; split|by intros [_ ?]].
Qed.

Lemma get_set_eq k v m : JsMap.get k (JsMap.set k v m) = Some v.
Proof.
  induction m as [|[k0 v0] m IH]; simpl.
  - by rewrite decide_True.
  - destruct (decide (k0 = k)); simpl; [by rewrite decide_True|by rewrite decide_False].
Qed.

Lemma keys_set k v m :
  (JsMap.set k v m).*1 = if decide (k ∈ m.*1) then m.*1 else m.*1 ++ [k].
Proof.
  induction m as [|[k0 v0] m IH].
  - rewrite decide_False; [done|apply not_elem_of_nil].
  - cbn [JsMap.set]. rewrite !fmap_cons. cbn [fst].
    destruct (decide (k0 = k)) as [->|Hk].
    + rewrite decide_True; [done|apply list_elem_of_here].
    + rewrite fmap_cons, IH. cbn [fst].
      destruct (decide (k ∈ m.*1)) as [Hin|Hin].
      * rewrite decide_True; [done|by apply list_elem_of_further].
      * rewrite decide_False; [done|]. rewrite not_elem_of_cons. by split.
Qed.

Lemma NoDup_set k v m : NoDup m.*1 → NoDup (JsMap.set k v m).*1.
Proof.
  intros Hm. rewrite keys_set. case_decide; [done|].
  apply NoDup_app. split; [done|]. split; [|apply NoDup_singleton].
  intros x Hx ->%list_elem_of_singleton. done.
Qed.

Lemma length_set k v m :
  length (JsMap.set k v m) = if decide (k ∈ m.*1) then length m else S (length m).
Proof.
  rewrite <- (length_fmap fst (JsMap.set k v m)), keys_set, <- (length_fmap fst m).
  case_decide; [done|]. rewrite length_app. simpl. lia.
Qed.

Lemma remove_sublist k m : JsMap.remove k m `sublist_of` m.
Proof.
  induction m as [|[k0 v0] m IH]; simpl; [done|].
  case_decide; [by apply sublist_cons|by apply sublist_skip].
Qed.

Lemma NoDup_remove k m : NoDup m.*1 → NoDup (JsMap.remove k m).*1.
Proof.
  intros Hm. eapply sublist_NoDup; [done|]. apply fmap_sublist, remove_sublist.
Qed.

Lemma keys_remove k m : NoDup m.*1 → ∀ x, x ∈ (JsMap.remove k m).*1 ↔ x ∈ m.*1 ∧ x ≠ k.
Proof.
  induction m as [|[k0 v0] m IH]; simpl; intros Hm x.
  - split; [by intros ?%elem_of_nil|by intros [?%elem_of_nil _]].
  - apply NoDup_cons in Hm as [Hk0 Hm]. case_decide as Hk; simpl.
    + subst. rewrite elem_of_cons. split.
      * intros Hx. split; [by right|]. by intros ->.
      * intros [[?|?] ?]; done.
    + rewrite !elem_of_cons, (IH Hm). split.
      * intros [->|[? ?]]; [by split; [left|]|by split; [right|]].
      * intros [[->|?] ?]; [by left|by right].
Qed.

Lemma get_remove_eq k m : NoDup m.*1 → JsMap.get k (JsMap.remove k m) = None.
Proof. intros Hm. apply get_None. rewrite keys_remove by done. by intros [_ ?]. Qed.

Lemma length_remove k m :
  k ∈ m.*1 → length m = S (length (JsMap.remove k m)).
Proof.
  induction m as [|[k0 v0] m IH]; simpl.
  - by intros ?%elem_of_nil.
  - intros Hin. case_decide as Hk; [done|]. simpl. f_equal. apply IH.
    apply elem_of_cons in Hin as [?|?]; [by subst|done].
Qed.
End facts.
End JsMapFacts.

Module CacheManagerFacts.
Import CacheManager.

Lemma cache_run_snoc evs ev s : run (evs ++ [ev]) s = step ev (run evs s).
Proof. unfold run. by rewrite foldl_app. Qed.

Lemma wf_set_cache cacheType cache s :
  well_formed s → NoDup cache.*1 → well_formed (set_cache cacheType cache s).
Proof.
  intros [Hdecl Hnodup] Hcache. split; simpl.
  - intros ty Hty. rewrite lookup_insert_is_Some. destruct (decide (cacheType = ty)); auto.
  - intros ty c. rewrite lookup_insert. case_decide; [by intros [= <-]|apply Hnodup].
Qed.

Lemma wf_caches s s' : caches s' = caches s → well_formed s → well_formed s'.
Proof. unfold well_formed. by intros ->. Qed.

Lemma wf_constructor o now : well_formed (constructor o now).
Proof.
  split.
  - intros ty Hty. unfold cacheTypes in Hty.
    repeat (apply elem_of_cons in Hty as [->|Hty]; [by eexists|]).
    by apply elem_of_nil in Hty.
  - intros ty cache Hc.
    assert (cache = []) as ->; [|apply NoDup_nil_2].
    simpl in Hc.
    repeat (rewrite lookup_insert in Hc; case_decide; [by injection Hc|]).
    by rewrite lookup_empty in Hc.
Qed.

Lemma wf_delete cacheType key s : well_formed s → well_formed (delete cacheType key s).
Proof.
  intros Hwf. unfold delete. destruct (caches s !! cacheType) as [cache|] eqn:Hc; [|done].
  apply wf_set_cache; [done|]. apply JsMapFacts.NoDup_remove. by eapply Hwf.
Qed.

Lemma wf_evictOldest cacheType s : well_formed s → well_formed (evictOldest cacheType s).
Proof.
  intros Hwf. unfold evictOldest.
  destruct (caches s !! cacheType) as [cache|] eqn:Hc; [|done].
  destruct (oldest cache) as [[k t]|]; [|done]. destruct (truthy_key k); [|done].
  eapply wf_caches; [done|]. apply wf_set_cache; [done|].
  apply JsMapFacts.NoDup_remove. by eapply Hwf.
Qed.

Lemma wf_cleanup_cache cacheType s :
  well_formed s → well_formed (cleanup_cache cacheType s).
Proof.
  intros Hwf. unfold cleanup_cache.
  destruct (caches s !! cacheType) as [cache|]; [|done].
  generalize ((filter (λ kv, expiresAt kv.2 < clock s) cache).*1). intros keys.
  revert s Hwf. induction keys as [|k keys IH]; intros s Hwf; [done|].
  simpl. apply IH. eapply wf_caches; [done|]. by apply wf_delete.
Qed.

Lemma step_well_formed ev s : well_formed s → well_formed (step ev s).
Proof.
  intros Hwf. destruct ev as [dt|ty key|ty key v ttl|ty key|ty|]; simpl.
  - done.
  - unfold get. destruct (caches s !! ty) as [cache|] eqn:Hc; [|done].
    destruct (JsMap.get key cache) as [e|]; [|done].
    case_decide; simpl; (eapply wf_caches; [done|]); apply wf_set_cache; try done.
    + apply JsMapFacts.NoDup_remove. by eapply Hwf.
    + apply JsMapFacts.NoDup_set. by eapply Hwf.
  - unfold set. destruct (caches s !! ty) as [cache|] eqn:Hc; [|done]. simpl.
    set (s1 := match limits s !! ty with Some _ => _ | None => _ end).
    assert (well_formed s1) as Hwf1.
    { subst s1. destruct (limits s !! ty); [|done]. case_decide; [|done].
      by apply wf_evictOldest. }
    eapply wf_caches; [done|]. apply wf_set_cache; [done|].
    apply JsMapFacts.NoDup_set.
    destruct (caches s1 !! ty) as [c1|] eqn:Hc1; simpl; [by eapply Hwf1|apply NoDup_nil_2].
  - by apply wf_delete.
  - unfold clear. destruct (caches s !! ty); [|done].
    apply wf_set_cache; [done|apply NoDup_nil_2].
  - unfold cleanup. generalize cacheTypes. intros tys.
    revert s Hwf. induction tys as [|ty tys IH]; intros s Hwf; [done|].
    simpl. apply IH. by apply wf_cleanup_cache.
Qed.

Lemma run_well_formed evs o now : well_formed (run evs (constructor o now)).
Proof.
  induction evs as [|ev evs IH] using rev_ind; [apply wf_constructor|].
  rewrite cache_run_snoc. by apply step_well_formed.
Qed.

(** C8.  In every state the cache can reach, for a declared namespace:
    [set] stores the value under the key with the expiry [now + ttl] (the
    custom TTL, or the default of the namespace when none or zero is
    given); [get] on a key whose entry has [now <= expiresAt] returns the
    stored value; and [get] on a key whose entry has [now > expiresAt]
    returns [null] and leaves the namespace without an entry for the
    key. *)
Theorem cache_ttl (o : options) (now : Z) (evs : list event) (cacheType key : string) :
  cacheType ∈ cacheTypes →
  (∀ v customTTL,
     ∃ cache e,
       caches (set cacheType key v customTTL (run evs (constructor o now))).2 !! cacheType
         = Some cache ∧
       JsMap.get key cache = Some e ∧ data e = v ∧
       expiresAt e = clock (run evs (constructor o now)) +
                     or_default customTTL
                       (default 0 (ttls (run evs (constructor o now)) !! cacheType))) ∧
  (∀ cache e,
     caches (run evs (constructor o now)) !! cacheType = Some cache →
     JsMap.get key cache = Some e →
     (clock (run evs (constructor o now)) <= expiresAt e →
        (get cacheType key (run evs (constructor o now))).1 = Returns (data e)) ∧
     (expiresAt e < clock (run evs (constructor o now)) →
        (get cacheType key (run evs (constructor o now))).1 = Returns VNull ∧
        ∃ cache',
          caches (get cacheType key (run evs (constructor o now))).2 !! cacheType
            = Some cache' ∧
          JsMap.get key cache' = None)).
Proof.
  intros Hty. pose proof (run_well_formed evs o now) as Hwf.
  set (s := run evs (constructor o now)) in *.
  destruct Hwf as [Hdecl Hnodup]. split.
  - intros v customTTL. destruct (Hdecl _ Hty) as [cache Hc].
    unfold set. rewrite Hc. simpl. rewrite lookup_insert_eq.
    eexists _, _. split; [done|]. rewrite JsMapFacts.get_set_eq.
    split; [done|]. simpl. by split.
  - intros cache e Hc He. unfold get. rewrite Hc, He. split; intros Hexp.
    + rewrite decide_False by lia. done.
    + rewrite decide_True by lia. simpl. split; [done|].
      rewrite lookup_insert_eq. eexists. split; [done|].
      apply JsMapFacts.get_remove_eq. by eapply Hnodup.
Qed.

Lemma cache_ttl_witness :
  (get "priceData" "mint" (run ttl_events (constructor ttl_options 0))).1 = Returns VNull.
Proof.
  destruct (cache_ttl ttl_options 0 ttl_events "priceData" "mint") as [_ Hget].
  - unfold cacheTypes. apply list_elem_of_further, list_elem_of_here.
  - refine (proj1 (proj2 (Hget [("mint", Entry (VNum 42) 0 100 0)]
                            (Entry (VNum 42) 0 100 0) _ _) _)).
    + by vm_compute.
    + by vm_compute.
    + by vm_compute.
Defined.

(** *** Eviction *)

Lemma oldest_snoc cache kv : oldest (cache ++ [kv]) = older (oldest cache) kv.
Proof. unfold oldest. by rewrite foldl_app. Qed.

(** The scan of [evictOldest] on a cache that is not empty ends on an
    entry of the cache whose [lastAccessed] is minimal. *)
Lemma oldest_spec cache :
  cache ≠ [] →
  ∃ k t, oldest cache = Some (k, t) ∧
         (∃ e, (k, e) ∈ cache ∧ lastAccessed e = t) ∧
         ∀ kv, kv ∈ cache → t <= lastAccessed kv.2.
Proof.
  induction cache as [|[k1 e1] cache IH] using rev_ind; [done|]. intros _.
  rewrite oldest_snoc. destruct (decide (cache = [])) as [->|Hne].
  - exists k1, (lastAccessed e1). simpl. split; [done|]. split.
    + exists e1. split; [apply list_elem_of_here|done].
    + intros kv ->%list_elem_of_singleton. simpl. lia.
  - destruct IH as (k & t & -> & (e & Hin & Ht) & Hmin); [done|].
    unfold older. simpl. case_decide.
    + exists k1, (lastAccessed e1). split; [done|]. split.
      * exists e1. split; [|done]. apply elem_of_app. right. apply list_elem_of_here.
      * intros kv [Hkv| ->%list_elem_of_singleton]%elem_of_app; simpl; [|lia].
        specialize (Hmin kv Hkv). lia.
    + exists k, t. split; [done|]. split.
      * exists e. split; [|done]. apply elem_of_app. by left.
      * intros kv [Hkv| ->%list_elem_of_singleton]%elem_of_app; simpl; [|lia].
        by apply Hmin.
Qed.

(** Apart from the empty key: a [set] on a namespace that holds [limit]
    entries, none under the empty key, first removes an entry whose
    [lastAccessed] is minimal, and the namespace stays within [limit]. *)
Lemma set_evicts_oldest (s : state) (cacheType key : string) (v : value)
    (customTTL : option Z) (cache : list (string * entry)) (limit : Z) :
  well_formed s →
  caches s !! cacheType = Some cache →
  limits s !! cacheType = Some limit →
  1 <= limit →
  Z.of_nat (length cache) = limit →
  (∀ k, k ∈ cache.*1 → truthy_key k = true) →
  ∃ k e,
    (k, e) ∈ cache ∧ (∀ kv, kv ∈ cache → lastAccessed e <= lastAccessed kv.2) ∧
    caches (evictOldest cacheType s) !! cacheType = Some (JsMap.remove k cache) ∧
    caches (set cacheType key v customTTL s).2 !! cacheType =
      Some (JsMap.set key (Entry v (clock s) (clock s + or_default customTTL
                                                (default 0 (ttls s !! cacheType)))
                             (clock s))
              (JsMap.remove k cache)) ∧
    Z.of_nat (size cacheType (set cacheType key v customTTL s).2) <= limit.
Proof.
  intros Hwf Hc Hl Hpos Hfull Htruthy.
  destruct (oldest_spec cache) as (k & t & Hold & (e & Hin & Ht) & Hmin).
  { intros ->. simpl in Hfull. lia. }
  assert (k ∈ cache.*1) as Hk.
  { apply list_elem_of_fmap. by exists (k, e). }
  assert (caches (evictOldest cacheType s) !! cacheType = Some (JsMap.remove k cache))
    as Hevict.
  { unfold evictOldest. rewrite Hc, Hold, (Htruthy k Hk). simpl.
    by rewrite lookup_insert_eq. }
  exists k, e. split; [done|]. split; [by rewrite Ht|]. split; [done|].
  unfold size, set. rewrite Hc, Hl. rewrite decide_True by lia. simpl.
  rewrite Hevict, lookup_insert_eq. simpl. split; [done|].
  rewrite JsMapFacts.length_set.
  pose proof (JsMapFacts.length_remove k cache Hk). case_decide; lia.
Qed.

(** C9, on the code.  With a limit of one entry, [set] of the key [""]
    followed by [set] of the key ["a"] leaves two entries in the
    namespace: [evictOldest] finds the entry under [""] as the oldest, but
    its test [if (oldestKey)] takes the empty string for "no key" and
    deletes nothing. *)
Theorem empty_key_defeats_eviction :
  limits (run empty_key_events (constructor empty_key_options 0)) !! "priceData" = Some 1 ∧
  size "priceData" (run empty_key_events (constructor empty_key_options 0)) = 2%nat ∧
  JsMap.keys (default [] (caches (run empty_key_events (constructor empty_key_options 0))
                            !! "priceData")) = [""; "a"] ∧
  oldest (default [] (caches (step (Set_ "priceData" "" (VNum 1) None)
                                (constructor empty_key_options 0)) !! "priceData"))
    = Some ("", 0) ∧
  evictOldest "priceData" (step (Set_ "priceData" "" (VNum 1) None)
                             (constructor empty_key_options 0))
    = step (Set_ "priceData" "" (VNum 1) None) (constructor empty_key_options 0).
Proof. repeat split; by vm_compute. Qed.

End CacheManagerFacts.

Module RPCManagerFacts.
Import RPCManager.

Lemma rpc_run_snoc evs ev s : run (evs ++ [ev]) s = step ev (run evs s).
Proof. unfold run. by rewrite foldl_app. Qed.

Lemma cooldown_set_index nm i s :
  isEndpointInCooldown nm (set_index i s) = isEndpointInCooldown nm s.
Proof. done. Qed.

(** The loop of [switchToNextEndpoint] on a list of [n > 0] endpoints: it
    only moves the index, it never reads past the list, and it stops at
    the first position after the start (going round) whose endpoint is not
    in cooldown. *)
Lemma switch_loop_spec fuel s res s' :
  (0 < length (endpoints s))%nat →
  switch_loop fuel s = (res, s') →
  let n := length (endpoints s) in
  s' = set_index (currentEndpointIndex s') s ∧
  ((res = Some true ∧
    ∃ k, (1 <= k <= fuel)%nat ∧
         currentEndpointIndex s' = ((currentEndpointIndex s + k) `mod` n)%nat ∧
         (∃ e, getCurrentEndpoint s' = Some e ∧
               isEndpointInCooldown (name e) s' = false) ∧
         ∀ j, (1 <= j < k)%nat → cooling s ((currentEndpointIndex s + j) `mod` n)%nat) ∨
   (res = Some false ∧
    (fuel = 0%nat ∧ currentEndpointIndex s' = currentEndpointIndex s ∨
     (0 < fuel)%nat ∧
     currentEndpointIndex s' = ((currentEndpointIndex s + fuel) `mod` n)%nat) ∧
    ∀ j, (1 <= j <= fuel)%nat → cooling s ((currentEndpointIndex s + j) `mod` n)%nat)).
Proof.
  revert s. induction fuel as [|fuel IH]; intros s Hn Hrun n.
  - simpl in Hrun. injection Hrun as <- <-. split; [by destruct s|].
    right. split; [done|]. split; [by left|]. intros j Hj. lia.
  - cbn [switch_loop] in Hrun. fold n in Hrun.
    set (i1 := ((currentEndpointIndex s + 1) `mod` n)%nat) in *.
    assert (i1 < n)%nat as Hi1 by (apply Nat.mod_upper_bound; lia).
    destruct (lookup_lt_is_Some_2 (endpoints s) i1 Hi1) as [e He].
    unfold getCurrentEndpoint in Hrun.
    cbn [endpoints set_index currentEndpointIndex] in Hrun. rewrite He in Hrun.
    rewrite cooldown_set_index in Hrun.
    assert (∀ j, ((i1 + j) `mod` n = (currentEndpointIndex s + S j) `mod` n)%nat) as Hshift.
    { intros j. subst i1. rewrite Nat.Div0.add_mod_idemp_l. f_equal. lia. }
    assert (cooling s ((currentEndpointIndex s + 1) `mod` n)%nat
            ∨ isEndpointInCooldown (name e) s = false) as [Hcool|Hfree].
    { destruct (isEndpointInCooldown (name e) s) eqn:Hc; [left|by right]. by exists e. }
    + destruct Hcool as (e' & He' & Hcool). fold i1 in He'.
      assert (e' = e) as -> by congruence. rewrite Hcool in Hrun.
      destruct (IH (set_index i1 s) Hn Hrun) as (Hs' & IH').
      cbn [currentEndpointIndex endpoints set_index] in IH'. fold n in IH'.
      split; [by rewrite Hs'|].
      assert (∀ j, cooling (set_index i1 s) j → cooling s j) as Hcs by done.
      destruct IH' as [(Hr & k & Hk & Hidx & Hcur & Hskip)|(Hr & Hidx & Hall)].
      * left. split; [done|]. exists (S k). split; [lia|]. split; [by rewrite Hidx, Hshift|].
        split; [done|]. intros j Hj. destruct j as [|j]; [lia|].
        destruct (decide (j = 0%nat)) as [->|Hj0].
        { exists e. by split. }
        rewrite <- Hshift. apply Hcs, Hskip. lia.
      * right. split; [done|]. split.
        { right. split; [lia|]. destruct Hidx as [[-> ->]|[_ ->]]; [done|].
          by rewrite Hshift. }
        intros j Hj. destruct j as [|j]; [lia|].
        destruct (decide (j = 0%nat)) as [->|Hj0].
        { exists e. by split. }
        rewrite <- Hshift. apply Hcs, Hall. lia.
    + rewrite Hfree in Hrun. injection Hrun as <- <-.
      split; [done|]. left. split; [done|].
      exists 1%nat. split; [lia|]. split; [done|]. split.
      * exists e. by split.
      * intros j Hj. lia.
Qed.

Lemma mod_reaches (n idx i : nat) :
  (idx < n)%nat → (i < n)%nat →
  ∃ j, (1 <= j <= n)%nat ∧ ((idx + j) `mod` n = i)%nat.
Proof.
  intros Hidx Hi. destruct (decide (idx < i)%nat).
  - exists (i - idx)%nat. split; [lia|].
    replace (idx + (i - idx))%nat with i by lia. by apply Nat.mod_small.
  - exists (n + i - idx)%nat. split; [lia|].
    replace (idx + (n + i - idx))%nat with (i + 1 * n)%nat by lia.
    rewrite Nat.Div0.mod_add. by apply Nat.mod_small.
Qed.

(** [switchToNextEndpoint] from an index inside a non-empty list. *)
Lemma switchToNextEndpoint_spec s res s' :
  (currentEndpointIndex s < length (endpoints s))%nat →
  switchToNextEndpoint s = (res, s') →
  let n := length (endpoints s) in
  s' = set_index (currentEndpointIndex s') s ∧
  (currentEndpointIndex s' < n)%nat ∧
  ((res = Some true ∧
    ∃ k, (1 <= k <= n)%nat ∧
         currentEndpointIndex s' = ((currentEndpointIndex s + k) `mod` n)%nat ∧
         (∃ e, getCurrentEndpoint s' = Some e ∧
               isEndpointInCooldown (name e) s' = false) ∧
         ∀ j, (1 <= j < k)%nat → cooling s ((currentEndpointIndex s + j) `mod` n)%nat) ∨
   (res = Some false ∧
    currentEndpointIndex s' = currentEndpointIndex s ∧
    ∀ e, e ∈ endpoints s → isEndpointInCooldown (name e) s = true)).
Proof.
  intros Hidx Hrun n. unfold switchToNextEndpoint in Hrun.
  assert (0 < length (endpoints s))%nat as Hpos by lia.
  destruct (switch_loop_spec _ _ _ _ Hpos Hrun) as (Hs' & Hcases). fold n in Hcases.
  split; [done|].
  destruct Hcases as [(-> & k & Hk & Hi & Hcur & Hskip)|(-> & Hi & Hall)].
  - split; [rewrite Hi; apply Nat.mod_upper_bound; lia|].
    left. split; [done|]. exists k. split; [done|]. split; [done|]. by split.
  - assert (currentEndpointIndex s' = currentEndpointIndex s) as Hsame.
    { destruct Hi as [[_ ->]|[_ ->]]; [done|].
      replace (currentEndpointIndex s + n)%nat with (currentEndpointIndex s + 1 * n)%nat by lia.
      rewrite Nat.Div0.mod_add. by apply Nat.mod_small. }
    split; [by rewrite Hsame|]. right. split; [done|]. split; [done|].
    intros e [i He]%list_elem_of_lookup_1.
    destruct (mod_reaches n (currentEndpointIndex s) i Hidx) as (j & Hj & Hji).
    { by eapply lookup_lt_Some. }
    destruct (Hall j Hj) as (e' & He' & Hcool). fold n in He'. rewrite Hji in He'.
    by assert (e' = e) as <- by congruence.
Qed.

Lemma step_index_inv ev s : index_inv s → index_inv (step ev s).
Proof.
  unfold index_inv. intros Hidx.
  assert (∀ s0, (currentEndpointIndex s0 < length (endpoints s0))%nat →
            (currentEndpointIndex (switchToNextEndpoint s0).2
             < length (endpoints (switchToNextEndpoint s0).2))%nat) as Hswitch.
  { intros s0 H0. destruct (switchToNextEndpoint s0) as [res s'] eqn:Hrun.
    destruct (switchToNextEndpoint_spec _ _ _ H0 Hrun) as (Hs' & Hlt & _).
    simpl. by rewrite Hs'. }
  destruct ev as [dt|nm|nm|]; simpl; [done| |done|by apply Hswitch].
  unfold handleEndpointFailure. case_decide; [|done]. by apply Hswitch.
Qed.

Lemma run_index_inv evs helius now : index_inv (run evs (constructor helius now)).
Proof.
  induction evs as [|ev evs IH] using rev_ind.
  - unfold index_inv. destruct helius; simpl; lia.
  - rewrite rpc_run_snoc. by apply step_index_inv.
Qed.

(** C5 as stated fails on the code.  After [recovered_events] the current
    endpoint is the one of rank 2 although the primary (rank 1) is out of
    cooldown again, and so is the endpoint of rank 3: the current endpoint
    is not the highest-priority available one, whichever way ranks are
    read.  After [all_cooling_events] every endpoint is in cooldown and the
    current endpoint is the one that failed last, not the one that failed
    longest ago. *)
Lemma current_not_by_priority :
  (getCurrentEndpoint (run recovered_events (constructor true 0)) = Some drpc_free ∧
   available (run recovered_events (constructor true 0)) helius_primary ∧
   available (run recovered_events (constructor true 0)) solana_backup ∧
   ¬ highest_priority_available (run recovered_events (constructor true 0)) drpc_free) ∧
  ((∀ e, e ∈ endpoints (run all_cooling_events (constructor false 0)) →
         isEndpointInCooldown (name e) (run all_cooling_events (constructor false 0)) = true) ∧
   getCurrentEndpoint (run all_cooling_events (constructor false 0)) = Some solana_backup ∧
   ¬ least_recently_failed (run all_cooling_events (constructor false 0)) solana_backup).
Proof.
  assert (endpoints (run recovered_events (constructor true 0))
          = [helius_primary; drpc_free; solana_backup]) as He1 by by vm_compute.
  assert (endpoints (run all_cooling_events (constructor false 0))
          = [drpc_free; solana_backup]) as He2 by by vm_compute.
  assert (available (run recovered_events (constructor true 0)) helius_primary) as Hav.
  { split; [rewrite He1; apply list_elem_of_here|by vm_compute]. }
  split; [split; [by vm_compute|]; split; [done|]; split|].
  - split; [|by vm_compute].
    rewrite He1. apply list_elem_of_further, list_elem_of_further, list_elem_of_here.
  - intros [_ Hmin]. specialize (Hmin helius_primary Hav). simpl in Hmin. lia.
  - split; [|split; [by vm_compute|]].
    + intros e. rewrite He2. intros He.
      apply elem_of_cons in He as [->|He]; [by vm_compute|].
      apply list_elem_of_singleton in He as ->. by vm_compute.
    + intros [_ Hmin]. specialize (Hmin drpc_free).
      rewrite He2 in Hmin. specialize (Hmin (list_elem_of_here _ _)).
      vm_compute in Hmin. by apply Hmin.
Qed.

(** C5, amended.  In every state the registry can reach, [current()]
    returns the endpoint at the current index, which exists.  The index
    starts at the first endpoint of the list, which has the best rank; an
    event moves it only by running [switchToNextEndpoint].  When
    [switchToNextEndpoint] returns [true], the index has advanced round the
    list to the first endpoint after the old one that is not in cooldown;
    when it returns [false], every endpoint is in cooldown and the index is
    back where it was, so [current()] still returns an endpoint; it never
    throws. *)
Theorem current_follows_index (helius : bool) (now : Z) (evs : list event) :
  (∃ e, getCurrentEndpoint (run evs (constructor helius now)) = Some e ∧
        e ∈ endpoints (run evs (constructor helius now))) ∧
  (∃ e0, getCurrentEndpoint (constructor helius now) = Some e0 ∧
         head (endpoints (constructor helius now)) = Some e0 ∧
         ∀ e, e ∈ endpoints (constructor helius now) → priority e0 <= priority e) ∧
  (∀ ev, currentEndpointIndex (step ev (run evs (constructor helius now)))
           ≠ currentEndpointIndex (run evs (constructor helius now)) →
         ∃ s, step ev (run evs (constructor helius now)) = (switchToNextEndpoint s).2 ∧
              currentEndpointIndex s
                = currentEndpointIndex (run evs (constructor helius now))) ∧
  (∀ res s', switchToNextEndpoint (run evs (constructor helius now)) = (res, s') →
     (res = Some true ∧
      ∃ k e, (1 <= k <= length (endpoints s'))%nat ∧
        currentEndpointIndex s' =
          ((currentEndpointIndex (run evs (constructor helius now)) + k)
             `mod` length (endpoints s'))%nat ∧
        getCurrentEndpoint s' = Some e ∧
        isEndpointInCooldown (name e) s' = false ∧
        ∀ j, (1 <= j < k)%nat →
             cooling s' ((currentEndpointIndex (run evs (constructor helius now)) + j)
                           `mod` length (endpoints s'))%nat) ∨
     (res = Some false ∧
      getCurrentEndpoint s' = getCurrentEndpoint (run evs (constructor helius now)) ∧
      is_Some (getCurrentEndpoint s') ∧
      ∀ e, e ∈ endpoints s' → isEndpointInCooldown (name e) s' = true)).
Proof.
  pose proof (run_index_inv evs helius now) as Hidx. unfold index_inv in Hidx.
  set (s := run evs (constructor helius now)) in *.
  split; [|split; [|split]].
  - destruct (lookup_lt_is_Some_2 _ _ Hidx) as [e He]. exists e. split; [done|].
    by eapply list_elem_of_lookup_2.
  - destruct helius; eexists; (split; [done|]); (split; [done|]); intros e He;
      simpl in He; unfold loadEndpoints in He; simpl in He;
      repeat (apply elem_of_cons in He as [->|He]; [simpl; lia|]);
      by apply elem_of_nil in He.
  - intros ev Hmove. destruct ev as [dt|nm|nm|]; simpl in *; [done| |done|by exists s].
    unfold handleEndpointFailure in *. case_decide; [|done]. by eexists.
  - intros res s' Hrun.
    destruct (switchToNextEndpoint_spec _ _ _ Hidx Hrun) as (Hs' & Hlt & Hcases).
    assert (endpoints s' = endpoints s) as Hends by by rewrite Hs'.
    assert (∀ nm, isEndpointInCooldown nm s' = isEndpointInCooldown nm s) as Hcool
      by (intros nm; by rewrite Hs').
    assert (∀ i, cooling s i → cooling s' i) as Hcs.
    { intros i (e & He & Hc). exists e. by rewrite Hends, Hcool. }
    rewrite Hends.
    destruct Hcases as [(-> & k & Hk & Hi & (e & He & Hfree) & Hskip)|(-> & Hi & Hall)].
    + left. split; [done|]. exists k, e. repeat split; try done; try lia.
      intros j Hj. by apply Hcs, Hskip.
    + right. split; [done|].
      assert (getCurrentEndpoint s' = getCurrentEndpoint s) as Hcur.
      { unfold getCurrentEndpoint. by rewrite Hends, Hi. }
      split; [done|]. split.
      * rewrite Hcur. by apply lookup_lt_is_Some_2.
      * intros e He. rewrite Hcool. by apply Hall.
Qed.

End RPCManagerFacts.

(** * Further properties of the code *)

(** ** Lists *)

Section more_filter_facts.
Context {A : Type}.

Lemma filter_ext_Forall (P Q : A → Prop)
    `{!∀ x, Decision (P x)} `{!∀ x, Decision (Q x)} (l : list A) :
  Forall (λ x, P x ↔ Q x) l → filter P l = filter Q l.
Proof.
  induction 1 as [|x l Hx _ IH]; [done|].
  rewrite !filter_cons, IH.
  destruct (decide (P x)), (decide (Q x)); tauto.
Qed.

Lemma elem_of_delete_other (x y : A) (i : nat) (l : list A) :
  x ∈ l → l !! i = Some y → x ≠ y → x ∈ delete i l.
Proof.
  intros Hin Hi Hne. pose proof (delete_Permutation _ _ _ Hi) as Hp.
  rewrite Hp in Hin. by apply elem_of_cons in Hin as [->|].
Qed.

End more_filter_facts.

Module RequestQueueMore.
Import RequestQueue RequestQueueFacts.

(** *** Back-off *)

(** X2.  The back-off of [calculateRetryDelay], for a non-negative base delay
    and an attempt number of at least one: the delay lies between 0 and
    30000 ms, it never shrinks from one attempt to a later one, a
    rate-limit error never waits less than another error, and below the
    cap it is the base delay doubled per earlier attempt, times three for a
    rate-limit error. *)
Theorem retry_delay_bounds (s : state) (attempts attempts' : Z) (isRateLimit : bool) :
  0 <= retryDelay s → 1 <= attempts → attempts <= attempts' →
  0 <= calculateRetryDelay s attempts isRateLimit <= 30000 ∧
  calculateRetryDelay s attempts isRateLimit
    <= calculateRetryDelay s attempts' isRateLimit ∧
  calculateRetryDelay s attempts false <= calculateRetryDelay s attempts true ∧
  (retryDelay s * 2 ^ (attempts - 1) * 3 <= 30000 →
   calculateRetryDelay s attempts isRateLimit
     = retryDelay s * 2 ^ (attempts - 1) * (if isRateLimit then 3 else 1)).
Proof.
  intros Hbase Hone Hle. unfold calculateRetryDelay.
  assert (0 < 2 ^ (attempts - 1)) as Hpow by (apply Z.pow_pos_nonneg; lia).
  assert (2 ^ (attempts - 1) <= 2 ^ (attempts' - 1)) as Hmono
    by (apply Z.pow_le_mono_r; lia).
  assert (0 <= retryDelay s * 2 ^ (attempts - 1)) as Hexp by nia.
  assert (retryDelay s * 2 ^ (attempts - 1) <= retryDelay s * 2 ^ (attempts' - 1))
    as Hexp' by nia.
  repeat split; destruct isRateLimit; try lia.
Qed.

Lemma retry_delay_bounds_witness :
  calculateRetryDelay (constructor (Options None None None None) 0) 2 true = 6000 ∧
  calculateRetryDelay (constructor (Options None None None None) 0) 2 true
    <= calculateRetryDelay (constructor (Options None None None None) 0) 5 true.
Proof.
  split; [reflexivity|].
  apply (retry_delay_bounds (constructor (Options None None None None) 0) 2 5 true);
    simpl; lia.
Defined.

(** *** Stamps and the clock *)

Lemma step_stamps_inv now0 ev s : stamps_inv now0 s → stamps_inv now0 (step ev s).
Proof.
  intros (Hc & Ht & Hs).
  assert (∀ c l, clock s <= c →
            Forall (λ t, now0 <= t ∧ t <= clock s) l →
            Forall (λ t, now0 <= t ∧ t <= c) l) as Hup.
  { intros c l Hle Hl. eapply Forall_impl; [exact Hl|]. intros t ?. simpl in *. lia. }
  assert (∀ c l, clock s <= c →
            Forall (λ t, t <= clock s) l → Forall (λ t, t <= c) l) as Hup'.
  { intros c l Hle Hl. eapply Forall_impl; [exact Hl|]. intros t ?. simpl in *. lia. }
  assert (∀ s', clock s <= clock s' → requestTimes s' = requestTimes s →
            starts s' = starts s → stamps_inv now0 s') as Hframe.
  { intros s' Hle Hrt Hst. unfold stamps_inv. rewrite Hrt, Hst.
    split; [lia|]. split; [by apply Hup|by apply Hup']. }
  destruct ev; unfold_methods; repeat case_match; simpl in *;
    try (by apply Hframe; simpl; try done; lia).
  - (* a start is recorded *)
    unfold stamps_inv. simpl. split; [lia|]. split.
    + apply Forall_app. split; [apply Hup; [lia|done]|].
      apply Forall_singleton. lia.
    + apply Forall_app. split; [apply Hup'; [lia|done]|].
      apply Forall_singleton. lia.
  - (* cleanup *)
    unfold stamps_inv. simpl. split; [done|]. split; [|done].
    apply Forall_forall. intros t [_ Hin]%list_elem_of_filter.
    rewrite Forall_forall in Ht. by apply Ht.
Qed.

Lemma run_stamps_inv o now evs : stamps_inv now (run evs (constructor o now)).
Proof.
  induction evs as [|ev evs IH] using rev_ind.
  - unfold stamps_inv. simpl. split; [lia|]. split; constructor.
  - rewrite queue_run_snoc. by apply step_stamps_inv.
Qed.

(** X3.  When the rate window is full, [waitForRateLimit] sleeps, for more than
    50 ms and at most 1050 ms, and when the sleep is over the oldest stamp
    of the window has left it: fewer stamps count against the rate than
    before.  (The clock of the executor starts after the epoch; a stamp of
    0 would be falsy.) *)
Theorem rate_wait_frees_a_slot (o : options) (now : Z) (evs : list event) :
  0 < now →
  0 < maxRequestsPerSecond (constructor o now) →
  canMakeRequest (run evs (constructor o now)) = false →
  ∃ waitTime,
    waitForRateLimit (run evs (constructor o now)) = Some waitTime ∧
    50 < waitTime ∧ waitTime <= 1050 ∧
    (length (recentRequests (clock (run evs (constructor o now)) + waitTime)
               (requestTimes (run evs (constructor o now))))
     < length (recentRequests (clock (run evs (constructor o now)))
                 (requestTimes (run evs (constructor o now)))))%nat.
Proof.
  intros Hnow HR Hfull.
  destruct (run_config evs (constructor o now)) as (HR' & _).
  destruct (run_stamps_inv o now evs) as (_ & Hstamps & _).
  set (s := run evs (constructor o now)) in *.
  unfold canMakeRequest in Hfull. apply bool_decide_eq_false in Hfull.
  unfold waitForRateLimit.
  destruct (recentRequests (clock s) (requestTimes s)) as [|t rest] eqn:Hrecent.
  { simpl in Hfull. lia. }
  assert (t ∈ recentRequests (clock s) (requestTimes s)) as Hin
    by (rewrite Hrecent; apply list_elem_of_here).
  apply list_elem_of_filter in Hin as [Hnew Hin].
  rewrite Forall_forall in Hstamps. specialize (Hstamps t Hin). simpl in Hstamps.
  simpl. rewrite decide_False by lia. rewrite decide_True by lia.
  eexists. split; [done|]. split; [lia|]. split; [lia|].
  unfold recentRequests in *.
  rewrite <- (filter_filter_weaker
                (λ time, clock s + (t + 1000 - clock s + 50) - 1000 < time)
                (λ time, clock s - 1000 < time)) by (intros x ?; lia).
  rewrite Hrecent, filter_cons, decide_False by lia.
  pose proof (length_filter
                (λ time, clock s + (t + 1000 - clock s + 50) - 1000 < time) rest).
  simpl. lia.
Qed.

Lemma rate_wait_frees_a_slot_witness :
  ∃ waitTime,
    waitForRateLimit
      (run [Enqueue 0; Resume 0; Resume 0; Tick 300; Enqueue 0; Resume 0]
         (constructor requeue_options 1000000)) = Some waitTime ∧
    50 < waitTime.
Proof.
  destruct (rate_wait_frees_a_slot requeue_options 1000000
              [Enqueue 0; Resume 0; Resume 0; Tick 300; Enqueue 0; Resume 0])
    as (waitTime & Hwait & Hlow & _); [lia|simpl; lia|by vm_compute|].
  by exists waitTime.
Defined.

(** *** What [getStatus] reports and how long [requestTimes] gets *)

Lemma window_split (a b c : Z) (l : list Z) :
  Z.of_nat (length (filter (λ t, a < t ∧ t <= c) l))
  <= Z.of_nat (length (filter (λ t, a < t ∧ t <= b) l))
     + Z.of_nat (length (filter (λ t, b < t ∧ t <= c) l)).
Proof.
  induction l as [|x l IH]; [done|].
  rewrite !filter_cons.
  destruct (decide (a < x ∧ x <= c)); destruct (decide (a < x ∧ x <= b));
    destruct (decide (b < x ∧ x <= c)); simpl; lia.
Qed.

Lemma recent_in_window s now0 :
  stamps_inv now0 s → times_inv s →
  length (filter (λ time, clock s - 1000 < time) (requestTimes s))
  = length (starts_in_window (clock s) s).
Proof.
  intros (_ & _ & Hle) Htimes.
  pose proof (recent_of_log s Htimes) as Hlog. unfold recentRequests in Hlog.
  rewrite Hlog. unfold starts_in_window. f_equal.
  apply filter_ext_Forall. eapply Forall_impl; [exact Hle|]. intros t ?. simpl in *. lia.
Qed.

(** X4.  What [getStatus] reports stays within the configuration: for an
    executor built with non-negative limits, [recentRequests] is never above
    [maxRequestsPerSecond] and [activeRequests] is between 0 and
    [maxConcurrent], after any sequence of events. *)
Theorem status_within_limits (o : options) (now : Z) (evs : list event) :
  0 <= maxRequestsPerSecond (constructor o now) →
  0 <= maxConcurrent (constructor o now) →
  status_recentRequests (getStatus (run evs (constructor o now)))
    <= maxRequestsPerSecond (constructor o now) ∧
  0 <= status_activeRequests (getStatus (run evs (constructor o now)))
    <= maxConcurrent (constructor o now) ∧
  queueLength (getStatus (run evs (constructor o now)))
    = Z.of_nat (length (queue (run evs (constructor o now)))).
Proof.
  intros HR HM.
  destruct (run_config evs (constructor o now)) as (HR' & HM' & _).
  destruct (run_rate_inv evs (constructor o now)) as [Ht Hw].
  { apply constructor_times_inv. }
  { intros w. simpl. simpl in HR. lia. }
  destruct (run_active_inv evs (constructor o now)) as [Hcount Hcap].
  { split; simpl in *; lia. }
  pose proof (run_stamps_inv o now evs) as Hstamps.
  set (s := run evs (constructor o now)) in *.
  unfold getStatus. cbn [status_recentRequests status_activeRequests queueLength].
  rewrite (recent_in_window s now Hstamps Ht).
  split; [rewrite <- HR'; apply Hw|]. split; [lia|done].
Qed.

Lemma status_within_limits_witness :
  status_recentRequests (getStatus (run demo_events (constructor demo_options 1000000)))
    <= 2.
Proof.
  apply (status_within_limits demo_options 1000000 demo_events); simpl; lia.
Defined.

(** X5.  [cleanupOldTimes] never changes what [canMakeRequest] answers, and
    after it [requestTimes] holds at most five seconds' worth of stamps:
    at most [5 * maxRequestsPerSecond] of them. *)
Theorem cleanup_bounds_request_times (o : options) (now : Z) (evs : list event) :
  0 <= maxRequestsPerSecond (constructor o now) →
  canMakeRequest (step Cleanup (run evs (constructor o now)))
    = canMakeRequest (run evs (constructor o now)) ∧
  Z.of_nat (length (requestTimes (step Cleanup (run evs (constructor o now)))))
    <= 5 * maxRequestsPerSecond (constructor o now).
Proof.
  intros HR.
  destruct (run_config evs (constructor o now)) as (HR' & _).
  destruct (run_rate_inv evs (constructor o now)) as [Ht Hw].
  { apply constructor_times_inv. }
  { intros w. simpl. simpl in HR. lia. }
  destruct (run_stamps_inv o now evs) as (_ & _ & Hle).
  set (s := run evs (constructor o now)) in *.
  split.
  - unfold step, cleanupOldTimes, canMakeRequest, recentRequests. simpl.
    by rewrite filter_filter_weaker by (intros t ?; lia).
  - unfold step, cleanupOldTimes. simpl.
    destruct Ht as (b & Hb & ->).
    rewrite filter_filter_weaker by (intros t ?; lia).
    assert (filter (λ t, clock s - 5000 < t) (starts s)
            = filter (λ t, clock s - 5000 < t ∧ t <= clock s) (starts s)) as ->.
    { apply filter_ext_Forall. eapply Forall_impl; [exact Hle|].
      intros t ?. simpl in *. lia. }
    pose proof (window_split (clock s - 5000) (clock s - 4000) (clock s) (starts s)) as H1.
    pose proof (window_split (clock s - 4000) (clock s - 3000) (clock s) (starts s)) as H2.
    pose proof (window_split (clock s - 3000) (clock s - 2000) (clock s) (starts s)) as H3.
    pose proof (window_split (clock s - 2000) (clock s - 1000) (clock s) (starts s)) as H4.
    pose proof (Hw (clock s - 4000)) as W1. pose proof (Hw (clock s - 3000)) as W2.
    pose proof (Hw (clock s - 2000)) as W3. pose proof (Hw (clock s - 1000)) as W4.
    pose proof (Hw (clock s)) as W5.
    unfold starts_in_window in *.
    replace (clock s - 4000 - 1000) with (clock s - 5000) in W1 by lia.
    replace (clock s - 3000 - 1000) with (clock s - 4000) in W2 by lia.
    replace (clock s - 2000 - 1000) with (clock s - 3000) in W3 by lia.
    replace (clock s - 1000 - 1000) with (clock s - 2000) in W4 by lia.
    simpl in HR'. lia.
Qed.

Lemma cleanup_bounds_request_times_witness :
  Z.of_nat (length (requestTimes
                      (step Cleanup (run demo_events (constructor demo_options 1000000)))))
    <= 5 * 2.
Proof.
  apply (cleanup_bounds_request_times demo_options 1000000 demo_events). simpl. lia.
Defined.

(** *** Accounting *)

Lemma step_stats ev s :
  totalRequests (stats (step ev s)) - Z.of_nat (nextId (step ev s))
    = totalRequests (stats s) - Z.of_nat (nextId s) ∧
  successfulRequests (stats (step ev s))
    - Z.of_nat (length (filter (λ x, is_resolved x = true) (settled (step ev s))))
    = successfulRequests (stats s)
      - Z.of_nat (length (filter (λ x, is_resolved x = true) (settled s))) ∧
  failedRequests (stats (step ev s))
    - Z.of_nat (length (filter (λ x, is_resolved x = false) (settled (step ev s))))
    = failedRequests (stats s)
      - Z.of_nat (length (filter (λ x, is_resolved x = false) (settled s))).
Proof.
  destruct ev; unfold_methods; repeat case_match; simpl;
    rewrite ?filter_app, ?length_app; simpl; lia.
Qed.

Lemma step_population ev s :
  nextId s = (length (settled s) + length (pool s))%nat →
  nextId (step ev s) = (length (settled (step ev s)) + length (pool (step ev s)))%nat.
Proof.
  intros Hn.
  destruct (step_pool ev s)
    as [(Hp & Hs & -> & _)
       |[(prio & _ & Hp & Hs & ->)
        |[(id & v & r & rest & _ & _ & Hp & Hp' & Hs & ->)
         |(id & e & r & rest & _ & _ & Hp & -> & _ & Hcases)]]].
  - rewrite Hs. apply Permutation_length in Hp. lia.
  - rewrite Hs. apply Permutation_length in Hp. simpl in Hp. lia.
  - rewrite Hs, length_app. apply Permutation_length in Hp, Hp'. simpl in *. lia.
  - apply Permutation_length in Hp.
    destruct Hcases as [(_ & Hp' & Hs)|(_ & Hp' & Hs)];
      rewrite Hs, ?length_app; apply Permutation_length in Hp'; simpl in *; lia.
Qed.

(** X6.  The counters of [this.stats] tell what happened to the callers.  After
    any sequence of events [totalRequests] is the number of [enqueue]
    calls, [successfulRequests] the number of callers resolved,
    [failedRequests] the number of callers rejected, and every caller is
    either settled or has exactly one request in the executor (queued, in
    flight or waiting for its retry): none is lost. *)
Theorem stats_account_for_callers (o : options) (now : Z) (evs : list event) :
  accounting (run evs (constructor o now)).
Proof.
  induction evs as [|ev evs IH] using rev_ind; [by repeat split|].
  rewrite queue_run_snoc. destruct IH as (Ht & Hs & Hf & Hn).
  destruct (step_stats ev (run evs (constructor o now))) as (Ht' & Hs' & Hf').
  repeat split; [lia|lia|lia|by apply step_population].
Qed.

Lemma run_settled_NoDup o now evs : NoDup (settled (run evs (constructor o now))).*1.
Proof.
  induction evs as [|ev evs IH] using rev_ind; [apply NoDup_nil_2|].
  rewrite queue_run_snoc.
  destruct (retry_inv_run o now evs) as (_ & Hpool & _).
  set (s := run evs (constructor o now)) in *.
  assert (∀ id r rest x, rid r = id → pool s ≡ₚ r :: rest →
            NoDup (settled s ++ [(id, x)]).*1) as Hadd.
  { intros id r rest x Hr Hp. rewrite fmap_app. simpl.
    apply NoDup_app. split; [done|]. split; [|apply NoDup_singleton].
    intros id' Hin ->%list_elem_of_singleton.
    assert (r ∈ pool s) as Hr_in by (rewrite Hp; apply list_elem_of_here).
    destruct (Hpool r Hr_in) as (_ & _ & Hns). apply Hns. by rewrite Hr. }
  destruct (step_pool ev s)
    as [(_ & -> & _)
       |[(prio & _ & _ & -> & _)
        |[(id & v & r & rest & _ & Hr & Hp & _ & -> & _)
         |(id & e & r & rest & _ & Hr & Hp & _ & _ & [(_ & _ & ->)|(_ & _ & ->)])]]];
    try done; by eapply Hadd.
Qed.

(** X7.  No caller is settled twice: along any run the settlements name
    pairwise distinct callers, and a caller that has been settled has no
    request left in the executor. *)
Theorem settled_once (o : options) (now : Z) (evs : list event) :
  NoDup (settled (run evs (constructor o now))).*1 ∧
  ∀ r, r ∈ pool (run evs (constructor o now)) →
       rid r ∉ (settled (run evs (constructor o now))).*1.
Proof.
  split; [apply run_settled_NoDup|].
  intros r Hr. destruct (retry_inv_run o now evs) as (_ & Hpool & _). by apply Hpool.
Qed.

(** *** Nothing is left stranded *)

Lemma step_alive ev s : alive s → alive (step ev s).
Proof.
  intros [Hwake Hqueue]. unfold alive.
  destruct ev; unfold_methods; repeat case_match; simpl in *; subst;
    (split; intros Hx);
    try done; try (by left); try congruence.
  all: try (destruct (Hwake Hx) as [due' Hdue]; exists due'; try done;
            first [ by (apply elem_of_app; left)
                  | by eapply elem_of_delete_other ]).
  all: try match goal with
           | H : processing _ && negb (suspended _) = true |- _ =>
               by (left; apply andb_true_iff in H as [? _])
           end.
  all: try (by (eexists; apply elem_of_app; right; apply list_elem_of_here)).
  all: try (by (right; eexists; apply elem_of_app; right; apply list_elem_of_here)).
  all: try (assert (queue _ ≠ []) as Hne by (eassumption || congruence);
            destruct (Hqueue Hne) as [Hp|[due' Hdue]];
            [left; congruence|right; exists due'; try done;
             first [ by (apply elem_of_app; left)
                   | by eapply elem_of_delete_other ]]).
Qed.


(** X8.  Queued work is never left without something that will pick it up.
    After any sequence of events: a [processQueue] that sleeps in
    [waitForRateLimit] has its wake-up timer pending, and when the queue is
    not empty either [processQueue] is running or a timer that restarts it
    is pending. *)
Theorem queue_never_stranded (o : options) (now : Z) (evs : list event) :
  alive (run evs (constructor o now)).
Proof.
  induction evs as [|ev evs IH] using rev_ind; [by split|].
  rewrite queue_run_snoc. by apply step_alive.
Qed.

(** *** [clearQueue] *)

Lemma clearQueue_fold (q : list request) (s : state) :
  let s' := foldl (λ s request, settle (rid request) (Rejected queue_cleared) s) s q in
  settled s' = settled s ++ ((λ r, (rid r, Rejected queue_cleared)) <$> q) ∧
  inflight s' = inflight s ∧ timers s' = timers s ∧ stats s' = stats s ∧
  nextId s' = nextId s.
Proof.
  revert s. induction q as [|r q IH]; intros s; simpl.
  - by rewrite app_nil_r.
  - destruct (IH (settle (rid r) (Rejected queue_cleared) s)) as (-> & -> & -> & -> & ->).
    simpl. by rewrite <- app_assoc.
Qed.

(** X9.  [clearQueue] after any run: every caller that was queued is rejected
    with 'Queue cleared', and still no caller is settled twice.  The
    requests in flight and those waiting in a retry timer stay in the
    executor, unsettled, and the statistics are not touched, so the rejected
    callers are not counted as failed. *)
Theorem clearQueue_rejects_queued (o : options) (now : Z) (evs : list event) :
  queue (clearQueue (run evs (constructor o now))) = [] ∧
  settled (clearQueue (run evs (constructor o now)))
    = settled (run evs (constructor o now))
      ++ ((λ r, (rid r, Rejected queue_cleared)) <$> queue (run evs (constructor o now))) ∧
  NoDup (settled (clearQueue (run evs (constructor o now)))).*1 ∧
  pool (clearQueue (run evs (constructor o now)))
    = (inflight (run evs (constructor o now))).*1
      ++ omap timer_request (timers (run evs (constructor o now))) ∧
  (∀ r, r ∈ pool (clearQueue (run evs (constructor o now))) →
        rid r ∉ (settled (clearQueue (run evs (constructor o now)))).*1) ∧
  stats (clearQueue (run evs (constructor o now))) = stats (run evs (constructor o now)).
Proof.
  destruct (retry_inv_run o now evs) as (Hnodup & Hpool & _).
  pose proof (run_settled_NoDup o now evs) as Hsettled.
  set (s := run evs (constructor o now)) in *.
  destruct (clearQueue_fold (queue s) s) as (Hs & Hi & Ht & Hst & _).
  unfold clearQueue, pool. cbn [queue settled inflight timers stats set_queue].
  rewrite Hs, Hi, Ht, Hst. simpl.
  assert (((λ r, (rid r, Rejected queue_cleared)) <$> queue s).*1 = rid <$> queue s) as Hids.
  { rewrite <- list_fmap_compose. done. }
  unfold pool in Hnodup. rewrite fmap_app in Hnodup.
  apply NoDup_app in Hnodup as (Hq & Hdisj & Hrest).
  repeat split; try done.
  - rewrite fmap_app, Hids. apply NoDup_app. split; [done|]. split; [|done].
    intros id Hid (r & -> & Hr)%list_elem_of_fmap.
    assert (r ∈ pool s) as Hin by (unfold pool; apply elem_of_app; by left).
    by destruct (Hpool r Hin) as (_ & _ & Hns).
  - intros r Hr. rewrite fmap_app, Hids.
    intros [Hin|Hin]%elem_of_app.
    + assert (r ∈ pool s) as Hin' by (unfold pool; apply elem_of_app; by right).
      by destruct (Hpool r Hin') as (_ & _ & Hns).
    + apply (Hdisj (rid r)); [done|]. apply list_elem_of_fmap. by exists r.
Qed.

End RequestQueueMore.

Module BatchManagerMore.
Import BatchManager BatchManagerFacts.

(** *** [chunkArray] *)

Lemma chunk_loop_spec {A : Type} (chunkSize : nat) (array : list A) (fuel i : nat) :
  (1 <= chunkSize)%nat → (length array - i <= fuel)%nat →
  ∃ chunks,
    chunk_loop fuel i chunkSize array = Some chunks ∧
    concat chunks = drop i array ∧
    ∀ j c, chunks !! j = Some c →
      c = take chunkSize (drop (i + j * chunkSize) array) ∧
      (1 <= length c <= chunkSize)%nat.
Proof.
  intros Hsize. revert i. induction fuel as [|fuel IH]; intros i Hfuel.
  - simpl. rewrite decide_False by lia. exists []. split; [done|].
    split; [by rewrite drop_ge by lia|]. intros j c Hj. by rewrite lookup_nil in Hj.
  - simpl. destruct (decide (i < length array)%nat) as [Hlt|Hge]; last first.
    { exists []. split; [done|].
      split; [by rewrite drop_ge by lia|]. intros j c Hj. by rewrite lookup_nil in Hj. }
    destruct (IH (i + chunkSize)%nat) as (chunks & -> & Hconcat & Hchunks); [lia|].
    eexists. split; [done|]. split.
    + simpl. rewrite Hconcat, <- drop_drop. apply take_drop.
    + intros [|j] c Hj; simpl in Hj.
      * injection Hj as <-. rewrite Nat.add_0_r. split; [done|].
        rewrite length_take, length_drop. lia.
      * destruct (Hchunks j c Hj) as [-> Hlen]. split; [|done].
        do 2 f_equal. lia.
Qed.

(** X10.  [chunkArray] with a chunk size of at least one returns, and what it
    returns cuts the array into consecutive pieces: the chunks put end to
    end are the array, chunk [j] is [array.slice(j * chunkSize,
    (j + 1) * chunkSize)], and every chunk has between one and [chunkSize]
    elements. *)
Theorem chunkArray_partitions {A : Type} (array : list A) (chunkSize : nat) :
  (1 <= chunkSize)%nat →
  ∃ chunks,
    chunkArray array chunkSize = Some chunks ∧
    concat chunks = array ∧
    ∀ j c, chunks !! j = Some c →
      c = take chunkSize (drop (j * chunkSize) array) ∧
      (1 <= length c <= chunkSize)%nat.
Proof.
  intros Hsize.
  destruct (chunk_loop_spec chunkSize array (length array) 0 Hsize)
    as (chunks & Hloop & Hconcat & Hchunks); [lia|].
  exists chunks. split; [done|]. split; [done|]. exact Hchunks.
Qed.

Lemma chunkArray_partitions_witness :
  ∃ chunks,
    chunkArray ["a"; "b"; "c"; "d"; "e"; "f"; "g"] 3 = Some chunks ∧
    concat chunks = ["a"; "b"; "c"; "d"; "e"; "f"; "g"].
Proof.
  destruct (chunkArray_partitions ["a"; "b"; "c"; "d"; "e"; "f"; "g"] 3)
    as (chunks & Hchunks & Hconcat & _); [lia|].
  by exists chunks.
Defined.

(** X11.  With a chunk size of zero the loop of [chunkArray] never ends on an
    array that has an element: whatever number of turns it is given, it is
    still running. *)
Theorem chunkArray_zero_never_returns {A : Type} (array : list A) (fuel : nat) :
  array ≠ [] → chunk_loop fuel 0 0 array = None.
Proof.
  intros Hne. assert (0 < length array)%nat as Hlen by (destruct array; simpl; [done|lia]).
  induction fuel as [|fuel IH]; simpl; rewrite decide_True by done; [done|].
  by rewrite IH.
Qed.

Lemma chunkArray_zero_never_returns_witness :
  chunkArray ["a"; "b"] 0 = None.
Proof.
  apply (chunkArray_zero_never_returns ["a"; "b"] 2). done.
Defined.

(** *** What [processBatch] and [addToBatch] do to a group *)

Lemma settled_frame i o s :
  batches (processBatch_settled i o s) = batches s ∧
  invoked (processBatch_settled i o s) = invoked s ∧
  timers (processBatch_settled i o s) = timers s ∧
  nextTimer (processBatch_settled i o s) = nextTimer s ∧
  clock (processBatch_settled i o s) = clock s.
Proof. unfold processBatch_settled, results_unreadable. by repeat case_match. Qed.

Lemma JsMap_set_keys {A B : Type} (k : string) (v : A) (w : B) m m' :
  m.*1 = m'.*1 → (JsMap.set k v m).*1 = (JsMap.set k w m').*1.
Proof.
  revert m'. induction m as [|[k1 v1] m IH]; intros [|[k2 v2] m']; simpl; try done.
  intros [= -> Hrest]. case_decide; simpl; [by rewrite Hrest|]. f_equal. by apply IH.
Qed.

(** *** Members of groups and calls *)

Lemma processBatch_members_inv batchType why s :
  members_inv s → members_inv (processBatch batchType why s).
Proof.
  intros [Hgroups Hcalls].
  destruct (processBatch_cases batchType why s)
    as [[-> _]|(b & b' & Hb & Hne & Hbs & _ & _ & _ & _ & _ & _ & Hcases)]; [done|].
  destruct (Hgroups _ _ Hb) as [Hkeys Hnodup].
  split.
  - intros kind b1. rewrite Hbs, lookup_insert. case_decide as Hk; [|by apply Hgroups].
    intros [= <-].
    destruct Hcases as [(_ & _ & -> & -> & _)|(_ & -> & -> & _)]; [done|].
    split; [done|apply NoDup_nil_2].
  - destruct Hcases as [(_ & _ & _ & _ & ->)|(_ & _ & _ & ->)]; [done|].
    intros c [Hc|Hc%list_elem_of_singleton]%elem_of_app; [by apply Hcalls|].
    subst c. simpl. unfold JsMap.keys. split; [done|]. split; [done|].
    intros Hnil. apply fmap_nil_inv in Hnil. done.
Qed.

Lemma step_members_inv ev s : members_inv s → members_inv (step ev s).
Proof.
  intros Hinv. pose proof Hinv as [Hgroups Hcalls].
  destruct ev as [dt|batchType key f o|i|batchType|i o| ]; simpl.
  - done.
  - rewrite addToBatch_split.
    destruct (addToBatch_member_spec batchType key f o s)
      as (Hbs & Hitems & Hproms & _ & _ & Hinv2 & _).
    destruct (addToBatch_member batchType key f o s) as [b s2]. simpl in *.
    assert (members_inv s2) as Hs2.
    { split; [|by rewrite Hinv2].
      intros kind b1. rewrite Hbs, lookup_insert. case_decide as Hk; [|by apply Hgroups].
      intros [= <-]. rewrite Hitems, Hproms.
      assert ((items (entry_for f o s (batches s !! batchType))).*1
              = (promises (entry_for f o s (batches s !! batchType))).*1 ∧
              NoDup (items (entry_for f o s (batches s !! batchType))).*1) as [Hk0 Hn0].
      { destruct (batches s !! batchType) as [b0|] eqn:Hb0; simpl;
          [by apply (Hgroups batchType)|]. split; [done|apply NoDup_nil_2]. }
      split; [by apply JsMap_set_keys|]. by apply JsMapFacts.NoDup_set. }
    case_decide; [by apply processBatch_members_inv|done].
  - unfold fire. repeat case_match; try done. by apply processBatch_members_inv.
  - by apply processBatch_members_inv.
  - destruct (settled_frame i o s) as (Hb & Hi & _).
    split; [intros kind b; rewrite Hb; apply Hgroups|by rewrite Hi].
  - split; [|done]. intros kind b. simpl. by rewrite lookup_empty.
Qed.

(** X12.  A batch function is only ever called with a non-empty list of pairwise
    distinct keys, and the members waiting for that call are stored one per
    key, in the order of the keys; the same holds for the two maps of every
    open group. *)
Theorem batch_function_gets_distinct_keys (o : manager_options) (now : Z)
    (evs : list event) :
  members_inv (run evs (constructor o now)).
Proof.
  induction evs as [|ev evs IH] using rev_ind.
  - split; [intros kind b; simpl; by rewrite lookup_empty|].
    intros c Hc. by apply elem_of_nil in Hc.
  - rewrite batch_run_snoc. by apply step_members_inv.
Qed.

(** *** Size of an open group *)

Lemma processBatch_size_inv batchType why s :
  (∀ kind b, kind ≠ batchType → batches s !! kind = Some b →
     items b = [] ∨ Z.of_nat (length (items b)) < maxSize (options b) ∨
     Z.of_nat (length (items b)) < minSize (options b)) →
  (why = ReasonFull ∨
   ∀ b, batches s !! batchType = Some b →
     items b = [] ∨ Z.of_nat (length (items b)) < maxSize (options b) ∨
     Z.of_nat (length (items b)) < minSize (options b)) →
  (why = ReasonFull → ∃ b, batches s !! batchType = Some b ∧ items b ≠ []) →
  size_inv (processBatch batchType why s).
Proof.
  intros Hothers Hthis Hfull.
  destruct (processBatch_cases batchType why s)
    as [[-> Hnone]|(b & b' & Hb & Hne & Hbs & _ & Hopt & _ & _ & _ & _ & Hcases)].
  - intros kind b Hb. destruct (decide (kind = batchType)) as [->|Hk]; [|by eapply Hothers].
    destruct Hthis as [Hwhy|Hthis]; [|by apply Hthis].
    destruct (Hfull Hwhy) as (b1 & Hb1 & Hne).
    destruct Hnone as [Hnone|(b2 & Hb2 & Hnil)]; congruence.
  - intros kind b1. rewrite Hbs, lookup_insert. case_decide as Hk; [|by apply Hothers].
    intros [= <-]. rewrite Hopt.
    destruct Hcases as [(Hlt & _ & -> & _)|(_ & -> & _)]; [|by left].
    right. by right.
Qed.

Lemma step_size_inv ev s : size_inv s → size_inv (step ev s).
Proof.
  intros Hinv.
  assert (∀ batchType why s', why ≠ ReasonFull → batches s' = batches s →
            size_inv (processBatch batchType why s')) as Hflush.
  { intros batchType why s' Hwhy Hbs. apply processBatch_size_inv.
    - intros kind b _. rewrite Hbs. apply Hinv.
    - right. intros b. rewrite Hbs. apply Hinv.
    - done. }
  destruct ev as [dt|batchType key f o|i|batchType|i o| ]; simpl.
  - done.
  - rewrite addToBatch_split.
    destruct (addToBatch_member_spec batchType key f o s)
      as (Hbs & Hitems & _ & _ & _ & _).
    destruct (addToBatch_member batchType key f o s) as [b s2]. simpl in *.
    assert (items b ≠ []) as Hne by (rewrite Hitems; apply JsMap_set_nonempty).
    case_decide as Hfull.
    + apply processBatch_size_inv.
      * intros kind b1 Hk. rewrite Hbs, lookup_insert_ne by done. apply Hinv.
      * by left.
      * intros _. exists b. by rewrite Hbs, lookup_insert_eq.
    + intros kind b1. rewrite Hbs, lookup_insert. case_decide as Hk; [|by apply Hinv].
      intros [= <-]. right. left. lia.
  - unfold fire. repeat case_match; try done. by apply Hflush.
  - by apply Hflush.
  - destruct (settled_frame i o s) as (Hb & _).
    intros kind b. rewrite Hb. apply Hinv.
  - intros kind b. simpl. by rewrite lookup_empty.
Qed.

(** X13.  Between two calls of its methods, an open group that has members and
    has reached its [minSize] has fewer members than its [maxSize]: a group
    that reaches both is flushed by the [addToBatch] that fills it. *)
Theorem open_group_below_maxSize (o : manager_options) (now : Z) (evs : list event)
    (kind : string) (b : batch) :
  batches (run evs (constructor o now)) !! kind = Some b →
  items b ≠ [] →
  minSize (options b) <= Z.of_nat (length (items b)) →
  Z.of_nat (length (items b)) < maxSize (options b).
Proof.
  assert (size_inv (run evs (constructor o now))) as Hinv.
  { induction evs as [|ev evs IH] using rev_ind.
    - intros k b0. simpl. by rewrite lookup_empty.
    - rewrite batch_run_snoc. by apply step_size_inv. }
  intros Hb Hne Hmin. destruct (Hinv kind b Hb) as [Hnil|[Hlt|Hlt]]; [done|done|lia].
Qed.

Lemma open_group_below_maxSize_witness :
  ∃ b, batches (run [Add "prices" "a" 1 (AddOptions None None None);
                     Add "prices" "b" 1 (AddOptions None None None)]
                  (constructor (ManagerOptions (Some 3) None None) 0))
         !! "prices" = Some b ∧
       Z.of_nat (length (items b)) < maxSize (options b).
Proof.
  eexists. split; [by vm_compute|].
  eapply (open_group_below_maxSize (ManagerOptions (Some 3) None None) 0
            [Add "prices" "a" 1 (AddOptions None None None);
             Add "prices" "b" 1 (AddOptions None None None)] "prices");
    by vm_compute.
Defined.

(** *** Deadlines *)

(** [processBatch] restores the invariant of the deadlines, also right after
    the timer of [batchType] has been taken off the timer list. *)
Lemma processBatch_deadline batchType why s :
  (∀ h due kind, (h, (due, kind)) ∈ timers s →
     ∃ b, batches s !! kind = Some b ∧ timeout b = Some h ∧ items b ≠ [] ∧
          due <= clock s + maxWait (options b)) →
  (∀ kind b h, batches s !! kind = Some b → timeout b = Some h →
     (h < nextTimer s)%nat ∧
     (kind ≠ batchType → ∃ due, (h, (due, kind)) ∈ timers s)) →
  (∀ k1 k2 b1 b2 h, batches s !! k1 = Some b1 → batches s !! k2 = Some b2 →
     timeout b1 = Some h → timeout b2 = Some h → k1 = k2) →
  ((∃ b, batches s !! batchType = Some b ∧ items b ≠ []) ∨
   (∀ b h, batches s !! batchType = Some b → timeout b = Some h →
      ∃ due, (h, (due, batchType)) ∈ timers s)) →
  deadline_inv (processBatch batchType why s).
Proof.
  intros D1 D2 D3 Hthis.
  destruct (processBatch_cases batchType why s)
    as [[-> Hnone]|(b & b' & Hb & Hne & Hbs & _ & Hopt & Hto & Hts & Hnt & Hclock & _)].
  { split; [done|]. split; [|done].
    intros kind b h Hb Hh. destruct (D2 kind b h Hb Hh) as [Hlt Hin]. split; [done|].
    destruct (decide (kind = batchType)) as [->|Hk]; [|by apply Hin].
    destruct Hthis as [(b1 & Hb1 & Hne)|Hthis]; [|by eapply Hthis].
    destruct Hnone as [Hnone|(b2 & Hb2 & Hnil)]; congruence. }
  assert (∀ t, t ∈ timers (processBatch batchType why s) →
               t ∈ timers s ∧ timeout b ≠ Some t.1) as Hsub.
  { intros t. rewrite Hts. destruct (timeout b) as [h0|].
    - intros [Hh Hin]%list_elem_of_filter. split; [done|]. congruence.
    - done. }
  split; [|split].
  - intros h due kind [Hin Hh]%Hsub. simpl in Hh.
    destruct (D1 h due kind Hin) as (bk & Hbk & Hbh & Hbne & Hdue).
    destruct (decide (kind = batchType)) as [->|Hk]; [congruence|].
    exists bk. by rewrite Hbs, lookup_insert_ne, Hclock.
  - intros kind bk h. rewrite Hbs, lookup_insert, Hnt. case_decide as Hk.
    { intros [= <-]. congruence. }
    intros Hbk Hh. destruct (D2 kind bk h Hbk Hh) as [Hlt Hin]. split; [done|].
    destruct Hin as [due Hin]; [done|]. exists due. rewrite Hts.
    destruct (timeout b) as [h0|] eqn:Hh0; [|done].
    apply list_elem_of_filter. split; [|done]. simpl. intros ->.
    apply Hk. symmetry. by apply (D3 kind batchType bk b h0).
  - intros k1 k2 b1 b2 h. rewrite Hbs, !lookup_insert.
    destruct (decide (batchType = k1)) as [<-|H1];
      destruct (decide (batchType = k2)) as [<-|H2]; try done.
    + intros [= <-] _ Hh1. congruence.
    + intros _ [= <-] _ Hh2. congruence.
    + apply D3.
Qed.

Lemma step_deadline_inv ev s : deadline_inv s → deadline_inv (step ev s).
Proof.
  intros (D1 & D2 & D3).
  destruct ev as [dt|batchType key f o|i|batchType|i o| ]; simpl.
  - split; [|done]. intros h due kind Hin. simpl in *.
    destruct (D1 h due kind Hin) as (b & ? & ? & ? & ?). exists b.
    do 3 (split; [done|]). lia.
  - rewrite addToBatch_split.
    destruct (addToBatch_member_spec batchType key f o s)
      as (Hbs & Hitems & _ & _ & Hopt & _ & Hclock & Harm).
    destruct (addToBatch_member batchType key f o s) as [b s2]. simpl in *.
    assert (items b ≠ []) as Hne by (rewrite Hitems; apply JsMap_set_nonempty).
    assert (∀ b0, batches s !! batchType = Some b0 →
              entry_for f o s (batches s !! batchType) = b0) as Hentry
      by (by intros b0 ->).
    assert (batches s !! batchType = None →
            timeout (entry_for f o s (batches s !! batchType)) = None) as Hfresh
      by (by intros ->).
    assert (deadline_inv s2) as (E1 & E2 & E3).
    { destruct Harm as [(_ & Hnone & Hto & Hts & Hnt)|(_ & Hto & Hts & Hnt)].
      - (* the deadline is armed *)
        split; [|split].
        + intros h due kind. rewrite Hts, Hbs, Hclock.
          intros [Hin|Hin%list_elem_of_singleton]%elem_of_app.
          * destruct (D1 h due kind Hin) as (bk & Hbk & Hbh & ?).
            destruct (decide (kind = batchType)) as [->|Hk].
            { rewrite (Hentry bk Hbk) in Hnone. congruence. }
            exists bk. by rewrite lookup_insert_ne.
          * injection Hin as -> -> ->. exists b. rewrite lookup_insert_eq, Hopt.
            do 3 (split; [done|]). lia.
        + intros kind bk h. rewrite Hbs, Hts, Hnt, lookup_insert. case_decide as Hk.
          * intros [= <-]. rewrite Hto. intros [= <-]. split; [lia|].
            subst kind. eexists. apply elem_of_app. right. apply list_elem_of_here.
          * intros Hbk Hh. destruct (D2 kind bk h Hbk Hh) as [Hlt [due Hin]].
            split; [lia|]. exists due. apply elem_of_app. by left.
        + intros k1 k2 b1 b2 h. rewrite Hbs, !lookup_insert.
          destruct (decide (batchType = k1)) as [<-|H1];
            destruct (decide (batchType = k2)) as [<-|H2]; try done.
          * intros [= <-] Hb2 Hh1 Hh2. rewrite Hto in Hh1. injection Hh1 as <-.
            destruct (D2 _ _ _ Hb2 Hh2) as [Hlt _]. lia.
          * intros Hb1 [= <-] Hh1 Hh2. rewrite Hto in Hh2. injection Hh2 as <-.
            destruct (D2 _ _ _ Hb1 Hh1) as [Hlt _]. lia.
          * apply D3.
      - (* the group keeps the deadline it has *)
        split; [|split].
        + intros h due kind. rewrite Hts, Hbs, Hclock. intros Hin.
          destruct (D1 h due kind Hin) as (bk & Hbk & Hbh & ? & ?).
          destruct (decide (kind = batchType)) as [->|Hk].
          * exists b. rewrite lookup_insert_eq, Hto, Hopt, (Hentry bk Hbk). done.
          * exists bk. by rewrite lookup_insert_ne.
        + intros kind bk h. rewrite Hbs, Hts, Hnt, lookup_insert. case_decide as Hk.
          * intros [= <-]. rewrite Hto. subst kind. intros Hh.
            destruct (batches s !! batchType) as [b0|] eqn:Hb0.
            -- rewrite (Hentry b0 eq_refl) in Hh. by apply (D2 batchType b0).
            -- by rewrite Hfresh in Hh.
          * apply D2.
        + intros k1 k2 b1 b2 h. rewrite Hbs, !lookup_insert.
          destruct (decide (batchType = k1)) as [<-|H1];
            destruct (decide (batchType = k2)) as [<-|H2]; try done.
          * intros [= <-] Hb2. rewrite Hto. intros Hh1 Hh2.
            destruct (batches s !! batchType) as [b0|] eqn:Hb0.
            -- rewrite (Hentry b0 eq_refl) in Hh1. by apply (D3 batchType k2 b0 b2 h).
            -- by rewrite Hfresh in Hh1.
          * intros Hb1 [= <-] Hh1. rewrite Hto. intros Hh2.
            destruct (batches s !! batchType) as [b0|] eqn:Hb0.
            -- rewrite (Hentry b0 eq_refl) in Hh2. by apply (D3 k1 batchType b1 b0 h).
            -- by rewrite Hfresh in Hh2.
          * apply D3. }
    case_decide; [|done].
    apply processBatch_deadline; try done.
    + intros kind bk h Hbk Hh. destruct (E2 kind bk h Hbk Hh). by split.
    + right. intros bk h Hbk Hh. by destruct (E2 batchType bk h Hbk Hh).
  - unfold fire. destruct (timers s !! i) as [[h [due kind]]|] eqn:Hi; [|done].
    case_decide as Hdue; [|done].
    assert ((h, (due, kind)) ∈ timers s) as Hin by (by eapply list_elem_of_lookup_2).
    destruct (D1 h due kind Hin) as (b & Hb & Hh & Hne & _).
    apply processBatch_deadline; simpl.
    + intros h' due' kind' Hin'%list_elem_of_delete_inv. by apply D1.
    + intros kind' b' h' Hb' Hh'. destruct (D2 kind' b' h' Hb' Hh') as [Hlt [due' Hin']].
      split; [done|]. intros Hk. exists due'.
      eapply elem_of_delete_other; [done|done|]. congruence.
    + done.
    + left. by exists b.
  - apply processBatch_deadline; try done.
    + intros kind bk h Hbk Hh. destruct (D2 kind bk h Hbk Hh). by split.
    + right. intros bk h Hbk Hh. by destruct (D2 batchType bk h Hbk Hh).
  - destruct (settled_frame i o s) as (Hb & _ & Ht & Hn & Hc).
    unfold deadline_inv. rewrite Hb, Ht, Hn, Hc. done.
  - split; [|split].
    + simpl. intros h due kind [Hnot Hin]%list_elem_of_filter. exfalso. apply Hnot.
      destruct (D1 h due kind Hin) as (b & Hb & Hh & _). simpl.
      apply list_elem_of_omap. exists (kind, b). split; [|done].
      by apply elem_of_map_to_list.
    + intros kind b h. simpl. by rewrite lookup_empty.
    + intros k1 k2 b1 b2 h. simpl. by rewrite lookup_empty.
Qed.

Lemma run_deadline_inv o now evs : deadline_inv (run evs (constructor o now)).
Proof.
  induction evs as [|ev evs IH] using rev_ind.
  - split; [|split]; simpl.
    + intros h due kind Hin. by apply elem_of_nil in Hin.
    + intros kind b h. by rewrite lookup_empty.
    + intros k1 k2 b1 b2 h. by rewrite lookup_empty.
  - rewrite batch_run_snoc. by apply step_deadline_inv.
Qed.


(** X14.  Deadline timers and open groups match.  After any sequence of events,
    a pending deadline timer belongs to a group that has members and whose
    [timeout] field is the handle of that timer, and it is due at most
    [maxWait] from now; conversely a group whose [timeout] field is set has
    exactly that timer pending. *)
Theorem deadline_timers_match_groups (o : manager_options) (now : Z)
    (evs : list event) :
  (∀ h due kind, (h, (due, kind)) ∈ timers (run evs (constructor o now)) →
     ∃ b, batches (run evs (constructor o now)) !! kind = Some b ∧
          timeout b = Some h ∧ items b ≠ [] ∧
          due <= clock (run evs (constructor o now)) + maxWait (options b)) ∧
  (∀ kind b h, batches (run evs (constructor o now)) !! kind = Some b →
     timeout b = Some h →
     ∃ due, (h, (due, kind)) ∈ timers (run evs (constructor o now))).
Proof.
  destruct (run_deadline_inv o now evs) as (D1 & D2 & _).
  split; [done|]. intros kind b h Hb Hh. by destruct (D2 kind b h Hb Hh).
Qed.

(** X15.  A size-triggered or manual [processBatch] on a group that has members
    but fewer than [minSize] flushes nothing and still cancels the deadline:
    afterwards the members are where they were, the [timeout] field is
    empty and no timer for the batch type is pending, so only a later
    [addToBatch] or [processBatch] can flush them. *)
Theorem held_back_group_loses_deadline (o : manager_options) (now : Z)
    (evs : list event) (kind : string) (why : reason) (b : batch) :
  batches (run evs (constructor o now)) !! kind = Some b →
  items b ≠ [] →
  Z.of_nat (length (items b)) < minSize (options b) →
  why ≠ ReasonTimeout →
  ∃ b',
    batches (processBatch kind why (run evs (constructor o now))) !! kind = Some b' ∧
    items b' = items b ∧ promises b' = promises b ∧ timeout b' = None ∧
    invoked (processBatch kind why (run evs (constructor o now)))
      = invoked (run evs (constructor o now)) ∧
    ∀ h due, (h, (due, kind)) ∉ timers (processBatch kind why (run evs (constructor o now))).
Proof.
  intros Hb Hne Hsmall Hwhy.
  pose proof (run_deadline_inv o now evs) as (D1 & D2 & D3).
  set (s := run evs (constructor o now)) in *.
  assert (deadline_inv (processBatch kind why s)) as (E1 & _).
  { apply processBatch_deadline; try done.
    - intros k bk h Hbk Hh. destruct (D2 k bk h Hbk Hh). by split.
    - left. by exists b. }
  destruct (processBatch_cases kind why s)
    as [[_ [Hnone|(b1 & Hb1 & Hnil)]]
       |(b1 & b' & Hb1 & _ & Hbs & _ & _ & Hto & _ & _ & _ & Hcases)]; try congruence.
  assert (b1 = b) as -> by congruence.
  destruct Hcases as [(_ & _ & Hi & Hp & Hinv)|(Hflush & _)]; [|tauto].
  exists b'. rewrite Hbs, lookup_insert_eq. do 5 (split; [done|]).
  intros h due Hin. destruct (E1 h due kind Hin) as (b2 & Hb2 & Hh & _).
  rewrite Hbs, lookup_insert_eq in Hb2. congruence.
Qed.

Lemma held_back_group_loses_deadline_witness :
  ∃ b',
    batches (processBatch "prices" ReasonManual
               (run [Add "prices" "a" 1 (AddOptions None None None)]
                  (constructor (ManagerOptions None None None) 0))) !! "prices" = Some b' ∧
    timeout b' = None ∧ items b' = [("a", 0)].
Proof.
  destruct (held_back_group_loses_deadline (ManagerOptions None None None) 0
              [Add "prices" "a" 1 (AddOptions None None None)] "prices" ReasonManual
              (Batch [("a", 0)] [("a", 0%nat)] 1 (Some 0%nat) (BatchOptions 10 2000 2)))
    as (b' & Hb' & Hi & _ & Hto & _); [by vm_compute|done|simpl; lia|done|].
  exists b'. by rewrite Hi.
Defined.

(** *** [clearAllBatches] *)

(** X16.  [clearAllBatches] after any run: every caller whose promise is stored
    in an open group is rejected with 'Batch cleared', the map of groups is
    empty and no deadline timer is left.  Calls of batch functions that are
    being awaited are not touched: their members are settled when the call
    ends. *)
Theorem clearAllBatches_rejects_open_groups (o : manager_options) (now : Z)
    (evs : list event) :
  batches (clearAllBatches (run evs (constructor o now))) = ∅ ∧
  timers (clearAllBatches (run evs (constructor o now))) = [] ∧
  pending (clearAllBatches (run evs (constructor o now)))
    = pending (run evs (constructor o now)) ∧
  (∀ kind b key caller,
     batches (run evs (constructor o now)) !! kind = Some b →
     (key, caller) ∈ promises b →
     (caller, Rejected (Some batch_cleared))
       ∈ settled (clearAllBatches (run evs (constructor o now)))) ∧
  (∀ x, x ∈ settled (clearAllBatches (run evs (constructor o now))) →
     x ∈ settled (run evs (constructor o now)) ∨
     x.2 = Rejected (Some batch_cleared) ∧
     ∃ kind b key, batches (run evs (constructor o now)) !! kind = Some b ∧
                   (key, x.1) ∈ promises b).
Proof.
  pose proof (step_deadline_inv ClearAll _ (run_deadline_inv o now evs)) as (E1 & _).
  set (s := run evs (constructor o now)) in *.
  change (step ClearAll s) with (clearAllBatches s) in E1.
  split; [done|]. split; [|split; [done|split]].
  - destruct (timers (clearAllBatches s)) as [|[h [due kind]] rest] eqn:Ht; [done|].
    destruct (E1 h due kind) as (b & Hb & _); [apply list_elem_of_here|].
    simpl in Hb. by rewrite lookup_empty in Hb.
  - intros kind b key caller Hb Hin. simpl.
    apply elem_of_app. right. apply list_elem_of_bind. exists (kind, b). split.
    + apply list_elem_of_fmap. by exists (key, caller).
    + by apply elem_of_map_to_list.
  - intros x. simpl.
    intros [Hin|(kb & Hin & Hkb)%list_elem_of_bind]%elem_of_app; [by left|].
    apply list_elem_of_fmap in Hin as ([key caller] & -> & Hin).
    right. split; [done|]. exists kb.1, kb.2, key. split; [|done].
    apply elem_of_map_to_list. by destruct kb.
Qed.

(** *** Statistics *)

Lemma pendingItems_insert (m : gmap string batch) (k : string) (b' : batch) :
  (sum_list_with (λ kb, length (items kb.2)) (map_to_list (<[k := b']> m))
   + length (items (default (Batch [] [] 0 None (BatchOptions 0 0 0)) (m !! k)))
   = sum_list_with (λ kb, length (items kb.2)) (map_to_list m) + length (items b'))%nat.
Proof.
  destruct (m !! k) as [b|] eqn:Hk; simpl.
  - rewrite <- (insert_delete_eq m k b').
    rewrite map_to_list_insert by apply lookup_delete_eq.
    rewrite <- (map_to_list_delete m k b Hk). simpl. lia.
  - rewrite map_to_list_insert by done. simpl. lia.
Qed.

Lemma processBatch_account batchType why s :
  nextPromise (processBatch batchType why s) = nextPromise s ∧
  ((stats (processBatch batchType why s) = stats s ∧
    invoked (processBatch batchType why s) = invoked s ∧
    pending (processBatch batchType why s) = pending s ∧
    pendingItems (processBatch batchType why s) = pendingItems s)
   ∨
   ∃ c,
     invoked (processBatch batchType why s) = invoked s ++ [c] ∧
     pending (processBatch batchType why s) = pending s ++ [c] ∧
     (pendingItems (processBatch batchType why s) + length (call_items c)
      = pendingItems s)%nat ∧
     stats (processBatch batchType why s)
     = Statistics (totalRequests (stats s))
         (batchedRequests (stats s) + Z.of_nat (length (call_items c)))
         (totalBatches (stats s) + 1)
         (totalBatchSize (stats s) + Z.of_nat (length (call_items c)))
         (if decide (why = ReasonTimeout) then timeouts (stats s) + 1
          else timeouts (stats s))
         (errors (stats s))).
Proof.
  unfold processBatch, pendingItems.
  destruct (batches s !! batchType) as [b|] eqn:Hb; [|split; [done|by left]].
  destruct (decide (length (items b) = 0%nat)) as [Hzero|Hnz]; [split; [done|by left]|].
  pose proof (pendingItems_insert (batches s) batchType) as Hsum. rewrite Hb in Hsum.
  simpl in Hsum.
  destruct (timeout b) as [h|] eqn:Ht; simpl;
    destruct (decide (Z.of_nat (length (items b)) < minSize (options b)
                      ∧ why ≠ ReasonTimeout)) as [Hheld|Hflush]; simpl;
    (split; [done|]).
  - left. do 3 (split; [done|]). specialize (Hsum (with_timeout None b)). simpl in Hsum. lia.
  - right. eexists. do 2 (split; [done|]). simpl. unfold JsMap.keys.
    rewrite length_fmap, insert_insert_eq. split; [|done].
    specialize (Hsum (with_promises [] (with_items [] (with_timeout None b)))).
    simpl in Hsum. lia.
  - by left.
  - right. eexists. do 2 (split; [done|]). simpl. unfold JsMap.keys.
    rewrite length_fmap. split; [|done].
    specialize (Hsum (with_promises [] (with_items [] b))). simpl in Hsum. lia.
Qed.

Lemma addToBatch_member_account batchType key f o s :
  let b := (addToBatch_member batchType key f o s).1 in
  let s2 := (addToBatch_member batchType key f o s).2 in
  nextPromise s2 = S (nextPromise s) ∧ pending s2 = pending s ∧
  stats s2 = Statistics (totalRequests (stats s) + 1) (batchedRequests (stats s))
               (totalBatches (stats s)) (totalBatchSize (stats s)) (timeouts (stats s))
               (errors (stats s)) ∧
  (pendingItems s2 <= S (pendingItems s))%nat.
Proof.
  cbv zeta.
  destruct (addToBatch_member_spec batchType key f o s) as (Hbs & Hitems & _).
  assert (nextPromise (addToBatch_member batchType key f o s).2 = S (nextPromise s) ∧
          pending (addToBatch_member batchType key f o s).2 = pending s ∧
          stats (addToBatch_member batchType key f o s).2
          = Statistics (totalRequests (stats s) + 1) (batchedRequests (stats s))
              (totalBatches (stats s)) (totalBatchSize (stats s)) (timeouts (stats s))
              (errors (stats s))) as (Hn & Hp & Hs).
  { unfold addToBatch_member, entry_for. simpl.
    destruct (batches s !! batchType) as [b|]; simpl; [by case_decide|done]. }
  do 3 (split; [done|]). unfold pendingItems. rewrite Hbs.
  pose proof (pendingItems_insert (batches s) batchType
                (addToBatch_member batchType key f o s).1) as Hsum.
  rewrite Hitems, JsMapFacts.length_set in Hsum.
  unfold entry_for in Hsum.
  destruct (batches s !! batchType) as [b|]; simpl in Hsum; [case_decide|]; lia.
Qed.

Lemma step_stats_inv ev s : stats_inv s → stats_inv (step ev s).
Proof.
  intros Hinv0. pose proof Hinv0 as (Ht & Hb & Hk & Hz & Hle & Hto & He & Hp).
  assert (∀ batchType why s',
            totalRequests (stats s') = Z.of_nat (nextPromise s') →
            batchedRequests (stats s') = batchedRequests (stats s) →
            totalBatches (stats s') = totalBatches (stats s) →
            totalBatchSize (stats s') = totalBatchSize (stats s) →
            timeouts (stats s') = timeouts (stats s) →
            errors (stats s') = errors (stats s) →
            invoked s' = invoked s → pending s' = pending s →
            (keys_passed s + pendingItems s' <= nextPromise s')%nat →
            stats_inv (processBatch batchType why s')) as Hflush.
  { intros batchType why s' Ht' Hb' Hn' Hz' Hto' He' Hi' Hp' Hle'.
    destruct (processBatch_account batchType why s')
      as (Hnp & [(Hs & Hinv & Hpend & Hitems)|(c & Hinv & Hpend & Hitems & Hs)]);
      unfold stats_inv, keys_passed; rewrite Hs, Hinv, Hpend, Hnp, ?Hi', ?Hp'.
    - rewrite Hitems. unfold keys_passed in *. repeat split; try lia.
    - rewrite sum_list_with_app, !length_app. simpl. unfold keys_passed in *.
      clear Hs. repeat split; try lia; destruct (decide (why = ReasonTimeout)); lia. }
  destruct ev as [dt|batchType key f o|i|batchType|i o| ]; simpl.
  - done.
  - rewrite addToBatch_split.
    destruct (addToBatch_member_spec batchType key f o s) as (_ & _ & _ & _ & _ & Hi & _).
    destruct (addToBatch_member_account batchType key f o s) as (Hn' & Hp' & Hs' & Hsum).
    destruct (addToBatch_member batchType key f o s) as [b s2]. simpl in *.
    case_decide.
    + apply Hflush; rewrite ?Hs'; simpl; try done; lia.
    + unfold stats_inv, keys_passed in *. rewrite Hs', Hn', Hp', Hi. simpl.
      repeat split; lia.
  - unfold fire. repeat case_match; try done.
    apply Hflush; simpl; try done; unfold pendingItems in *; simpl; lia.
  - apply Hflush; try done; lia.
  - unfold stats_inv, keys_passed, pendingItems in *.
    unfold step, processBatch_settled, results_unreadable, bump_errors.
    destruct (pending s !! i) as [c|] eqn:Hc; [|done].
    assert (length (pending s) = S (length (delete i (pending s)))) as Hlen.
    { rewrite length_delete by by eexists. apply lookup_lt_Some in Hc. lia. }
    destruct o as [[results|]| |error];
      [|destruct (call_promises c) as [|[key p] rest]
       |destruct (call_promises c) as [|[key p] rest]|];
      simpl; repeat split; lia.
  - unfold stats_inv, keys_passed, pendingItems in *. simpl.
    rewrite map_to_list_empty. simpl. repeat split; lia.
Qed.

(** X17.  The counters of the aggregator tell what happened.  After any
    sequence of events (no [resetStats]): [totalRequests] is the number of
    [addToBatch] calls, [totalBatches] the number of calls of batch
    functions, [batchedRequests] and [totalBatchSize] the number of keys
    handed to them.  The keys handed over plus the members still waiting in
    open groups never exceed the number of [addToBatch] calls, so the batch
    efficiency [getStats] reports is at most 100 percent; [timeouts] is at
    most [totalBatches], and [errors] at most the number of calls that
    have ended. *)
Theorem batch_stats_account (o : manager_options) (now : Z) (evs : list event) :
  stats_inv (run evs (constructor o now)).
Proof.
  induction evs as [|ev evs IH] using rev_ind.
  - unfold stats_inv, keys_passed, pendingItems. simpl.
    rewrite map_to_list_empty. simpl. repeat split; lia.
  - rewrite batch_run_snoc. by apply step_stats_inv.
Qed.

End BatchManagerMore.

Module JsMapMore.
Section facts.
Context {A : Type}.
Implicit Types (m : list (string * A)) (k : string) (v : A).

Lemma get_set_ne k k' v m : k ≠ k' → JsMap.get k' (JsMap.set k v m) = JsMap.get k' m.
Proof.
  intros Hne. induction m as [|[k0 v0] m IH]; simpl.
  - by rewrite decide_False.
  - destruct (decide (k0 = k)) as [->|Hk0]; simpl.
    + by rewrite !decide_False.
    + by rewrite IH.
Qed.

Lemma get_remove_ne k k' m : k ≠ k' → JsMap.get k' (JsMap.remove k m) = JsMap.get k' m.
Proof.
  intros Hne. induction m as [|[k0 v0] m IH]; simpl; [done|].
  destruct (decide (k0 = k)) as [->|Hk0]; simpl.
  - by rewrite decide_False.
  - by rewrite IH.
Qed.

Lemma get_Some_elem k v m : JsMap.get k m = Some v → (k, v) ∈ m.
Proof.
  induction m as [|[k0 v0] m IH]; simpl; [done|].
  case_decide as Hk.
  - intros [= ->]. subst. apply list_elem_of_here.
  - intros H. apply list_elem_of_further. by apply IH.
Qed.

Lemma elem_get_Some k v m : NoDup m.*1 → (k, v) ∈ m → JsMap.get k m = Some v.
Proof.
  induction m as [|[k0 v0] m IH]; simpl; intros Hm Hin.
  - by apply elem_of_nil in Hin.
  - apply NoDup_cons in Hm as [Hk0 Hm].
    apply elem_of_cons in Hin as [[= -> ->]|Hin].
    + by rewrite decide_True.
    + rewrite decide_False; [by apply IH|].
      intros ->. apply Hk0. apply list_elem_of_fmap. by exists (k, v).
Qed.

(** Removing a key that is not there changes nothing. *)
Lemma remove_absent k m : k ∉ m.*1 → JsMap.remove k m = m.
Proof.
  induction m as [|[k0 v0] m IH]; simpl; [done|].
  intros Hk. apply not_elem_of_cons in Hk as [Hne Hk].
  rewrite decide_False by done. by rewrite IH.
Qed.

(** Removing the keys [ks] one after the other leaves the entries whose
    key is not among them, in their order. *)
Lemma remove_all_filter (ks : list string) m :
  NoDup m.*1 →
  foldl (λ m k, JsMap.remove k m) m ks = filter (λ kv, kv.1 ∉ ks) m.
Proof.
  revert m. induction ks as [|k ks IH]; intros m Hm; simpl.
  - symmetry. clear Hm. induction m as [|kv m IHm]; [done|].
    rewrite filter_cons, decide_True by apply not_elem_of_nil. by rewrite IHm.
  - rewrite IH by by apply JsMapFacts.NoDup_remove.
    clear IH. induction m as [|[k0 v0] m IHm]; simpl; [done|].
    apply NoDup_cons in Hm as [Hk0 Hm].
    destruct (decide (k0 = k)) as [->|Hne].
    + rewrite (filter_cons _ (k, v0)), decide_False
        by (simpl; intros Hk; apply Hk, list_elem_of_here).
      apply filter_ext_Forall, Forall_forall. intros [k1 v1] Hin. simpl.
      assert (k1 ≠ k).
      { intros ->. apply Hk0. apply list_elem_of_fmap. by exists (k, v1). }
      rewrite not_elem_of_cons. split; [by intros ?|by intros [_ ?]].
    + rewrite !filter_cons. simpl.
      destruct (decide (k0 ∉ ks)) as [Hin|Hin].
      * rewrite decide_True by (by apply not_elem_of_cons). by rewrite IHm.
      * rewrite decide_False by (by intros [_ ?]%not_elem_of_cons). by apply IHm.
Qed.

End facts.
End JsMapMore.

Module CacheManagerMore.
Import CacheManager CacheManagerFacts.

(** *** What a reader sees *)

(** [get] answers with the live value under the key, and what it does to
    the cache (dropping the expired entry, stamping the entry it found) is
    invisible to later readers. *)
Lemma get_live cacheType key s cache :
  caches s !! cacheType = Some cache → NoDup cache.*1 →
  (get cacheType key s).1 = Returns (default VNull (live cacheType key s)) ∧
  clock (get cacheType key s).2 = clock s ∧
  (∀ key', live cacheType key' (get cacheType key s).2 = live cacheType key' s).
Proof.
  intros Hc Hnd. unfold get, live. rewrite Hc.
  destruct (JsMap.get key cache) as [e|] eqn:He; [|simpl; by rewrite Hc].
  destruct (decide (expiresAt e < clock s)) as [Hexp|Hlive]; simpl.
  - do 2 (split; [done|]). intros key'. rewrite lookup_insert_eq.
    destruct (decide (key = key')) as [<-|Hne].
    + rewrite JsMapFacts.get_remove_eq, He by done. by rewrite decide_True.
    + by rewrite JsMapMore.get_remove_ne.
  - do 2 (split; [done|]). intros key'. rewrite lookup_insert_eq.
    destruct (decide (key = key')) as [<-|Hne].
    + rewrite JsMapFacts.get_set_eq, He. simpl. by rewrite !decide_False.
    + by rewrite JsMapMore.get_set_ne.
Qed.

(** [set] leaves the new entry under the key, whatever it evicted. *)
Lemma set_entry cacheType key v customTTL s cache :
  caches s !! cacheType = Some cache →
  clock (set cacheType key v customTTL s).2 = clock s ∧
  ∃ cache1,
    caches (set cacheType key v customTTL s).2 !! cacheType
    = Some (JsMap.set key
              (Entry v (clock s)
                 (clock s + or_default customTTL (default 0 (ttls s !! cacheType)))
                 (clock s))
              cache1).
Proof.
  intros Hc. unfold set. rewrite Hc.
  match goal with |- context [count_set cacheType (set_cache _ _ ?s1)] =>
    assert (clock s1 = clock s) as Hclock
  end.
  { destruct (limits s !! cacheType); [|done]. case_decide; [|done].
    unfold evictOldest. by repeat case_match. }
  simpl. split; [done|]. eexists. by rewrite lookup_insert_eq.
Qed.

Lemma declared_cache o now evs cacheType :
  cacheType ∈ cacheTypes →
  ∃ cache, caches (run evs (constructor o now)) !! cacheType = Some cache ∧
           NoDup cache.*1.
Proof.
  intros Hin. destruct (run_well_formed evs o now) as [Hdecl Hnodup].
  destruct (Hdecl cacheType Hin) as [cache Hc]. exists cache. split; [done|].
  by eapply Hnodup.
Qed.

(** X18.  The cache-aside round trip of [getOrSet].  When the fetch function has
    answered with a value that is neither [null] nor [undefined], the value
    is stored, and for the lifetime of the entry every reader gets it: the
    next [getOrSet] returns it without calling its fetch function, [get]
    returns it and [has] answers true.  Once the lifetime is over the next
    [getOrSet] fetches again.  A fetched [null] or [undefined] is handed to
    the caller and not stored. *)
Theorem getOrSet_serves_fetched_value (o : options) (now : Z) (evs : list event)
    (cacheType key : string) (v : value) (customTTL : option Z) (dt : Z) :
  cacheType ∈ cacheTypes →
  not_null v = true →
  0 <= dt →
  let s := run evs (constructor o now) in
  let ttl := or_default customTTL (default 0 (ttls s !! cacheType)) in
  let s' := step (Tick dt) (getOrSet_fetched cacheType key (Some v) customTTL s).2 in
  (getOrSet_fetched cacheType key (Some v) customTTL s).1 = Some v ∧
  (dt <= ttl →
     (getOrSet_lookup cacheType key s').1 = Returns (Some v) ∧
     (get cacheType key s').1 = Returns v ∧
     (has cacheType key s').1 = Returns true) ∧
  (ttl < dt → (getOrSet_lookup cacheType key s').1 = Returns None) ∧
  getOrSet_fetched cacheType key None customTTL s = (None, s) ∧
  getOrSet_fetched cacheType key (Some VNull) customTTL s = (Some VNull, s).
Proof.
  intros Hdecl Hv Hdt s ttl s'.
  destruct (declared_cache o now evs cacheType Hdecl) as (cache & Hc & _).
  fold s in Hc.
  assert (getOrSet_fetched cacheType key (Some v) customTTL s
          = (Some v, (set cacheType key v customTTL s).2)) as Hfetched
    by (unfold getOrSet_fetched; by rewrite Hv).
  destruct (set_entry cacheType key v customTTL s cache Hc) as (Hclock & cache1 & Hc1).
  assert (well_formed (set cacheType key v customTTL s).2) as [_ Hwf].
  { change (well_formed (step (Set_ cacheType key v customTTL) s)).
    apply step_well_formed, run_well_formed. }
  assert (live cacheType key s' = if decide (ttl < dt) then None else Some v) as Hlive.
  { subst s'. rewrite Hfetched. unfold live, step. cbn [caches clock set_clock snd].
    rewrite Hc1, JsMapFacts.get_set_eq, Hclock. simpl. fold ttl.
    destruct (decide (ttl < dt)); [rewrite decide_True by lia|rewrite decide_False by lia];
      done. }
  assert (∃ cache', caches s' !! cacheType = Some cache' ∧ NoDup cache'.*1)
    as (cache' & Hc' & Hnd').
  { subst s'. rewrite Hfetched. eexists. split; [exact Hc1|]. by eapply Hwf. }
  destruct (get_live cacheType key s' cache' Hc' Hnd') as (Hget & _).
  rewrite Hlive in Hget.
  split; [by rewrite Hfetched|]. split; [|split; [|done]].
  - intros Hle. rewrite decide_False in Hget by lia. simpl in Hget.
    unfold getOrSet_lookup, has.
    destruct (get cacheType key s') as [r s2]. simpl in Hget. subst r.
    by rewrite Hv.
  - intros Hgt. rewrite decide_True in Hget by lia. simpl in Hget.
    unfold getOrSet_lookup.
    destruct (get cacheType key s') as [r s2]. simpl in Hget. by subst r.
Qed.

Lemma getOrSet_serves_fetched_value_witness :
  (getOrSet_lookup "liquidityData" "mint"
     (step (Tick 59000)
        (getOrSet_fetched "liquidityData" "mint" (Some (VNum 7)) (Some 60000)
           (constructor default_options 0)).2)).1
  = Returns (Some (VNum 7)).
Proof.
  destruct (getOrSet_serves_fetched_value default_options 0 [] "liquidityData" "mint"
              (VNum 7) (Some 60000) 59000) as (_ & Hserve & _).
  - unfold cacheTypes. do 3 apply list_elem_of_further. apply list_elem_of_here.
  - done.
  - lia.
  - apply Hserve. simpl. lia.
Defined.

(** *** [delete] *)

(** X19.  [delete] on a declared cache type forgets exactly the key it is given:
    the next [get] of that key misses, and what readers see under every
    other key, and in every other cache, is what they saw before. *)
Theorem delete_forgets_only_that_key (o : options) (now : Z) (evs : list event)
    (cacheType key : string) :
  cacheType ∈ cacheTypes →
  (get cacheType key (delete cacheType key (run evs (constructor o now)))).1
    = Returns VNull ∧
  (∀ key', key' ≠ key →
     (get cacheType key' (delete cacheType key (run evs (constructor o now)))).1
     = (get cacheType key' (run evs (constructor o now))).1) ∧
  (∀ cacheType', cacheType' ≠ cacheType →
     caches (delete cacheType key (run evs (constructor o now))) !! cacheType'
     = caches (run evs (constructor o now)) !! cacheType').
Proof.
  intros Hdecl.
  destruct (declared_cache o now evs cacheType Hdecl) as (cache & Hc & Hnd).
  set (s := run evs (constructor o now)) in *.
  assert (caches (delete cacheType key s) = <[cacheType := JsMap.remove key cache]> (caches s))
    as Hdel by (unfold delete; by rewrite Hc).
  assert (caches (delete cacheType key s) !! cacheType = Some (JsMap.remove key cache))
    as Hc' by (by rewrite Hdel, lookup_insert_eq).
  assert (NoDup (JsMap.remove key cache).*1) as Hnd' by by apply JsMapFacts.NoDup_remove.
  assert (clock (delete cacheType key s) = clock s) as Hclock
    by (unfold delete; by rewrite Hc).
  split; [|split].
  - destruct (get_live cacheType key _ _ Hc' Hnd') as (-> & _).
    unfold live. by rewrite Hc', JsMapFacts.get_remove_eq.
  - intros key' Hne.
    destruct (get_live cacheType key' _ _ Hc' Hnd') as (-> & _).
    destruct (get_live cacheType key' _ _ Hc Hnd) as (-> & _).
    unfold live. by rewrite Hc', Hc, Hclock, JsMapMore.get_remove_ne.
  - intros cacheType' Hne. by rewrite Hdel, lookup_insert_ne.
Qed.

Lemma delete_forgets_only_that_key_witness :
  (get "volumeData" "mint"
     (delete "volumeData" "mint"
        (run [Set_ "volumeData" "mint" (VNum 5) None] (constructor default_options 0)))).1
  = Returns VNull.
Proof.
  apply (delete_forgets_only_that_key default_options 0
           [Set_ "volumeData" "mint" (VNum 5) None] "volumeData" "mint").
  unfold cacheTypes. do 5 apply list_elem_of_further. apply list_elem_of_here.
Defined.

(** *** Removing many keys: [cleanup] and [invalidatePattern] *)

Lemma delete_all cacheType (ks : list string) s cache :
  caches s !! cacheType = Some cache →
  caches (foldl (λ s key, delete cacheType key s) s ks)
  = <[cacheType := foldl (λ m k, JsMap.remove k m) cache ks]> (caches s).
Proof.
  revert s cache. induction ks as [|k ks IH]; intros s cache Hc; simpl.
  - by rewrite insert_id.
  - erewrite IH; last first.
    { unfold delete. rewrite Hc. simpl. by rewrite lookup_insert_eq. }
    unfold delete. rewrite Hc. simpl. by rewrite insert_insert_eq.
Qed.

Lemma sweep_all cacheType (ks : list string) s cache :
  caches s !! cacheType = Some cache →
  caches (foldl (λ s key, count_eviction cacheType (delete cacheType key s)) s ks)
  = <[cacheType := foldl (λ m k, JsMap.remove k m) cache ks]> (caches s) ∧
  clock (foldl (λ s key, count_eviction cacheType (delete cacheType key s)) s ks)
  = clock s ∧
  limits (foldl (λ s key, count_eviction cacheType (delete cacheType key s)) s ks)
  = limits s.
Proof.
  revert s cache. induction ks as [|k ks IH]; intros s cache Hc; simpl.
  - by rewrite insert_id.
  - edestruct (IH (count_eviction cacheType (delete cacheType k s))) as (-> & -> & ->).
    { unfold delete. rewrite Hc. simpl. by rewrite lookup_insert_eq. }
    unfold delete. rewrite Hc. simpl. by rewrite insert_insert_eq.
Qed.

(** Removing the keys selected by a test on the entries leaves the
    entries that fail the test. *)
Lemma remove_selected (P : string * entry → Prop) `{!∀ kv, Decision (P kv)}
    (cache : list (string * entry)) :
  NoDup cache.*1 →
  foldl (λ m k, JsMap.remove k m) cache (filter P cache).*1
  = filter (λ kv, ¬ P kv) cache.
Proof.
  intros Hnd. rewrite JsMapMore.remove_all_filter by done.
  apply filter_ext_Forall, Forall_forall. intros [k e] Hin. simpl. split.
  - intros Hnot HP. apply Hnot. apply list_elem_of_fmap. exists (k, e).
    split; [done|]. by apply list_elem_of_filter.
  - intros HnP ([k' e'] & Hk & [HP Hin']%list_elem_of_filter)%list_elem_of_fmap.
    simpl in Hk. subst k'. apply HnP.
    pose proof (JsMapMore.elem_get_Some k e cache Hnd Hin) as H1.
    pose proof (JsMapMore.elem_get_Some k e' cache Hnd Hin') as H2.
    congruence.
Qed.

Lemma cleanup_cache_spec cacheType s :
  well_formed s →
  clock (cleanup_cache cacheType s) = clock s ∧
  limits (cleanup_cache cacheType s) = limits s ∧
  ∀ cacheType',
    caches (cleanup_cache cacheType s) !! cacheType'
    = if decide (cacheType' = cacheType)
      then filter (λ kv, ¬ expiresAt kv.2 < clock s) <$> caches s !! cacheType'
      else caches s !! cacheType'.
Proof.
  intros [_ Hnd]. unfold cleanup_cache.
  destruct (caches s !! cacheType) as [cache|] eqn:Hc.
  - destruct (sweep_all cacheType (filter (λ kv, expiresAt kv.2 < clock s) cache).*1
                s cache Hc) as (-> & -> & ->).
    do 2 (split; [done|]). intros cacheType'. rewrite lookup_insert. case_decide as Hk.
    + subst. rewrite decide_True, Hc by done. simpl. f_equal.
      apply (remove_selected (λ kv, expiresAt kv.2 < clock s)). by eapply Hnd.
    + by rewrite decide_False.
  - do 2 (split; [done|]). intros cacheType'. case_decide; [|done]. subst. by rewrite Hc.
Qed.

Lemma cleanup_spec (types : list string) s :
  well_formed s → NoDup types →
  well_formed (foldl (λ s cacheType, cleanup_cache cacheType s) s types) ∧
  clock (foldl (λ s cacheType, cleanup_cache cacheType s) s types) = clock s ∧
  limits (foldl (λ s cacheType, cleanup_cache cacheType s) s types) = limits s ∧
  ∀ cacheType,
    caches (foldl (λ s cacheType, cleanup_cache cacheType s) s types) !! cacheType
    = if decide (cacheType ∈ types)
      then filter (λ kv, ¬ expiresAt kv.2 < clock s) <$> caches s !! cacheType
      else caches s !! cacheType.
Proof.
  revert s. induction types as [|ty types IH]; intros s Hwf Htypes; cbn [foldl].
  - do 3 (split; [done|]). intros cacheType.
    by rewrite decide_False by apply not_elem_of_nil.
  - apply NoDup_cons in Htypes as [Hty Htypes].
    destruct (cleanup_cache_spec ty s Hwf) as (Hclock & Hlimits & Hcaches).
    destruct (IH (cleanup_cache ty s)) as (Hwf' & -> & -> & Hrest);
      [by apply wf_cleanup_cache|done|].
    do 3 (split; [done|]). intros cacheType.
    rewrite Hrest, Hcaches, Hclock.
    destruct (decide (cacheType = ty)) as [->|Hne].
    + rewrite decide_False by done. by rewrite decide_True by apply list_elem_of_here.
    + destruct (decide (cacheType ∈ types)) as [Hin|Hin].
      * by rewrite decide_True by by apply list_elem_of_further.
      * by rewrite decide_False by (by intros [?|?]%elem_of_cons).
Qed.

Lemma cacheTypes_NoDup : NoDup cacheTypes.
Proof. apply (bool_decide_unpack (NoDup cacheTypes)). by vm_compute. Qed.

(** X20.  The periodic [cleanup] removes exactly the expired entries: of every
    declared cache it keeps the entries with [expiresAt >= now], in their
    order, and nothing else; so no reader can tell that it ran. *)
Theorem cleanup_removes_exactly_expired (o : options) (now : Z) (evs : list event)
    (cacheType : string) :
  cacheType ∈ cacheTypes →
  ∃ cache,
    caches (run evs (constructor o now)) !! cacheType = Some cache ∧
    caches (cleanup (run evs (constructor o now))) !! cacheType
      = Some (filter (λ kv, ¬ expiresAt kv.2 < clock (run evs (constructor o now)))
                cache) ∧
    ∀ key, live cacheType key (cleanup (run evs (constructor o now)))
           = live cacheType key (run evs (constructor o now)).
Proof.
  intros Hdecl. pose proof (run_well_formed evs o now) as Hwf.
  destruct (declared_cache o now evs cacheType Hdecl) as (cache & Hc & Hnd).
  set (s := run evs (constructor o now)) in *.
  destruct (cleanup_spec cacheTypes s Hwf cacheTypes_NoDup) as (_ & Hclock & _ & Hcaches).
  exists cache. split; [done|]. unfold cleanup. split.
  - by rewrite Hcaches, decide_True, Hc.
  - intros key. unfold live. rewrite Hcaches, decide_True, Hc, Hclock by done. simpl.
    destruct (JsMap.get key cache) as [e|] eqn:He.
    + destruct (decide (expiresAt e < clock s)) as [Hexp|Hlive].
      * destruct (JsMap.get key (filter _ cache)) as [e'|] eqn:He'; [|done].
        apply JsMapMore.get_Some_elem, list_elem_of_filter in He' as [Hlive Hin].
        apply (JsMapMore.elem_get_Some _ _ _ Hnd) in Hin. simpl in Hlive.
        assert (e' = e) as -> by congruence. done.
      * rewrite (JsMapMore.elem_get_Some key e); [by rewrite decide_False|..].
        -- eapply sublist_NoDup; [done|]. apply fmap_sublist, sublist_filter.
        -- apply list_elem_of_filter. split; [done|]. by apply JsMapMore.get_Some_elem.
    + destruct (JsMap.get key (filter _ cache)) as [e'|] eqn:He'; [|done].
      apply JsMapMore.get_Some_elem, list_elem_of_filter in He' as [_ Hin].
      apply (JsMapMore.elem_get_Some _ _ _ Hnd) in Hin. congruence.
Qed.

Lemma cleanup_removes_exactly_expired_witness :
  ∃ cache,
    caches (run ttl_events (constructor ttl_options 0)) !! "priceData" = Some cache ∧
    caches (cleanup (run ttl_events (constructor ttl_options 0))) !! "priceData"
      = Some (filter (λ kv, ¬ expiresAt kv.2 < clock (run ttl_events (constructor ttl_options 0)))
                cache).
Proof.
  destruct (cleanup_removes_exactly_expired ttl_options 0 ttl_events "priceData")
    as (cache & Hc & Hclean & _).
  - unfold cacheTypes. apply list_elem_of_further, list_elem_of_here.
  - exists cache. split; [exact Hc|exact Hclean].
Defined.

Lemma filter_keys (test : string → bool) (cache : list (string * entry)) :
  filter (λ key, test key = true) (JsMap.keys cache)
  = (filter (λ kv, test kv.1 = true) cache).*1.
Proof.
  unfold JsMap.keys. induction cache as [|[k e] cache IH]; [done|].
  rewrite fmap_cons, !filter_cons. simpl.
  destruct (decide (test k = true)); simpl; by rewrite IH.
Qed.

(** X21.  [invalidatePattern] on a declared cache type removes exactly the
    entries whose key the pattern matches, keeps the others in their order,
    returns the number of entries it removed and leaves the other caches
    alone. *)
Theorem invalidatePattern_removes_matches (o : options) (now : Z) (evs : list event)
    (cacheType : string) (test : string → bool) :
  cacheType ∈ cacheTypes →
  ∃ cache,
    caches (run evs (constructor o now)) !! cacheType = Some cache ∧
    caches (invalidatePattern cacheType test (run evs (constructor o now))).2 !! cacheType
      = Some (filter (λ kv, ¬ test kv.1 = true) cache) ∧
    (invalidatePattern cacheType test (run evs (constructor o now))).1
      = Z.of_nat (length cache)
        - Z.of_nat (length (filter (λ kv, ¬ test kv.1 = true) cache)) ∧
    ∀ cacheType', cacheType' ≠ cacheType →
      caches (invalidatePattern cacheType test (run evs (constructor o now))).2 !! cacheType'
      = caches (run evs (constructor o now)) !! cacheType'.
Proof.
  intros Hdecl.
  destruct (declared_cache o now evs cacheType Hdecl) as (cache & Hc & Hnd).
  set (s := run evs (constructor o now)) in *.
  exists cache. split; [done|]. unfold invalidatePattern. rewrite Hc.
  cbn [fst snd]. rewrite (delete_all _ _ _ _ Hc), filter_keys.
  rewrite (remove_selected (λ kv, test kv.1 = true)) by done.
  split; [by rewrite lookup_insert_eq|]. split.
  - rewrite length_fmap.
    pose proof (filter_app_complement (λ kv : string * entry, test kv.1 = true) cache) as Hp.
    apply Permutation_length in Hp. rewrite length_app in Hp. lia.
  - intros cacheType' Hne. by rewrite lookup_insert_ne.
Qed.

Lemma invalidatePattern_removes_matches_witness :
  (invalidatePattern "priceData" (String.prefix "So1")
     (run [Set_ "priceData" "So11" (VNum 1) None; Set_ "priceData" "EPj" (VNum 2) None]
        (constructor default_options 0))).1 = 1.
Proof.
  destruct (invalidatePattern_removes_matches default_options 0
              [Set_ "priceData" "So11" (VNum 1) None; Set_ "priceData" "EPj" (VNum 2) None]
              "priceData" (String.prefix "So1")) as (cache & Hc & _ & Hn & _).
  - unfold cacheTypes. apply list_elem_of_further, list_elem_of_here.
  - rewrite Hn. vm_compute in Hc. injection Hc as <-. reflexivity.
Defined.

(** *** [getMany] *)

Lemma getMany_snoc cacheType keys key s :
  getMany cacheType (keys ++ [key]) s
  = match getMany cacheType keys s with
    | (Returns results, s') =>
        match get cacheType key s' with
        | (Returns v, s'') =>
            (Returns (if not_null v then <[key := v]> results else results), s'')
        | (Throws e, s'') => (Throws e, s'')
        end
    | (Throws e, s') => (Throws e, s')
    end.
Proof. unfold getMany. by rewrite foldl_app. Qed.

Lemma getMany_spec cacheType keys s :
  cacheType ∈ cacheTypes → well_formed s →
  ∃ results s',
    getMany cacheType keys s = (Returns results, s') ∧
    well_formed s' ∧ clock s' = clock s ∧
    (∀ key, live cacheType key s' = live cacheType key s) ∧
    ∀ key v, results !! key = Some v ↔
             key ∈ keys ∧ live cacheType key s = Some v ∧ not_null v = true.
Proof.
  intros Hdecl Hwf. induction keys as [|k keys IH] using rev_ind.
  - exists ∅, s. do 4 (split; [done|]). intros key v. rewrite lookup_empty.
    split; [done|]. by intros [?%elem_of_nil _].
  - destruct IH as (results & s' & Hmany & Hwf' & Hclock & Hlive & Hres).
    rewrite getMany_snoc, Hmany.
    destruct Hwf' as [Hd Hn]. destruct (Hd cacheType Hdecl) as [cache Hc].
    destruct (get_live cacheType k s' cache Hc (Hn _ _ Hc)) as (Hget & Hclock' & Hlive').
    assert (well_formed (get cacheType k s').2) as Hwf''
      by (by apply (step_well_formed (Get cacheType k))).
    destruct (get cacheType k s') as [r s'']. simpl in *. subst r.
    rewrite Hlive.
    eexists _, s''. split; [done|]. split; [done|]. split; [congruence|].
    split; [intros key; by rewrite Hlive', Hlive|].
    intros key v. rewrite elem_of_app, list_elem_of_singleton.
    destruct (live cacheType k s) as [v0|] eqn:Hk; simpl.
    + destruct (not_null v0) eqn:Hv0.
      * rewrite lookup_insert. case_decide as Heq.
        -- subst key. rewrite Hk. split.
           ++ intros [= <-]. by split; [right|].
           ++ by intros (_ & [= <-] & _).
        -- rewrite Hres. split.
           ++ intros (? & ? & ?). by split; [left|].
           ++ intros ([?|?] & ? & ?); [done|congruence].
      * rewrite Hres. split.
        -- intros (? & ? & ?). by split; [left|].
        -- intros ([?|Heq] & Hl & Hnn); [done|]. subst key. congruence.
    + rewrite Hres. split.
      * intros (? & ? & ?). by split; [left|].
      * intros ([?|Heq] & Hl & Hnn); [done|]. subst key. congruence.
Qed.

(** X22.  [getMany] on a declared cache type returns the object that holds,
    for each of the keys asked for, the value a reader could see under it
    when the call started, and no other property: keys that are missing,
    expired or bound to [null] are left out.  The call does not change what
    readers see afterwards.  (The key "__proto__" is set aside: a
    JavaScript object does not keep it as a property.) *)
Theorem getMany_returns_live_entries (o : options) (now : Z) (evs : list event)
    (cacheType : string) (keys : list string) :
  cacheType ∈ cacheTypes →
  "__proto__" ∉ keys →
  ∃ results,
    (getMany cacheType keys (run evs (constructor o now))).1 = Returns results ∧
    (∀ key v, results !! key = Some v ↔
       key ∈ keys ∧ live cacheType key (run evs (constructor o now)) = Some v ∧
       not_null v = true) ∧
    ∀ key, live cacheType key (getMany cacheType keys (run evs (constructor o now))).2
           = live cacheType key (run evs (constructor o now)).
Proof.
  intros Hdecl _.
  destruct (getMany_spec cacheType keys (run evs (constructor o now)) Hdecl
              (run_well_formed evs o now))
    as (results & s' & -> & _ & _ & Hlive & Hres).
  by exists results.
Qed.

Lemma getMany_returns_live_entries_witness :
  ∃ results,
    (getMany "priceData" ["mint"; "other"]
       (run [Set_ "priceData" "mint" (VNum 42) None] (constructor default_options 0))).1
    = Returns results ∧ results !! "mint" = Some (VNum 42) ∧ results !! "other" = None.
Proof.
  destruct (getMany_returns_live_entries default_options 0
              [Set_ "priceData" "mint" (VNum 42) None] "priceData" ["mint"; "other"])
    as (results & Hget & Hres & _).
  - unfold cacheTypes. apply list_elem_of_further, list_elem_of_here.
  - intros Hin. repeat (apply elem_of_cons in Hin as [Hin|Hin]; [discriminate Hin|]).
    by apply elem_of_nil in Hin.
  - exists results. split; [done|]. split.
    + apply Hres. split; [apply list_elem_of_here|]. by vm_compute.
    + destruct (results !! "other") as [v|] eqn:Hother; [|done].
      apply Hres in Hother as (_ & Hlive & _). by vm_compute in Hlive.
Defined.

(** *** The size limit *)

Lemma set_shape cacheType key v customTTL s cache :
  caches s !! cacheType = Some cache →
  limits (set cacheType key v customTTL s).2 = limits s ∧
  ∃ cache1,
    caches (set cacheType key v customTTL s).2
    = <[cacheType := JsMap.set key
                       (Entry v (clock s)
                          (clock s + or_default customTTL (default 0 (ttls s !! cacheType)))
                          (clock s))
                       cache1]> (caches s) ∧
    cache1 `sublist_of` cache ∧
    (∀ limit, limits s !! cacheType = Some limit →
              Z.of_nat (length cache) < limit → cache1 = cache).
Proof.
  intros Hc. unfold set. rewrite Hc.
  destruct (limits s !! cacheType) as [limit|] eqn:Hl; last first.
  { simpl. rewrite Hc. simpl. split; [done|]. exists cache. by repeat split. }
  destruct (decide (limit <= Z.of_nat (length cache))) as [Hfull|Hroom]; last first.
  { simpl. rewrite Hc. simpl. split; [done|]. exists cache. by repeat split. }
  unfold evictOldest. rewrite Hc.
  destruct (oldest cache) as [[oldestKey t]|]; last first.
  { simpl. rewrite Hc. simpl. split; [done|]. exists cache.
    split; [done|]. split; [done|]. intros limit' [= <-]. lia. }
  destruct (truthy_key oldestKey); simpl.
  - rewrite lookup_insert_eq. simpl. split; [done|]. exists (JsMap.remove oldestKey cache).
    split; [by rewrite insert_insert_eq|]. split; [apply JsMapFacts.remove_sublist|].
    intros limit' [= <-]. lia.
  - rewrite Hc. simpl. split; [done|]. exists cache.
    split; [done|]. split; [done|]. intros limit' [= <-]. lia.
Qed.

Lemma bounded_set_cache cacheType cache cache' s :
  bounded s → caches s !! cacheType = Some cache →
  cache'.*1 ⊆ cache.*1 → (length cache' <= length cache)%nat →
  bounded (set_cache cacheType cache' s).
Proof.
  intros [Hkeys Hsize] Hc Hsub Hlen. split.
  - intros ty c k. simpl. rewrite lookup_insert. case_decide as Hty.
    + intros [= <-] Hk. subst. eapply Hkeys; [done|]. by apply Hsub.
    + apply Hkeys.
  - intros ty c limit. simpl. rewrite lookup_insert. case_decide as Hty.
    + intros [= <-] Hl Hone. subst. specialize (Hsize _ _ _ Hc Hl Hone). lia.
    + apply Hsize.
Qed.

Lemma bounded_same s s' :
  caches s' = caches s → limits s' = limits s → bounded s → bounded s'.
Proof. unfold bounded. by intros -> ->. Qed.

Lemma sublist_keys (cache cache' : list (string * entry)) :
  cache' `sublist_of` cache → cache'.*1 ⊆ cache.*1 ∧ (length cache' <= length cache)%nat.
Proof.
  intros Hsub. split; [|by apply sublist_length].
  by apply sublist_subseteq, fmap_sublist.
Qed.

Lemma step_bounded ev s :
  well_formed s → bounded s → sets_truthy_key ev → bounded (step ev s).
Proof.
  intros Hwf Hb Hev. pose proof Hb as [Hkeys Hsize]. pose proof Hwf as [_ Hnd].
  destruct ev as [dt|ty k|ty k v ttl|ty k|ty| ]; simpl.
  - by apply (bounded_same s).
  - unfold get. destruct (caches s !! ty) as [cache|] eqn:Hc; [|done].
    destruct (JsMap.get k cache) as [e|] eqn:He; [|by apply (bounded_same s)].
    case_decide; simpl.
    + apply (bounded_same (set_cache ty (JsMap.remove k cache) s)); [done|done|].
      eapply bounded_set_cache; [done|done|..];
        by apply sublist_keys, JsMapFacts.remove_sublist.
    + apply (bounded_same (set_cache ty (JsMap.set k (with_lastAccessed (clock s) e) cache) s));
        [done|done|].
      assert (k ∈ cache.*1) as Hk.
      { destruct (decide (k ∈ cache.*1)) as [|Hnot]; [done|].
        apply JsMapFacts.get_None in Hnot. congruence. }
      eapply bounded_set_cache; [done|done|..].
      * by rewrite JsMapFacts.keys_set, decide_True.
      * by rewrite JsMapFacts.length_set, decide_True.
  - destruct (caches s !! ty) as [cache|] eqn:Hc; last first.
    { unfold set. by rewrite Hc. }
    destruct (set_shape ty k v ttl s cache Hc) as (Hlim & cache1 & Hcs & Hsub & Hroom).
    destruct (sublist_keys _ _ Hsub) as [Hsubk Hlen].
    split.
    + intros ty' c k'. rewrite Hcs, lookup_insert. case_decide as Hty; [|apply Hkeys].
      intros [= <-]. rewrite JsMapFacts.keys_set.
      assert (k' ∈ cache1.*1 → truthy_key k' = true) as Hold.
      { intros Hk'. eapply Hkeys; [exact Hc|]. by apply Hsubk. }
      case_decide; [done|].
      intros [?|Heq%list_elem_of_singleton]%elem_of_app; [by apply Hold|by subst k'].
    + intros ty' c limit. rewrite Hlim.
      destruct (decide (ty = ty')) as [<-|Hty]; last first.
      { rewrite Hcs, lookup_insert_ne by done. apply Hsize. }
      intros Hc' Hl Hone. specialize (Hsize _ _ _ Hc Hl Hone).
      destruct (decide (Z.of_nat (length cache) < limit)) as [Hlt|Hfull].
      * rewrite Hcs, lookup_insert_eq in Hc'. injection Hc' as <-.
        rewrite (Hroom limit Hl Hlt), JsMapFacts.length_set. case_decide; lia.
      * destruct (set_evicts_oldest s ty k v ttl cache limit Hwf Hc Hl Hone)
          as (k0 & e0 & _ & _ & _ & _ & Hbound);
          [lia|intros k0 Hk0; by apply (Hkeys ty cache)|].
        unfold size in Hbound. by rewrite Hc' in Hbound.
  - unfold delete. destruct (caches s !! ty) as [cache|] eqn:Hc; [|done].
    eapply bounded_set_cache; [done|done|..];
      by apply sublist_keys, JsMapFacts.remove_sublist.
  - unfold clear. destruct (caches s !! ty) as [cache|] eqn:Hc; [|done].
    eapply bounded_set_cache; [done|done|..]; by apply sublist_keys, sublist_nil_l.
  - destruct (cleanup_spec cacheTypes s Hwf cacheTypes_NoDup) as (_ & _ & Hlim & Hcs).
    unfold cleanup. split.
    + intros ty c k. rewrite Hcs. case_decide; [|apply Hkeys].
      destruct (caches s !! ty) as [cache|] eqn:Hc; [|done]. simpl.
      intros [= <-] Hk. eapply Hkeys; [done|].
      destruct (sublist_keys cache
                  (filter (λ kv : string * entry, ¬ expiresAt kv.2 < clock s) cache))
        as [Hsubk _]; [apply sublist_filter|]. by apply Hsubk.
    + intros ty c limit. rewrite Hcs, Hlim. case_decide; [|apply Hsize].
      destruct (caches s !! ty) as [cache|] eqn:Hc; [|done]. simpl.
      intros [= <-] Hl Hone. specialize (Hsize _ _ _ Hc Hl Hone).
      pose proof (length_filter (λ kv : string * entry, ¬ expiresAt kv.2 < clock s) cache).
      lia.
Qed.

Lemma run_bounded o now evs :
  Forall sets_truthy_key evs →
  bounded (run evs (constructor o now)) ∧
  limits (run evs (constructor o now)) = limits (constructor o now).
Proof.
  intros Hevs.
  induction evs as [|ev evs IH] using rev_ind.
  - assert (∀ ty cache, caches (constructor o now) !! ty = Some cache → cache = [])
      as Hempty.
    { intros ty cache Hc. simpl in Hc.
      repeat (rewrite lookup_insert in Hc; case_decide; [by injection Hc|]).
      by rewrite lookup_empty in Hc. }
    split; [|done]. split.
    + intros ty cache k Hc Hk. apply Hempty in Hc as ->. by apply elem_of_nil in Hk.
    + intros ty cache limit' Hc _ Hone'. apply Hempty in Hc as ->. simpl. lia.
  - apply Forall_app in Hevs as [Hevs Hev]. rewrite Forall_singleton in Hev.
    destruct (IH Hevs) as [Hb Hlim]. rewrite cache_run_snoc.
    pose proof (step_bounded ev _ (run_well_formed evs o now) Hb Hev) as Hb'.
    split; [done|]. rewrite <- Hlim.
    destruct ev as [dt|ty k|ty k v ttl|ty k|ty| ]; unfold step; try done.
    + unfold get. by repeat case_match.
    + destruct (caches (run evs (constructor o now)) !! ty) as [cache|] eqn:Hc.
      * by destruct (set_shape ty k v ttl _ cache Hc) as (-> & _).
      * unfold set. by rewrite Hc.
    + unfold delete. by repeat case_match.
    + unfold clear. by repeat case_match.
    + unfold cleanup.
      by destruct (cleanup_spec cacheTypes _ (run_well_formed evs o now)
                     cacheTypes_NoDup) as (_ & _ & -> & _).
Qed.

(** X23.  The size limit holds as long as no entry is stored under the empty
    key.  For a cache type with a limit of at least one, and a sequence of
    events whose [set] calls all use non-empty keys, the cache never holds
    more entries than its limit. *)
Theorem cache_size_within_limit (o : options) (now : Z) (evs : list event)
    (cacheType : string) (limit : Z) :
  Forall sets_truthy_key evs →
  limits (constructor o now) !! cacheType = Some limit →
  1 <= limit →
  Z.of_nat (size cacheType (run evs (constructor o now))) <= limit.
Proof.
  intros Hevs Hl Hone.
  destruct (run_bounded o now evs Hevs) as [[_ Hsize] Hlim].
  unfold size.
  destruct (caches (run evs (constructor o now)) !! cacheType) as [cache|] eqn:Hc;
    simpl; [|lia].
  eapply Hsize; [done| |done]. by rewrite Hlim.
Qed.

Lemma cache_size_within_limit_witness :
  Z.of_nat (size "priceData"
              (run [Set_ "priceData" "a" (VNum 1) None; Set_ "priceData" "b" (VNum 2) None]
                 (constructor empty_key_options 0))) <= 1.
Proof.
  apply (cache_size_within_limit empty_key_options 0
           [Set_ "priceData" "a" (VNum 1) None; Set_ "priceData" "b" (VNum 2) None]
           "priceData" 1).
  - repeat constructor.
  - reflexivity.
  - lia.
Defined.

(** X24.  The eviction is least-recently-used: when a [set] has to make room,
    an entry that was read or written later than some other entry of the
    cache is not the one that goes.  (Keys are non-empty, as for the size
    limit, and the limit is at least one.) *)
Theorem recently_used_entry_survives (o : options) (now : Z) (evs : list event)
    (cacheType key : string) (v : value) (customTTL : option Z)
    (cache : list (string * entry)) (limit : Z) (k1 k2 : string) (e1 e2 : entry) :
  Forall sets_truthy_key evs →
  caches (run evs (constructor o now)) !! cacheType = Some cache →
  limits (run evs (constructor o now)) !! cacheType = Some limit →
  1 <= limit →
  (k1, e1) ∈ cache → (k2, e2) ∈ cache →
  lastAccessed e2 < lastAccessed e1 →
  key ≠ k1 →
  ∃ cache',
    caches (set cacheType key v customTTL (run evs (constructor o now))).2 !! cacheType
      = Some cache' ∧
    JsMap.get k1 cache' = Some e1.
Proof.
  intros Hevs Hc Hl Hone Hin1 Hin2 Hlater Hkey.
  destruct (run_bounded o now evs Hevs) as [[Hkeys Hsize] _].
  pose proof (run_well_formed evs o now) as Hwf. pose proof Hwf as [_ Hnd].
  set (s := run evs (constructor o now)) in *.
  specialize (Hnd _ _ Hc).
  pose proof (JsMapMore.elem_get_Some _ _ _ Hnd Hin1) as Hget1.
  destruct (set_shape cacheType key v customTTL s cache Hc)
    as (_ & cache1 & Hcs & Hsub & Hroom).
  rewrite Hcs, lookup_insert_eq. eexists. split; [done|].
  rewrite JsMapMore.get_set_ne by done.
  destruct (decide (Z.of_nat (length cache) < limit)) as [Hlt|Hfull].
  { by rewrite (Hroom limit Hl Hlt). }
  specialize (Hsize _ _ _ Hc Hl Hone).
  destruct (set_evicts_oldest s cacheType key v customTTL cache limit Hwf Hc Hl Hone)
    as (k0 & e0 & Hin0 & Hmin & _ & Hset & _);
    [lia|intros k Hk; by apply (Hkeys cacheType cache)|].
  rewrite Hcs, lookup_insert_eq in Hset. injection Hset as Hset.
  apply (f_equal (JsMap.get k1)) in Hset.
  rewrite !JsMapMore.get_set_ne in Hset by done. rewrite Hset.
  rewrite JsMapMore.get_remove_ne; [done|].
  intros ->. pose proof (JsMapMore.elem_get_Some _ _ _ Hnd Hin0) as Hget0.
  assert (e0 = e1) as -> by congruence.
  specialize (Hmin (k2, e2) Hin2). simpl in Hmin. lia.
Qed.

Lemma recently_used_entry_survives_witness :
  ∃ cache',
    caches (set "priceData" "c" (VNum 3) None
              (run [Set_ "priceData" "a" (VNum 1) None; Tick 5;
                    Set_ "priceData" "b" (VNum 2) None; Tick 5; Get "priceData" "a"]
                 (constructor (Options None None None None None None
                                 None (Some 2) None None None None) 0))).2 !! "priceData"
      = Some cache' ∧
    JsMap.get "a" cache' = Some (Entry (VNum 1) 0 30000 10).
Proof.
  eapply (recently_used_entry_survives _ 0
            [Set_ "priceData" "a" (VNum 1) None; Tick 5;
             Set_ "priceData" "b" (VNum 2) None; Tick 5; Get "priceData" "a"]
            "priceData" "c" (VNum 3) None
            [("a", Entry (VNum 1) 0 30000 10); ("b", Entry (VNum 2) 5 30005 5)] 2
            "a" "b" (Entry (VNum 1) 0 30000 10) (Entry (VNum 2) 5 30005 5)).
  - repeat constructor.
  - by vm_compute.
  - by vm_compute.
  - lia.
  - apply list_elem_of_here.
  - apply list_elem_of_further, list_elem_of_here.
  - simpl. lia.
  - done.
Defined.

End CacheManagerMore.

Module RPCManagerMore.
Import RPCManager RPCManagerFacts.

Lemma switch_loop_config fuel s :
  maxFailures (switch_loop fuel s).2 = maxFailures s ∧
  cooldownPeriod (switch_loop fuel s).2 = cooldownPeriod s ∧
  endpoints (switch_loop fuel s).2 = endpoints s ∧
  failureCounts (switch_loop fuel s).2 = failureCounts s ∧
  lastFailureTime (switch_loop fuel s).2 = lastFailureTime s ∧
  clock (switch_loop fuel s).2 = clock s.
Proof.
  revert s. induction fuel as [|fuel IH]; intros s; simpl; [done|].
  destruct (getCurrentEndpoint _) as [e|]; [|done].
  destruct (isEndpointInCooldown _ _); [|done].
  by destruct (IH (set_index ((currentEndpointIndex s + 1) `mod` length (endpoints s)) s))
    as (-> & -> & -> & -> & -> & ->).
Qed.

Lemma rpc_step_config ev s :
  maxFailures (step ev s) = maxFailures s ∧
  cooldownPeriod (step ev s) = cooldownPeriod s ∧
  endpoints (step ev s) = endpoints s.
Proof.
  destruct ev as [dt|nm|nm| ]; simpl; try done.
  - unfold handleEndpointFailure. case_decide; [|done]. unfold switchToNextEndpoint.
    match goal with |- context [switch_loop ?n ?s1] =>
      by destruct (switch_loop_config n s1) as (-> & -> & -> & _)
    end.
  - unfold switchToNextEndpoint.
    by destruct (switch_loop_config (length (endpoints s)) s) as (-> & -> & -> & _).
Qed.

Lemma run_configured helius now evs : configured (run evs (constructor helius now)).
Proof.
  induction evs as [|ev evs IH] using rev_ind.
  - split; [done|]. split; [done|]. by apply (run_index_inv []).
  - rewrite rpc_run_snoc. destruct IH as (Hm & Hc & Hi). unfold configured.
    destruct (rpc_step_config ev (run evs (constructor helius now))) as (-> & -> & _).
    repeat split; try done. by apply step_index_inv.
Qed.

(** *** The cooldown of an endpoint *)

(** X25.  An endpoint is shut out for exactly one minute after the failure that
    brings its count to five or more: [dt] milliseconds after that failure
    it is in cooldown when [dt < 60000] and selectable again from
    [dt = 60000] on.  Reaching the end of the cooldown does not reset the
    count, so the next single failure shuts the endpoint out again.  With
    fewer than five failures counted an endpoint is never in cooldown, and
    a success takes it out of cooldown at once. *)
Theorem cooldown_lasts_a_minute (helius : bool) (now : Z) (evs : list event)
    (endpointName : string) (dt : Z) :
  0 <= dt →
  let s := run evs (constructor helius now) in
  (4 <= default 0 (failureCounts s !! endpointName) →
   isEndpointInCooldown endpointName (step (Tick dt) (step (Failure endpointName) s))
     = bool_decide (dt < 60000)) ∧
  (default 0 (failureCounts s !! endpointName) < 4 →
   isEndpointInCooldown endpointName (step (Tick dt) (step (Failure endpointName) s))
     = false) ∧
  isEndpointInCooldown endpointName (step (Tick dt) (step (Success endpointName) s))
    = false.
Proof.
  intros Hdt s. destruct (run_configured helius now evs) as (Hm & Hc & _). fold s in Hm, Hc.
  assert (∀ s0, maxFailures s0 = 5 → cooldownPeriod s0 = 60000 →
            isEndpointInCooldown endpointName
              (step (Tick dt) (step (Failure endpointName) s0))
            = if decide (5 <= default 0 (failureCounts s0 !! endpointName) + 1)
              then bool_decide (dt < 60000) else false) as Hfail.
  { intros s0 Hm0 Hc0. unfold step, handleEndpointFailure. simpl. rewrite Hm0.
    assert (∀ s1, failureCounts s1 = <[endpointName:=default 0 (failureCounts s0 !! endpointName) + 1]> (failureCounts s0) →
              lastFailureTime s1 = <[endpointName:=clock s0]> (lastFailureTime s0) →
              clock s1 = clock s0 → maxFailures s1 = 5 → cooldownPeriod s1 = 60000 →
              isEndpointInCooldown endpointName (set_clock (clock s1 + Z.max 0 dt) s1)
              = if decide (5 <= default 0 (failureCounts s0 !! endpointName) + 1)
                then bool_decide (dt < 60000) else false) as Hcool.
    { intros s1 Hf Hl Hk Hm1 Hc1. unfold isEndpointInCooldown. simpl.
      rewrite Hf, Hl, Hk, Hm1, Hc1, !lookup_insert_eq. simpl.
      case_decide; [|done]. unfold or_default.
      destruct (decide (clock s0 = 0)) as [->|_]; apply bool_decide_ext; lia. }
    case_decide.
    - unfold switchToNextEndpoint.
      match goal with |- context [switch_loop ?n ?s1] =>
        destruct (switch_loop_config n s1) as (H1 & H2 & _ & H4 & H5 & H6)
      end.
      apply Hcool; try done; by rewrite ?H1, ?H2, ?H4, ?H5, ?H6.
    - by apply Hcool. }
  split; [|split].
  - intros Hcount. rewrite Hfail by done. by rewrite decide_True by lia.
  - intros Hcount. rewrite Hfail by done. by rewrite decide_False by lia.
  - unfold step, resetFailureCount, isEndpointInCooldown. simpl.
    rewrite Hm, lookup_insert_eq. cbn [from_option id]. by rewrite decide_False by lia.
Qed.

Lemma cooldown_lasts_a_minute_witness :
  isEndpointInCooldown "Helius (Primary)"
    (step (Tick 59999)
       (step (Failure "Helius (Primary)")
          (run (replicate 4 (Failure "Helius (Primary)")) (constructor true 0))))
  = true.
Proof.
  destruct (cooldown_lasts_a_minute true 0 (replicate 4 (Failure "Helius (Primary)"))
              "Helius (Primary)" 59999) as (Hcool & _); [lia|].
  rewrite Hcool; [reflexivity|]. by vm_compute.
Defined.

(** *** Switching *)

Lemma mod_moves (n idx k : nat) :
  (idx < n)%nat → (1 <= k < n)%nat → ((idx + k) `mod` n ≠ idx)%nat.
Proof.
  intros Hidx Hk. destruct (decide (idx + k < n)%nat) as [Hlt|Hge].
  - rewrite Nat.mod_small by done. lia.
  - replace (idx + k)%nat with ((idx + k - n) + 1 * n)%nat by lia.
    rewrite Nat.Div0.mod_add, Nat.mod_small by lia. lia.
Qed.

(** X26.  [switchToNextEndpoint] leaves the current endpoint whenever another
    endpoint is out of cooldown: it answers [true], the index has moved,
    and the endpoint it has moved to is not in cooldown. *)
Theorem switch_leaves_current (helius : bool) (now : Z) (evs : list event)
    (i : nat) (e' : endpoint) :
  endpoints (run evs (constructor helius now)) !! i = Some e' →
  i ≠ currentEndpointIndex (run evs (constructor helius now)) →
  isEndpointInCooldown (name e') (run evs (constructor helius now)) = false →
  ∃ s' e,
    switchToNextEndpoint (run evs (constructor helius now)) = (Some true, s') ∧
    currentEndpointIndex s' ≠ currentEndpointIndex (run evs (constructor helius now)) ∧
    getCurrentEndpoint s' = Some e ∧
    isEndpointInCooldown (name e) s' = false.
Proof.
  intros Hi Hne Hfree. pose proof (run_index_inv evs helius now) as Hidx.
  set (s := run evs (constructor helius now)) in *. unfold index_inv in Hidx.
  destruct (switchToNextEndpoint s) as [res s'] eqn:Hswitch.
  destruct (switchToNextEndpoint_spec s res s' Hidx Hswitch)
    as (_ & _ & [(-> & k & Hk & Hidx' & (e & He & Hcool) & Hskipped)|(_ & _ & Hall)]).
  - exists s', e. split; [done|]. split; [|done].
    assert (i < length (endpoints s))%nat as Hlen by (by eapply lookup_lt_Some).
    destruct (mod_reaches (length (endpoints s)) (currentEndpointIndex s) i Hidx Hlen)
      as (j & Hj & Hji).
    assert (j ≠ length (endpoints s)) as Hjn.
    { intros ->. apply Hne. rewrite <- Hji.
      replace (currentEndpointIndex s + length (endpoints s))%nat
        with (currentEndpointIndex s + 1 * length (endpoints s))%nat by lia.
      by rewrite Nat.Div0.mod_add, Nat.mod_small. }
    assert (k <= j)%nat as Hkj.
    { destruct (decide (k <= j)%nat) as [|Hgt]; [done|].
      destruct (Hskipped j) as (e0 & He0 & Hcool0); [lia|].
      rewrite Hji, Hi in He0. injection He0 as <-. congruence. }
    rewrite Hidx'. apply mod_moves; [done|lia].
  - assert (e' ∈ endpoints s) as Hin by (by eapply list_elem_of_lookup_2).
    specialize (Hall e' Hin). congruence.
Qed.

Lemma switch_leaves_current_witness :
  ∃ s' e,
    switchToNextEndpoint (run recovered_events (constructor true 0)) = (Some true, s') ∧
    currentEndpointIndex s'
      ≠ currentEndpointIndex (run recovered_events (constructor true 0)) ∧
    getCurrentEndpoint s' = Some e.
Proof.
  destruct (switch_leaves_current true 0 recovered_events 2 solana_backup)
    as (s' & e & Hs & Hne & He & _); [by vm_compute|by vm_compute|by vm_compute|].
  exists s', e. split; [exact Hs|]. split; [exact Hne|exact He].
Defined.

(** *** [getEndpointStats] *)

(** X27.  [getEndpointStats] lists the endpoints in their order, and reports
    exactly one of them as active: the entry at the current index, which is
    the entry of the current endpoint.  (An active endpoint may at the same
    time be reported as in cooldown.) *)
Theorem stats_report_one_active (helius : bool) (now : Z) (evs : list event) :
  length (getEndpointStats (run evs (constructor helius now)))
    = length (endpoints (run evs (constructor helius now))) ∧
  (∀ i st, getEndpointStats (run evs (constructor helius now)) !! i = Some st →
     stat_index st = i ∧
     (isActive st = true ↔ i = currentEndpointIndex (run evs (constructor helius now))) ∧
     ∃ e, endpoints (run evs (constructor helius now)) !! i = Some e ∧
          stat_name st = name e ∧
          inCooldown st
            = isEndpointInCooldown (name e) (run evs (constructor helius now))) ∧
  ∃ st e,
    getEndpointStats (run evs (constructor helius now))
      !! currentEndpointIndex (run evs (constructor helius now)) = Some st ∧
    isActive st = true ∧
    getCurrentEndpoint (run evs (constructor helius now)) = Some e ∧
    stat_name st = name e.
Proof.
  pose proof (run_index_inv evs helius now) as Hidx.
  set (s := run evs (constructor helius now)) in *. unfold index_inv in Hidx.
  unfold getEndpointStats. split; [by rewrite length_imap|]. split.
  - intros i st. rewrite list_lookup_imap.
    destruct (endpoints s !! i) as [e|] eqn:He; [|done]. simpl.
    intros [= <-]. simpl. split; [done|]. split; [apply bool_decide_eq_true|].
    by exists e.
  - destruct (lookup_lt_is_Some_2 (endpoints s) (currentEndpointIndex s) Hidx) as [e He].
    eexists _, e. rewrite list_lookup_imap, He. simpl. split; [done|]. simpl.
    split; [by apply bool_decide_eq_true|]. done.
Qed.

(** *** [retryWithFallback] *)

Lemma switch_config s :
  maxFailures (switchToNextEndpoint s).2 = maxFailures s ∧
  endpoints (switchToNextEndpoint s).2 = endpoints s ∧
  failureCounts (switchToNextEndpoint s).2 = failureCounts s ∧
  lastFailureTime (switchToNextEndpoint s).2 = lastFailureTime s.
Proof.
  unfold switchToNextEndpoint.
  by destruct (switch_loop_config (length (endpoints s)) s) as (-> & _ & -> & -> & -> & _).
Qed.

Lemma rpc_run_config evs s :
  maxFailures (run evs s) = maxFailures s ∧ endpoints (run evs s) = endpoints s.
Proof.
  induction evs as [|ev evs IH] using rev_ind; [done|].
  rewrite rpc_run_snoc. destruct IH as [<- <-].
  by destruct (rpc_step_config ev (run evs s)) as (-> & _ & ->).
Qed.

Lemma run_ticks_index evs s :
  Forall is_tick evs → currentEndpointIndex (run evs s) = currentEndpointIndex s.
Proof.
  revert s. induction evs as [|ev evs IH]; intros s Hticks; [done|].
  apply Forall_cons in Hticks as [Hev Hticks].
  change (run (ev :: evs) s) with (run evs (step ev s)). rewrite IH by done.
  by destruct ev.
Qed.

Lemma rethrown_reads error : read_message (rethrown error) = None.
Proof. by destruct error. Qed.

(** How an attempt of [createConnection] ends. *)
Lemma connect_cases network attempt s :
  (getCurrentEndpoint s = None ∧
   connect network attempt s = (Failed (Other undefined_endpoint), s))
  ∨
  ∃ e, getCurrentEndpoint s = Some e ∧
    (((network attempt).2 = None ∧
      connect network attempt s
        = (Succeeded (VStr (name e)),
           resetFailureCount (name e) (run (network attempt).1 s)))
     ∨
     (∃ error s1,
        (network attempt).2 = Some error ∧
        connect network attempt s = (Failed (rethrown error), s1) ∧
        maxFailures s1 = maxFailures s ∧ endpoints s1 = endpoints s)).
Proof.
  unfold connect, createConnection.
  destruct (getCurrentEndpoint s) as [e|] eqn:He; [right; exists e; split; [done|]|by left].
  unfold createConnection_settled.
  destruct (network attempt).2 as [error|]; [right|by left].
  destruct (rpc_run_config (network attempt).1 s) as [Hm He'].
  destruct error as [| |error]; simpl.
  - by eexists Undefined, _.
  - by eexists Null, _.
  - eexists (Other error), _. do 2 (split; [done|]).
    destruct (rpc_step_config (Failure (name e)) (run (network attempt).1 s))
      as (Hm' & _ & He'').
    simpl in Hm', He''. split; congruence.
Qed.

Lemma retry_loop_connect network pause maxRetries remaining attempt lastError s res s' :
  retry_loop remaining attempt maxRetries (connect network) pause lastError s = (res, s') →
  maxFailures s' = maxFailures s ∧ endpoints s' = endpoints s ∧
  match res with
  | Returned v =>
      ∃ i e, (attempt <= i < attempt + remaining)%nat ∧ (network i).2 = None ∧
             e ∈ endpoints s ∧ v = VStr (name e) ∧
             failureCounts s' !! name e = Some 0 ∧ lastFailureTime s' !! name e = None ∧
             (Forall is_tick (network i).1 → getCurrentEndpoint s' = Some e)
  | Thrown err =>
      (remaining = 0%nat ∧ err = lastError) ∨
      err = Other undefined_endpoint ∨
      ∃ i error, (attempt <= i < attempt + remaining)%nat ∧
                 (network i).2 = Some error ∧ err = rethrown error
  end.
Proof.
  revert attempt lastError s.
  induction remaining as [|remaining IH]; intros attempt lastError s; simpl.
  { intros [= <- <-]. do 2 (split; [done|]). by left. }
  set (goal := λ res s',
         maxFailures s' = maxFailures s ∧ endpoints s' = endpoints s ∧
         match res with
         | Returned v =>
             ∃ i e, (attempt <= i < attempt + S remaining)%nat ∧ (network i).2 = None ∧
                    e ∈ endpoints s ∧ v = VStr (name e) ∧
                    failureCounts s' !! name e = Some 0 ∧
                    lastFailureTime s' !! name e = None ∧
                    (Forall is_tick (network i).1 → getCurrentEndpoint s' = Some e)
         | Thrown err =>
             (S remaining = 0%nat ∧ err = lastError) ∨
             err = Other undefined_endpoint ∨
             ∃ i error, (attempt <= i < attempt + S remaining)%nat ∧
                        (network i).2 = Some error ∧ err = rethrown error
         end).
  change (match connect network attempt s with
          | (Succeeded result, s0) => (Returned result, s0)
          | (Failed error, s0) =>
              match read_message error with
              | Some typeError => (Thrown (Other typeError), s0)
              | None =>
                  if decide (Z.of_nat attempt < maxRetries - 1)
                  then match switchToNextEndpoint s0 with
                       | (Some true, s1) =>
                           retry_loop remaining (S attempt) maxRetries (connect network)
                             pause error
                             (run (pause attempt) (set_clock (clock s1 + 1000) s1))
                       | (Some false, s1) => (Thrown error, s1)
                       | (None, s1) => (Thrown (Other undefined_endpoint), s1)
                       end
                  else retry_loop remaining (S attempt) maxRetries (connect network)
                         pause error s0
              end
          end = (res, s') → goal res s').
  assert (∀ error s1,
            maxFailures s1 = maxFailures s → endpoints s1 = endpoints s →
            read_message error = None →
            (error = Other undefined_endpoint ∨
             ∃ thrown, (network attempt).2 = Some thrown ∧ error = rethrown thrown) →
            (if decide (Z.of_nat attempt < maxRetries - 1)
             then match switchToNextEndpoint s1 with
                  | (Some true, s2) =>
                      retry_loop remaining (S attempt) maxRetries (connect network)
                        pause error
                        (run (pause attempt) (set_clock (clock s2 + 1000) s2))
                  | (Some false, s2) => (Thrown error, s2)
                  | (None, s2) => (Thrown (Other undefined_endpoint), s2)
                  end
             else retry_loop remaining (S attempt) maxRetries (connect network)
                    pause error s1)
            = (res, s') → goal res s') as Hfailed.
  { intros error s1 Hm He Hread Herror.
    assert (goal (Thrown error) s1) as Hgive_up.
    { do 2 (split; [done|]).
      destruct Herror as [->|(thrown & Hnet & ->)]; [by right; left|].
      right. right. exists attempt, thrown. split; [lia|done]. }
    assert (∀ s2, maxFailures s2 = maxFailures s → endpoints s2 = endpoints s →
              retry_loop remaining (S attempt) maxRetries (connect network) pause error s2
              = (res, s') → goal res s') as Hnext.
    { intros s2 Hm2 He2 Hloop. apply IH in Hloop as (Hm' & He' & Hres).
      split; [congruence|]. split; [congruence|].
      destruct res as [v|err].
      - destruct Hres as (i & e & Hi & Hnet & Hin & Hrest).
        exists i, e. split; [lia|]. split; [done|]. split; [congruence|done].
      - destruct Hres as [[_ ->]|[->|(i & thrown & Hi & Hnet & ->)]].
        + by destruct Hgive_up as (_ & _ & ?).
        + by right; left.
        + right. right. exists i, thrown. split; [lia|done]. }
    case_decide; [|by apply Hnext].
    destruct (switch_config s1) as (Hms & Hes & _).
    destruct (switchToNextEndpoint s1) as [[[|]|] s2]; simpl in Hms, Hes.
    - apply Hnext.
      + destruct (rpc_run_config (pause attempt) (set_clock (clock s2 + 1000) s2))
          as [-> _]. simpl. congruence.
      + destruct (rpc_run_config (pause attempt) (set_clock (clock s2 + 1000) s2))
          as [_ ->]. simpl. congruence.
    - intros [= <- <-]. destruct Hgive_up as (_ & _ & Hres).
      split; [congruence|]. split; [congruence|done].
    - intros [= <- <-]. split; [congruence|]. split; [congruence|]. by right; left. }
  destruct (connect_cases network attempt s)
    as [(_ & ->)|(e & He & [(Hnet & ->)|(error & s1 & Hnet & -> & Hm & He1)])].
  - apply Hfailed; [done|done|done|by left].
  - intros [= <- <-].
    destruct (rpc_run_config (network attempt).1 s) as [Hm He'].
    split; [done|]. split; [done|].
    exists attempt, e. split; [lia|]. split; [done|].
    split; [by eapply list_elem_of_lookup_2|]. split; [done|]. simpl.
    split; [by rewrite lookup_insert_eq|]. split; [by rewrite lookup_delete_eq|].
    intros Hticks. unfold getCurrentEndpoint. simpl.
    by rewrite He', (run_ticks_index _ _ Hticks).
  - rewrite rethrown_reads. apply Hfailed; [done|done|apply rethrown_reads|].
    right. by exists error.
Qed.

(** X29.  [retryWithFallback] around [createConnection], whatever else
    happens to the registry while [getVersion] is awaited and during the
    pauses.  When it returns, the connection is one to an endpoint of the
    list, the one that was current when the successful attempt began; at
    that moment that endpoint has a failure count of zero and is not in
    cooldown, and it is the current endpoint if nobody else touched the
    registry during the attempt.  When it throws, it throws what one of the
    at most [maxRetries] attempts threw: the error of [getVersion], or the
    [TypeError] of reading [message] when [getVersion] rejected with
    [undefined] or [null] ([undefined] when [maxRetries <= 0] allows no
    attempt; the [TypeError] of a registry without endpoints apart).  An
    attempt whose [getVersion] rejects with [undefined] or [null] is not
    counted as a failure of the endpoint. *)
Theorem retry_connection_outcome (network : nat → list event * option thrown)
    (pause : nat → list event) (maxRetries : Z) (s : state) :
  (∀ v s', retryWithFallback (connect network) pause maxRetries s = (Returned v, s') →
     ∃ i e, Z.of_nat i < maxRetries ∧ (network i).2 = None ∧
            e ∈ endpoints s' ∧ v = VStr (name e) ∧
            failureCounts s' !! name e = Some 0 ∧
            (0 < maxFailures s → isEndpointInCooldown (name e) s' = false) ∧
            (Forall is_tick (network i).1 → getCurrentEndpoint s' = Some e)) ∧
  (∀ err s', retryWithFallback (connect network) pause maxRetries s = (Thrown err, s') →
     (maxRetries <= 0 ∧ err = Undefined) ∨
     err = Other undefined_endpoint ∨
     ∃ i error, Z.of_nat i < maxRetries ∧ (network i).2 = Some error ∧
                err = rethrown error) ∧
  (∀ during error typeError e s0,
     getCurrentEndpoint s0 = Some e → read_message error = Some typeError →
     createConnection during (Some error) s0 = (Failed (Other typeError), run during s0)).
Proof.
  unfold retryWithFallback. split; [|split].
  - intros v s' Hloop.
    apply retry_loop_connect in Hloop
      as (Hm & He & i & e & Hi & Hnet & Hin & -> & Hcount & _ & Hcurrent).
    exists i, e. split; [lia|]. split; [done|]. split; [by rewrite He|].
    do 2 (split; [done|]). split; [|done]. intros Hpos.
    unfold isEndpointInCooldown. rewrite Hcount, Hm. simpl. by rewrite decide_False by lia.
  - intros err s' Hloop. apply retry_loop_connect in Hloop as (_ & _ & Hres).
    destruct Hres as [[Hzero ->]|[->|(i & error & Hi & Hnet & ->)]].
    + left. split; [lia|done].
    + by right; left.
    + right. right. exists i, error. split; [lia|done].
  - intros during error typeError e s0 He Hread.
    unfold createConnection, createConnection_settled. by rewrite He, Hread.
Qed.

(** X30.  When the first attempt fails, [retryWithFallback] gives up at once
    in two cases, whatever [maxRetries] allows.  When the operation threw
    [undefined] or [null], the [catch] block fails on [error.message]: the
    caller gets that [TypeError], no endpoint is switched and no second
    attempt is made.  When every endpoint is in cooldown after the failure,
    the error of the attempt is thrown without a second attempt and without
    the pause. *)
Theorem retry_gives_up_when_all_cooling
    (operation : nat → state → attempt_result * state) (pause : nat → list event)
    (maxRetries : Z) (s s1 : state) (error : thrown) :
  operation 0%nat s = (Failed error, s1) →
  (∀ typeError,
     1 <= maxRetries → read_message error = Some typeError →
     retryWithFallback operation pause maxRetries s = (Thrown (Other typeError), s1)) ∧
  (2 <= maxRetries → read_message error = None →
   (currentEndpointIndex s1 < length (endpoints s1))%nat →
   (∀ e, e ∈ endpoints s1 → isEndpointInCooldown (name e) s1 = true) →
   retryWithFallback operation pause maxRetries s = (Thrown error, s1)).
Proof.
  intros Hop. unfold retryWithFallback. split.
  - intros typeError Hmax Hread.
    destruct (Z.to_nat maxRetries) as [|n] eqn:Hn; [lia|]. simpl.
    by rewrite Hop, Hread.
  - intros Hmax Hread Hidx Hall.
    destruct (Z.to_nat maxRetries) as [|n] eqn:Hn; [lia|]. simpl.
    rewrite Hop, Hread, decide_True by lia.
    destruct (switchToNextEndpoint s1) as [res s2] eqn:Hswitch.
    destruct (switchToNextEndpoint_spec s1 res s2 Hidx Hswitch)
      as (Hs2 & _ & [(-> & k & _ & _ & (e & He & Hcool) & _)|(-> & Hsame & _)]).
    + exfalso. rewrite Hs2 in He, Hcool. rewrite cooldown_set_index in Hcool.
      unfold getCurrentEndpoint in He. simpl in He.
      apply list_elem_of_lookup_2 in He. specialize (Hall e He). congruence.
    + rewrite Hs2, Hsame. by destruct s1.
Qed.

Lemma retry_gives_up_when_all_cooling_witness :
  (retryWithFallback (connect (λ _, ([Tick 40], Some fetch_failed))) (λ _, []) 3
     (run all_cooling_events (constructor false 0))).1
  = Thrown fetch_failed ∧
  (retryWithFallback (λ _ s, (Failed Undefined, s)) (λ _, []) 3 (constructor false 0)).1
  = Thrown (Other (cannot_read "undefined" "message")).
Proof.
  split.
  - destruct (retry_gives_up_when_all_cooling
                (connect (λ _, ([Tick 40], Some fetch_failed))) (λ _, []) 3
                (run all_cooling_events (constructor false 0))
                (connect (λ _, ([Tick 40], Some fetch_failed)) 0
                   (run all_cooling_events (constructor false 0))).2
                fetch_failed) as [_ Hcooling]; [by vm_compute|].
    rewrite Hcooling; [reflexivity|lia|reflexivity|vm_compute; lia|].
    clear Hcooling. intros e He. vm_compute in He.
    repeat (apply elem_of_cons in He as [->|He]; [vm_compute; reflexivity|]).
    by apply elem_of_nil in He.
  - destruct (retry_gives_up_when_all_cooling
                (λ _ s, (Failed Undefined, s)) (λ _, []) 3
                (constructor false 0) (constructor false 0) Undefined eq_refl)
      as [Hundefined _].
    rewrite (Hundefined (cannot_read "undefined" "message"));
      [reflexivity|lia|reflexivity].
Defined.

End RPCManagerMore.
